(** * Masked autoregressive normalizing flows (MANormalizingFlows.py)

    A shallow embedding of the MADE layer, the coupling stacks and the two
    flow models, together with the properties their specification states.

    Modelling conventions.
    - Tensors hold exact reals ([R]), not floating-point numbers; a batch is
      a list of rows and every operation of the source acts on each row
      independently, so [call] is given on one row and [predict] maps it
      over a batch.
    - Masks and order labels are integers ([Z]); a mask entry is cast to a
      real when it meets a kernel ([tf.multiply]).
    - Python exceptions raised by the source are the [Raise] branch of
      [outcome]; printed messages are collected in a list.
    - Random draws (order labels, permutations, initial weights, uniform and
      normal samples) are explicit arguments, so every statement holds for
      whatever the generators return.
    - Shape errors inside the tensor library are not modelled: elementwise
      operations stop at the shorter row and reads outside a row give 0.
      The statements about [call] and [sample] assume models whose shapes
      agree ([wf_flow], [wf_cond]), which is what the constructors
      establish ([flow_init_wf], [cond_init_wf]).
    - [np.searchsorted] is given by its contract for sorted input and
      [np.argsort] by a stable sort; the statements that use them are about
      sorted distributions and about permutations, where every
      implementation agrees. *)

From Stdlib Require Import String.
From Stdlib Require Import List ZArith Reals Lra Lia Bool Permutation Sorted Arith.
Import ListNotations.

Set Implicit Arguments.

(** ** Exceptions and messages *)

Inductive exn : Type :=
| TooFewInputs        (* "MADE Layer only supports at least two inputs." *)
| BadActivation       (* "Activation function must be 'linear', 'relu', ..." *)
| InputShapeMismatch  (* "Input shape mismatch. This MADE layer was ..." *)
| ActivationCount     (* "Either give no activations [] or one for each parameter!" *)
| HistShape           (* "Parameter histograms must be of the shape ..." *)
| NoParams            (* "If you don't want conditional parameters, ..." *)
| ParamsShape         (* "params argument of ... must have shape ..." *)
| IndexError          (* raised by Python and numpy indexing *)
| ValueError.         (* raised by numpy's [reshape] *)

Inductive message : Type :=
| WarnNumsMismatch    (* "Warning: MADE Layer number mismatch: ..." *)
| InfoConditional.    (* "Info: if you use conditional MADE layers, ..." *)

Inductive outcome (A : Type) : Type :=
| Ok (a : A)
| Raise (e : exn).

Arguments Ok {A} a.
Arguments Raise {A} e.

Definition bind {A B : Type} (c : outcome A) (k : A -> outcome B) : outcome B :=
  match c with
  | Ok a => k a
  | Raise e => Raise e
  end.

Notation "x <- c ;; k" := (bind c (fun x => k))
  (at level 61, c at next level, right associativity).

Fixpoint mapM {A B : Type} (f : A -> outcome B) (l : list A) : outcome (list B) :=
  match l with
  | [] => Ok []
  | a :: l' => b <- f a ;; bs <- mapM f l' ;; Ok (b :: bs)
  end.

(** ** Lists as tensors *)

Fixpoint zip_with {A B C : Type} (f : A -> B -> C) (u : list A) (v : list B) : list C :=
  match u, v with
  | a :: u', b :: v' => f a b :: zip_with f u' v'
  | _, _ => []
  end.

(** [range(n)] and [range(a, b)]. *)
Definition range (n : nat) : list nat := seq 0 n.
Definition range2 (a b : nat) : list nat := seq a (b - a).

(** Python / numpy indexing with a possibly negative index. *)
Definition py_index {A : Type} (l : list A) (i : Z) : outcome A :=
  let n := Z.of_nat (length l) in
  if (0 <=? i)%Z then
    match nth_error l (Z.to_nat i) with
    | Some a => Ok a
    | None => Raise IndexError
    end
  else if (- n <=? i)%Z then
    match nth_error l (Z.to_nat (n + i)) with
    | Some a => Ok a
    | None => Raise IndexError
    end
  else Raise IndexError.

(** [tf.gather(x, perm, axis=-1)] on one row. *)
Definition gather {A : Type} (d : A) (x : list A) (perm : list nat) : list A :=
  map (fun j => nth j x d) perm.

(** Matrix operations shared by the integer masks and the real kernels.
    A matrix is the list of its rows. *)
Section Linear.
Variable A : Type.
Variable zero : A.
Variables add mul : A -> A -> A.

Definition reduce_sum (v : list A) : A := fold_right add zero v.

Definition dot (u v : list A) : A := reduce_sum (zip_with mul u v).

Definition column (k : nat) (M : list (list A)) : list A :=
  map (fun row => nth k row zero) M.

Definition entry (M : list (list A)) (i j : nat) : A :=
  nth j (nth i M []) zero.

(** [M.T] for a matrix with [ncols] columns. *)
Definition transpose (ncols : nat) (M : list (list A)) : list (list A) :=
  map (fun j => column j M) (range ncols).

(** [matmul(x, M)] for one row [x] and a matrix with [ncols] columns. *)
Definition vec_mat (x : list A) (M : list (list A)) (ncols : nat) : list A :=
  map (fun k => dot x (column k M)) (range ncols).

Definition matmul (X M : list (list A)) (ncols : nat) : list (list A) :=
  map (fun x => vec_mat x M ncols) X.
End Linear.

Definition Zdot := dot 0%Z Z.add Z.mul.
Definition Zentry := entry 0%Z.
Definition Zmatmul := matmul 0%Z Z.add Z.mul.

Definition Rsum := reduce_sum 0%R Rplus.
Definition Rdot := dot 0%R Rplus Rmult.
Definition Rvec_mat := vec_mat 0%R Rplus Rmult.

Definition vadd : list R -> list R -> list R := zip_with Rplus.
Definition vsub : list R -> list R -> list R := zip_with Rminus.
Definition vmul : list R -> list R -> list R := zip_with Rmult.
Definition vexp : list R -> list R := map exp.
Definition vneg : list R -> list R := map Ropp.
Definition relu : list R -> list R := map (fun v => Rmax v 0).
Definition sigmoid (v : R) : R := (1 / (1 + exp (- v)))%R.

(** [tf.multiply(mask, kernel)]: the 0/1 mask gates the kernel entrywise. *)
Definition tf_multiply (mask : list (list Z)) (kernel : list (list R)) : list (list R) :=
  zip_with (zip_with (fun m w => (IZR m * w)%R)) mask kernel.

(** ** The MADE layer *)

Module MADE.

Record t : Type := mk {
  in_shape : nat;
  num_layers : nat;
  num_nodes : nat;
  masks : list (list (list Z));
  kernels : list (list (list R));
  biases : list (list R);
  nums : list (list Z);
  activation : string;
  n_params : nat
}.

Definition supported : list string :=
  ["relu"; "tanh"; "sigmoid"; "linear"]%string.

(** Shape of [np.array(a)] for a list of rows: [(0,)] for the empty list,
    [(rows, cols)] when all rows have one length, [(rows,)] otherwise (what
    numpy before 1.24 gives for ragged rows; later versions raise there, so
    statements about supplied labels take rows of one length). *)
Definition np_shape (a : list (list Z)) : list nat :=
  match a with
  | [] => [0]
  | r :: rest =>
      if forallb (fun r' => length r' =? length r) rest
      then [length a; length r]
      else [length a]
  end.

Definition shape_eqb (s1 s2 : list nat) : bool :=
  if list_eq_dec Nat.eq_dec s1 s2 then true else false.

Definition is_empty {A : Type} (l : list A) : bool :=
  match l with [] => true | _ => false end.

(** [MADE.__init__]; the result carries the messages printed on the way. *)
Definition init (in_shape num_layers num_nodes : nat) (activation : string)
    (random_nums : list (list Z)) (n_params : nat) (silent : bool)
  : outcome (t * list message) :=
  if in_shape <? 2 then Raise TooFewInputs
  else
    let mismatch :=
      negb (shape_eqb (np_shape random_nums) [num_layers; num_nodes])
      && negb (is_empty random_nums) in
    let nums := if mismatch then [] else random_nums in
    let out1 := if mismatch then [WarnNumsMismatch] else [] in
    if negb (existsb (String.eqb activation) supported) then Raise BadActivation
    else
      let out2 := if negb (n_params =? 0) && negb silent
                  then [InfoConditional] else [] in
      Ok (mk in_shape num_layers num_nodes [] [] [] nums activation n_params,
          out1 ++ out2).

(** [nums[l, k]] *)
Definition num_at (nums : list (list Z)) (l k : nat) : Z :=
  nth k (nth l nums []) 0%Z.

Section Masks.
Variables (D P L W x : nat).
Variable nums : list (list Z).

(** Input to first hidden layer. The list of rows is the array the code
    builds when there is a hidden unit ([1 <= W + x]); without one numpy
    gives the empty array of shape [(0,)], which has no rows. *)
Definition mask_in : list (list Z) :=
  transpose 0%Z (D + P)
    (map (fun k =>
            map (fun d => if (num_at nums 0 k >=? Z.of_nat d)%Z then 1%Z else 0%Z)
                (range2 1 (D + 1 + P)))
         (range2 0 (W + x))).

(** Hidden layer [l-1] to hidden layer [l]. *)
Definition mask_hidden (l : nat) : list (list Z) :=
  transpose 0%Z (W + x)
    (map (fun k =>
            map (fun j => if (num_at nums l k >=? num_at nums (l - 1) j)%Z
                          then 1%Z else 0%Z)
                (range2 0 (W + x)))
         (range2 0 (W + x))).

(** Last hidden layer to output. *)
Definition mask_out : list (list Z) :=
  transpose 0%Z (W + x)
    (map (fun d =>
            map (fun k => if (num_at nums (L - 1) k <? Z.of_nat (d + P))%Z
                          then 1%Z else 0%Z)
                (range2 0 (W + x)))
         (range2 1 (D + 1))).

Definition build_masks : list (list (list Z)) :=
  [mask_in] ++ map mask_hidden (range2 1 L) ++ [mask_out].
End Masks.

(** The order labels [build] ends up with: the stored labels when there
    are some, else the draw of [rng.integers] (more than two inputs) or all
    ones (two inputs); then a zero column when there are parameters, and
    the parameter count added everywhere. *)
Definition build_nums (m : t) (rng_integers : list (list Z)) : list (list Z) :=
  let nums0 :=
    if length (nums m) =? 0 then
      if 2 <? in_shape m then rng_integers
      else if in_shape m =? 2 then repeat (repeat 1%Z (num_nodes m)) (num_layers m)
      else nums m
    else nums m in
  let x := if 0 <? n_params m then 1 else 0 in
  let nums1 := zip_with (@app Z) (repeat (repeat 0%Z x) (num_layers m)) nums0 in
  map (map (fun v => (v + Z.of_nat (n_params m))%Z)) nums1.

(** [MADE.build]: [rng_integers] is what the generator returns when asked,
    [ws] and [bs] the values of the weights that [add_weight] creates.
    Without hidden layers the labels have no row, and the first mask reads
    [self.nums[0, k]] for every [k] below [num_nodes + x]: an index error
    unless there is no such [k]. *)
Definition build (m : t) (input_width : nat) (rng_integers : list (list Z))
    (ws : list (list (list R))) (bs : list (list R)) : outcome t :=
  if negb (input_width =? in_shape m + n_params m) then Raise InputShapeMismatch
  else
    let nums' := build_nums m rng_integers in
    let x := if 0 <? n_params m then 1 else 0 in
    if (num_layers m =? 0) && (0 <? num_nodes m + x) then Raise IndexError
    else
      Ok (mk (in_shape m) (num_layers m) (num_nodes m)
             (build_masks (in_shape m) (n_params m) (num_layers m) (num_nodes m) x nums')
             ws bs nums' (activation m) (n_params m)).

Definition extra (m : t) : nat := if 0 <? n_params m then 1 else 0.

(** The shapes [build] passes to [add_weight]. *)
Definition shapes (D P L W : nat) : list (nat * nat) :=
  let h := W + (if 0 <? P then 1 else 0) in
  [(D + P, h)] ++ map (fun _ => (h, h)) (range2 1 L) ++ [(h, D)].

Definition kernel_shapes (m : t) : list (nat * nat) :=
  shapes (in_shape m) (n_params m) (num_layers m) (num_nodes m).

Definition has_shape (M : list (list R)) (s : nat * nat) : Prop :=
  length M = fst s /\ Forall (fun row => length row = snd s) M.

Definition weights_shaped (m : t) : Prop :=
  Forall2 has_shape (kernels m) (kernel_shapes m)
  /\ Forall2 (fun b s => length b = snd s) (biases m) (kernel_shapes m).

(** One masked affine layer: [matmul(x, mask * kernel) + bias]. *)
Definition dense (m : t) (i ncols : nat) (x : list R) : list R :=
  vadd (Rvec_mat x (tf_multiply (nth i (masks m) []) (nth i (kernels m) [])) ncols)
       (nth i (biases m) []).

Definition hidden (m : t) (n : nat) (x : list R) : list R :=
  fold_left (fun x i => relu (dense m i (num_nodes m + extra m) x)) (range n) x.

(** [MADE.call] *)
Definition call (m : t) (x : list R) : list R :=
  let h := hidden m (num_layers m) x in
  let o := dense m (num_layers m) (in_shape m) h in
  if String.eqb (activation m) "relu" then relu o
  else if String.eqb (activation m) "tanh" then map tanh o
  else if String.eqb (activation m) "sigmoid" then map sigmoid o
  else o.

End MADE.

(** ** Coupling stacks *)

(** What one coupling stack draws while it is constructed: the order labels
    drawn by [MACoupling] itself, and for its [i]-th MADE layer the labels
    that layer would draw in [build] and the values of its weights. *)
Record draws : Type := mk_draws {
  coupling_nums : list (list Z);
  made_nums : nat -> list (list Z);
  made_kernels : nat -> list (list (list R));
  made_biases : nat -> list (list R)
}.

Definition stack (in_shape n_params n_models : nat) (activations : list string)
    (num_layers num_nodes : nat) (dr : draws) : outcome (list MADE.t) :=
  let activations :=
    if MADE.is_empty activations then repeat "relu"%string n_models else activations in
  if negb (length activations =? n_models) then Raise ActivationCount
  else
    let random_nums := if 2 <? in_shape then coupling_nums dr else [] in
    mapM (fun i =>
            mo <- MADE.init in_shape num_layers num_nodes (nth i activations ""%string)
                    random_nums n_params true ;;
            MADE.build (fst mo) (in_shape + n_params) (made_nums dr i)
                       (made_kernels dr i) (made_biases dr i))
         (range n_models).

(** [MACoupling]: the returned [keras.Model] is the list of its MADE layers,
    all applied to the same input. *)
Definition MACoupling (in_shape n_models : nat) (activations : list string)
    (num_layers num_nodes : nat) (dr : draws) : outcome (list MADE.t) :=
  stack in_shape 0 n_models activations num_layers num_nodes dr.

(** [MAConditionalCoupling] *)
Definition MAConditionalCoupling (in_shape n_params n_models : nat)
    (activations : list string) (num_layers num_nodes : nat) (dr : draws)
  : outcome (list MADE.t) :=
  stack in_shape n_params n_models activations num_layers num_nodes dr.

(** [s, t = layers_list[i](x)] *)
Definition coupling_call (c : list MADE.t) (x : list R) : list R * list R :=
  let outs := map (fun m => MADE.call m x) c in
  (nth 0 outs [], nth 1 outs []).

(** ** [np.argsort] *)

Fixpoint insert_key (a : nat * nat) (l : list (nat * nat)) : list (nat * nat) :=
  match l with
  | [] => [a]
  | b :: l' => if fst a <=? fst b then a :: l else b :: insert_key a l'
  end.

Definition sort_keys (l : list (nat * nat)) : list (nat * nat) :=
  fold_right insert_key [] l.

(** The indices that sort [p]: the (key, index) pairs are sorted by key. *)
Definition argsort (p : list nat) : list nat :=
  map snd (sort_keys (combine p (range (length p)))).

(** ** The unconditional flow *)

Module MAFlowModel.

Record t : Type := mk {
  n_coupling : nat;
  in_shape : nat;
  layers_list : list (list MADE.t);
  permutations : list (list nat)
}.

(** [MAFlowModel.__init__]; [dr i] are the draws of the [i]-th coupling
    stack and [rng_permutation i] the [i]-th generated permutation. *)
Definition init (n_coupling in_shape num_hidden_layers num_nodes : nat)
    (permutations : option (list (list nat)))
    (dr : nat -> draws) (rng_permutation : nat -> list nat) : outcome t :=
  layers <- mapM (fun i => MACoupling in_shape 2 ["tanh"; "linear"]%string
                             num_hidden_layers num_nodes (dr i))
                 (range n_coupling) ;;
  let perms :=
    match permutations with
    | None => map rng_permutation (range (n_coupling - 1))
    | Some p => p
    end in
  Ok (mk n_coupling in_shape layers perms).

Definition one_hot (n k : nat) : list R :=
  map (fun j => if j =? k then 1%R else 0%R) (range n).

(** Body of the loop over [k] in the inverse direction. *)
Definition invert_feature (c : list MADE.t) (n : nat) (x : list R) (k : nat) : list R :=
  let '(s, t) := coupling_call c x in
  let mask := one_hot n k in
  let inv_mask := map (fun v => (1 - v)%R) mask in
  vadd (vmul x inv_mask) (vmul (vmul (vexp (vneg s)) (vsub x t)) mask).

(** Body of the loop over the coupling layers. *)
Definition step (m : t) (training : bool) (st : list R * R) (i : nat) : list R * R :=
  let '(x, log_det) := st in
  let c := nth i (layers_list m) [] in
  let '(x, log_det) :=
    if training then
      let '(s, t) := coupling_call c x in
      (vadd (vmul x (vexp s)) t, (log_det + Rsum s)%R)
    else
      (fold_left (invert_feature c (in_shape m)) (range (in_shape m)) x, log_det) in
  if (training && negb (i =? n_coupling m - 1)) || (negb training && negb (i =? 0))
  then
    let j := if training then i else i - 1 in
    let perm := if training then nth j (permutations m) []
                else argsort (nth j (permutations m) []) in
    (gather 0%R x perm, log_det)
  else (x, log_det).

(** [MAFlowModel.call] *)
Definition call (m : t) (x : list R) (training : bool) : list R * R :=
  let layers := if training then range (n_coupling m) else rev (range (n_coupling m)) in
  fold_left (step m training) layers (x, 0%R).

(** [x, _ = self.predict(z)]: what keras returns for a batch [z] of at least
    one row; it raises for an empty batch, which is outside this function. *)
Definition predict (m : t) (z : list (list R)) : list (list R) * list R :=
  (map (fun r => fst (call m r false)) z, map (fun r => snd (call m r false)) z).

(** [MAFlowModel.sample]; [normal n] is [self.distribution.sample(n)]. *)
Definition sample (m : t) (normal : nat -> list (list R)) (n_points : nat)
  : list (list R) :=
  let z := normal n_points in
  fst (predict m z).

(** [tf.reduce_mean] of a vector. *)
Definition reduce_mean (v : list R) : R := (Rsum v / INR (length v))%R.

(** [MAFlowModel.infer] on one row; [log_prob] is
    [self.distribution.log_prob]. *)
Definition infer (m : t) (log_prob : list R -> R) (x : list R) : R :=
  let '(z, log_det) := call m x true in
  let log_density := (log_prob z + log_det)%R in
  exp log_density.

(** [MAFlowModel.log_loss] on a batch. *)
Definition log_loss (m : t) (log_prob : list R -> R) (x : list (list R)) : R * R * R :=
  let out := map (fun r => call m r true) x in
  let z := map fst out in
  let log_det := map snd out in
  let log_likelihood := vadd (map log_prob z) log_det in
  ((- reduce_mean log_likelihood)%R,
   (- reduce_mean (map log_prob z))%R,
   (- reduce_mean log_det)%R).

End MAFlowModel.

(** ** The conditional flow *)

(** [np.cumsum] *)
Fixpoint cumsum_from (acc : R) (v : list R) : list R :=
  match v with
  | [] => []
  | a :: v' => (acc + a)%R :: cumsum_from (acc + a)%R v'
  end.

Definition cumsum (v : list R) : list R := cumsum_from 0%R v.

(** [np.searchsorted(a, v)] (side left) for a sorted [a]: the first index
    whose entry is not below [v], the length of [a] when there is none. *)
Fixpoint searchsorted (a : list R) (v : R) : nat :=
  match a with
  | [] => 0
  | c :: a' => if Rlt_dec c v then S (searchsorted a' v) else 0
  end.

Module MAConditionalFlowModel.

(** A histogram [[values, bin_edges]], and what the model stores for it:
    [[cdf, bin_upper_edges]]. *)
Definition hist : Type := (list R * list R)%type.

Record t : Type := mk {
  n_coupling : nat;
  in_shape : nat;
  layers_list : list (list MADE.t);
  permutations : list (list nat);
  param_hists : list hist;
  n_params : nat;
  left_zero_matrix : list (list R)
}.

(** The padded and normalised cumulative distribution of the values. *)
Definition make_cdf (values : list R) : list R :=
  let cdf := 0%R :: cumsum values in
  let cdf := cdf ++ [last cdf 0%R] in
  map (fun c => (c / last cdf 0%R)%R) cdf.

(** Body of the loop over [param_hists] in [__init__]. *)
Definition store_hist (h : hist) : outcome hist :=
  if negb (Z.of_nat (length (fst h)) =? Z.of_nat (length (snd h)) - 1)%Z
  then Raise HistShape
  else Ok (make_cdf (fst h), tl (snd h)).

Definition eye (n : nat) : list (list R) :=
  map (fun i => map (fun j => if i =? j then 1%R else 0%R) (range n)) (range n).

(** [tf.concat([tf.zeros((D, P)), tf.eye(D)], axis=1)] *)
Definition make_left_zero_matrix (D P : nat) : list (list R) :=
  zip_with (@app R) (repeat (repeat 0%R P) D) (eye D).

(** [MAConditionalFlowModel.__init__]: [dr0] and [rng_permutation] serve the
    constructor of the base class, [dr] the conditional coupling stacks. *)
Definition init (n_coupling in_shape : nat) (hists : list hist)
    (num_hidden_layers num_nodes : nat) (permutations : option (list (list nat)))
    (dr0 dr : nat -> draws) (rng_permutation : nat -> list nat) : outcome t :=
  super <- MAFlowModel.init n_coupling in_shape num_hidden_layers num_nodes
             permutations dr0 rng_permutation ;;
  stored <- mapM store_hist hists ;;
  let n_params := length hists in
  if n_params =? 0 then Raise NoParams
  else
    layers <- mapM (fun i => MAConditionalCoupling in_shape n_params 2
                               ["tanh"; "linear"]%string
                               num_hidden_layers num_nodes (dr i))
                   (range n_coupling) ;;
    Ok (mk n_coupling in_shape layers (MAFlowModel.permutations super)
           stored n_params (make_left_zero_matrix in_shape n_params)).

(** [s, t] widened by [left_zero_matrix]. *)
Definition widened (m : t) (c : list MADE.t) (x : list R) : list R * list R :=
  let '(s, t) := coupling_call c x in
  (Rvec_mat s (left_zero_matrix m) (n_params m + in_shape m),
   Rvec_mat t (left_zero_matrix m) (n_params m + in_shape m)).

Definition invert_feature (m : t) (c : list MADE.t) (x : list R) (k : nat) : list R :=
  let '(s, t) := widened m c x in
  let mask := map (fun j => if j =? k + n_params m then 1%R else 0%R)
                  (range (n_params m + in_shape m)) in
  let inv_mask := map (fun v => (1 - v)%R) mask in
  vadd (vmul x inv_mask) (vmul (vmul (vexp (vneg s)) (vsub x t)) mask).

Definition step (m : t) (training : bool) (st : list R * R) (i : nat) : list R * R :=
  let '(x, log_det) := st in
  let c := nth i (layers_list m) [] in
  let '(x, log_det) :=
    if training then
      let '(s, t) := widened m c x in
      (vadd (vmul x (vexp s)) t, (log_det + Rsum s)%R)
    else
      (fold_left (invert_feature m c) (range (in_shape m)) x, log_det) in
  if (training && negb (i =? n_coupling m - 1)) || (negb training && negb (i =? 0))
  then
    let j := if training then i else i - 1 in
    let perm := if training then nth j (permutations m) []
                else argsort (nth j (permutations m) []) in
    let perm := range (n_params m) ++ map (fun v => v + n_params m) perm in
    (gather 0%R x perm, log_det)
  else (x, log_det).

(** [MAConditionalFlowModel.call] *)
Definition call (m : t) (x : list R) (training : bool) : list R * R :=
  let layers := if training then range (n_coupling m) else rev (range (n_coupling m)) in
  fold_left (step m training) layers (x, 0%R).

(** As for the base class: the result for a batch of at least one row. *)
Definition predict (m : t) (z : list (list R)) : list (list R) * list R :=
  (map (fun r => fst (call m r false)) z, map (fun r => snd (call m r false)) z).

(** One draw of [ITS] for one parameter: [hist[1][searchsorted(hist[0], v) - 1]]. *)
Definition ITS_point (h : hist) (v : R) : outcome R :=
  let val_bin := (Z.of_nat (searchsorted (fst h) v) - 1)%Z in
  py_index (snd h) val_bin.

(** [MAConditionalFlowModel.ITS]; [rand i] is the [i]-th call of
    [np.random.rand(n_points)]. The columns are joined along axis 1. The
    first statement, [np.array([]).reshape(n_points, -1)], raises for
    [n_points = 0]: the width of an array of no rows cannot be inferred. *)
Definition ITS (m : t) (rand : nat -> list R) (n_points : nat) : outcome (list (list R)) :=
  if n_points =? 0 then Raise ValueError
  else
    columns <- mapM (fun ih => mapM (ITS_point (snd ih)) (rand (fst ih)))
                    (combine (range (length (param_hists m))) (param_hists m)) ;;
    Ok (fold_left (fun acc col => zip_with (@app R) acc (map (fun p => [p]) col))
                  columns (repeat [] n_points)).

(** [MAConditionalFlowModel.sample] *)
Definition sample (m : t) (rand : nat -> list R) (normal : nat -> list (list R))
    (n_points : nat) (params : option (list (list R))) : outcome (list (list R)) :=
  params <- match params with
            | Some p =>
                if negb (length p =? n_points)
                   || negb (forallb (fun r => length r =? n_params m) p)
                then Raise ParamsShape else Ok p
            | None => ITS m rand n_points
            end ;;
  let z := normal n_points in
  let z := zip_with (@app R) params z in
  Ok (fst (predict m z)).

(** One factor of [param_density]: the mass of the bin that
    [searchsorted] assigns the value [v] to. *)
Definition param_factor (h : hist) (v : R) : R :=
  let m_ind := (Z.of_nat (searchsorted (snd h) v) + 1)%Z in
  (nth (Z.to_nat m_ind) (fst h) 0 - nth (Z.to_nat (Z.max (m_ind - 1) 0)) (fst h) 0)%R.

(** [MAConditionalFlowModel.param_density] on one row. *)
Definition param_density (m : t) (x : list R) : R :=
  let params := firstn (n_params m) x in
  fold_left (fun densities i =>
               (densities * param_factor (nth i (param_hists m) ([], []))
                                         (nth i params 0))%R)
            (range (n_params m)) 1%R.

(** [MAConditionalFlowModel.infer] on one row. *)
Definition infer (m : t) (log_prob : list R -> R) (x : list R) : R :=
  let '(z, log_det) := call m x true in
  let log_density := (log_prob (skipn (n_params m) z) + log_det)%R in
  exp log_density.

(** [MAConditionalFlowModel.log_loss] on a batch. *)
Definition log_loss (m : t) (log_prob : list R -> R) (x : list (list R)) : R * R * R :=
  let out := map (fun r => call m r true) x in
  let z := map fst out in
  let log_det := map snd out in
  let lp := map (fun r => log_prob (skipn (n_params m) r)) z in
  let log_likelihood := vadd lp log_det in
  ((- MAFlowModel.reduce_mean log_likelihood)%R,
   (- MAFlowModel.reduce_mean lp)%R,
   (- MAFlowModel.reduce_mean log_det)%R).

End MAConditionalFlowModel.

(** ** Composition of the masks *)

(** Product of the masks of layers [0 .. n]; under [mask_product] an entry
    [(i, d)] counts the mask-permitted paths from input [i] to output [d]. *)
Fixpoint mask_chain (m : MADE.t) (n : nat) : list (list Z) :=
  match n with
  | 0 => nth 0 (MADE.masks m) []
  | S n' => Zmatmul (mask_chain m n') (nth n (MADE.masks m) [])
                    (snd (nth n (MADE.kernel_shapes m) (0, 0)))
  end.

Definition mask_product (m : MADE.t) : list (list Z) :=
  mask_chain m (MADE.num_layers m).

(** ** Well-formedness and auxiliary definitions *)

(** A layer is built when its masks are the ones [build] derives from its
    order labels. *)
Definition built (m : MADE.t) : Prop :=
  MADE.masks m = MADE.build_masks (MADE.in_shape m) (MADE.n_params m)
                   (MADE.num_layers m) (MADE.num_nodes m) (MADE.extra m) (MADE.nums m).

(** A MADE layer as [build] leaves it, with weights of the declared shapes. *)
Definition wf_made (D P : nat) (m : MADE.t) : Prop :=
  built m /\ 1 <= MADE.num_layers m /\ MADE.in_shape m = D /\ MADE.n_params m = P
  /\ MADE.weights_shaped m.

(** A coupling stack of the flow models: a scale and a shift network. *)
Definition wf_coupling (D P : nat) (c : list MADE.t) : Prop :=
  exists ms mt, c = [ms; mt] /\ wf_made D P ms /\ wf_made D P mt.

(** The affine update of the forward direction. *)
Definition forward_affine (c : list MADE.t) (x : list R) : list R :=
  vadd (vmul x (vexp (fst (coupling_call c x)))) (snd (coupling_call c x)).

(** Order of the (key, index) pairs that [argsort] sorts. *)
Definition key_le (a b : nat * nat) : Prop := fst a <= fst b.

(** The model [__init__] leaves when the permutation table is valid: one
    well-formed coupling stack per layer and one permutation of the feature
    positions per boundary between layers. *)
Definition wf_flow (m : MAFlowModel.t) : Prop :=
  length (MAFlowModel.layers_list m) = MAFlowModel.n_coupling m
  /\ Forall (wf_coupling (MAFlowModel.in_shape m) 0) (MAFlowModel.layers_list m)
  /\ length (MAFlowModel.permutations m) = MAFlowModel.n_coupling m - 1
  /\ Forall (fun p => Permutation p (seq 0 (MAFlowModel.in_shape m)))
            (MAFlowModel.permutations m).

(** The feature part of the loop over the layers. *)
Definition flow_step_x (m : MAFlowModel.t) (tr : bool) (x : list R) (i : nat) : list R :=
  fst (MAFlowModel.step m tr (x, 0%R) i).

(** The order labels [build] generates by itself, before the offset. *)
Definition internal_nums (D L W : nat) (rng : list (list Z)) : list (list Z) :=
  if 2 <? D then rng else repeat (repeat 1%Z W) L.

(** The zero column and the offset that [build] adds when there are
    parameters. *)
Definition offset_nums (L P : nat) (nums0 : list (list Z)) : list (list Z) :=
  map (map (fun v => (v + Z.of_nat P)%Z))
      (zip_with (@app Z) (repeat (repeat 0%Z (if 0 <? P then 1 else 0)) L) nums0).

(** The model [MAConditionalFlowModel.__init__] leaves when the permutation
    table is valid. *)
Definition wf_cond (m : MAConditionalFlowModel.t) : Prop :=
  let D := MAConditionalFlowModel.in_shape m in
  let P := MAConditionalFlowModel.n_params m in
  length (MAConditionalFlowModel.layers_list m) = MAConditionalFlowModel.n_coupling m
  /\ Forall (wf_coupling D P) (MAConditionalFlowModel.layers_list m)
  /\ length (MAConditionalFlowModel.permutations m)
     = MAConditionalFlowModel.n_coupling m - 1
  /\ Forall (fun p => Permutation p (seq 0 D)) (MAConditionalFlowModel.permutations m)
  /\ 1 <= P
  /\ P = length (MAConditionalFlowModel.param_hists m)
  /\ MAConditionalFlowModel.left_zero_matrix m
     = MAConditionalFlowModel.make_left_zero_matrix D P.

(** The affine update of the conditional forward direction. *)
Definition cond_forward_affine (m : MAConditionalFlowModel.t) (c : list MADE.t)
    (x : list R) : list R :=
  vadd (vmul x (vexp (fst (MAConditionalFlowModel.widened m c x))))
       (snd (MAConditionalFlowModel.widened m c x)).

(** The permutation between two conditional coupling layers. *)
Definition cond_permute (m : MAConditionalFlowModel.t) (tr : bool) (i : nat)
    (x : list R) : list R :=
  let perm := if tr then nth i (MAConditionalFlowModel.permutations m) []
              else argsort (nth (i - 1) (MAConditionalFlowModel.permutations m) []) in
  gather 0%R x (range (MAConditionalFlowModel.n_params m)
                ++ map (fun v => v + MAConditionalFlowModel.n_params m) perm).

Definition cond_step_x (m : MAConditionalFlowModel.t) (tr : bool) (x : list R)
    (i : nat) : list R :=
  fst (MAConditionalFlowModel.step m tr (x, 0%R) i).

(** What every step of the conditional flow keeps: the first [P] entries. *)
Definition keeps (P : nat) (x z : list R) : Prop :=
  P <= length z /\ forall j, j < P -> nth j z 0%R = nth j x 0%R.

(** The weights drawn for the MADE layers of a stack have the shapes
    [build] declares. *)
Definition shaped_draws (D P L W : nat) (dr : draws) : Prop :=
  forall i,
    Forall2 MADE.has_shape (made_kernels dr i) (MADE.shapes D P L W)
    /\ Forall2 (fun b s => length b = snd s) (made_biases dr i) (MADE.shapes D P L W).

(** The permutation table [__init__] ends up with is valid. *)
Definition valid_permutations (n D : nat) (permutations : option (list (list nat)))
    (rp : nat -> list nat) : Prop :=
  match permutations with
  | None => forall i, Permutation (rp i) (seq 0 D)
  | Some p => length p = n - 1 /\ Forall (fun q => Permutation q (seq 0 D)) p
  end.

(** What is stored for a histogram with non-negative values, one of them
    positive, and one more edge than values. *)
Definition valid_stored (s : MAConditionalFlowModel.hist) : Prop :=
  exists values edges,
    s = (MAConditionalFlowModel.make_cdf values, tl edges)
    /\ Forall (fun a => 0 <= a)%R values
    /\ Exists (fun a => 0 < a)%R values
    /\ length edges = S (length values).

(** A permutation table has shape [(n_coupling - 1, in_shape)]. *)
Definition permutations_shape (p : list (list nat)) (n D : nat) : Prop :=
  length p = n - 1 /\ Forall (fun q => length q = D) p.

(** ** Concrete models *)

(** Draws for a stack with three inputs, one hidden layer of one node and
    all weights zero. *)
Definition demo_draws : draws :=
  mk_draws [[1%Z]] (fun _ => [])
           (fun _ => [[[0]; [0]; [0]]; [[0; 0; 0]]]%R)
           (fun _ => [[0]; [0; 0; 0]]%R).

(** Two coupling layers over three features with the permutation [2, 0, 1]
    between them. *)
Definition demo_flow : MAFlowModel.t :=
  match MAFlowModel.init 2 3 1 1 (Some [[2; 0; 1]]) (fun _ => demo_draws) (fun _ => []) with
  | Ok m => m
  | Raise _ => MAFlowModel.mk 0 0 [] []
  end.

(** A MADE layer with three inputs, one parameter and two hidden layers of
    three nodes, before and after [build]. *)
Definition demo_made0 : MADE.t :=
  MADE.mk 3 2 3 [] [] [] [[1; 2; 1]; [2; 1; 2]]%Z "tanh" 1.

Definition demo_made : MADE.t :=
  match MADE.build demo_made0 4 [] [] [] with
  | Ok m => m
  | Raise _ => demo_made0
  end.

(** The histogram with values [1, 1] and bin edges [0, 1, 2]. *)
Definition hist_A : MAConditionalFlowModel.hist := ([1; 1]%R, [0; 1; 2]%R).

(** Draws for a conditional stack with two features and one parameter. *)
Definition demo_cond_draws : draws :=
  mk_draws [] (fun _ => [])
           (fun _ => [[[0; 0]; [0; 0]; [0; 0]]; [[0; 0]; [0; 0]]]%R)
           (fun _ => [[0; 0]; [0; 0]]%R).

Definition demo_draws2 : draws :=
  mk_draws [] (fun _ => [])
           (fun _ => [[[0]; [0]]; [[0; 0]]]%R)
           (fun _ => [[0]; [0; 0]]%R).

Definition demo_cond : MAConditionalFlowModel.t :=
  match MAConditionalFlowModel.init 2 2 [hist_A] 1 1 (Some [[1; 0]])
          (fun _ => demo_draws2) (fun _ => demo_cond_draws) (fun _ => []) with
  | Ok m => m
  | Raise _ => MAConditionalFlowModel.mk 0 0 [] [] [] 0 []
  end.

(** Zero scale and zero shift over three features. *)
Definition zeros3 : list R * list R := ([0; 0; 0]%R, [0; 0; 0]%R).

(** Fixed draws for the samplers. *)
Definition demo_rand (i : nat) : list R := [6 / 10]%R.
Definition demo_normal (n : nat) : list (list R) := repeat [0; 0]%R n.

(** ** Coupling layers over an arbitrary scale and shift network *)

(** The affine update and one round of the inverse loop, for a network [g]
    returning scale and shift; with [g := coupling_call c] these are the
    bodies of [MAFlowModel.call]. *)
Definition affine_with (g : list R -> list R * list R) (x : list R) : list R :=
  vadd (vmul x (vexp (fst (g x)))) (snd (g x)).

Definition invert_with (g : list R -> list R * list R) (n : nat) (x : list R)
    (k : nat) : list R :=
  let '(s, t) := g x in
  let mask := MAFlowModel.one_hot n k in
  let inv_mask := map (fun v => (1 - v)%R) mask in
  vadd (vmul x inv_mask) (vmul (vmul (vexp (vneg s)) (vsub x t)) mask).

(** The two loops over the layers of [call], for arbitrary layer
    transformations [A] (forward), [B] (inverse) and permutations [Pm]
    (forward) and [Qm] (inverse). *)
Definition gen_fstep (N : nat) (A Pm : nat -> list R -> list R) (x : list R)
    (i : nat) : list R :=
  let a := A i x in
  if i =? N - 1 then a else Pm i a.

Definition gen_istep (B Qm : nat -> list R -> list R) (z : list R) (i : nat) : list R :=
  let w := B i z in
  if i =? 0 then w else Qm (i - 1) w.

(** ** Further auxiliary definitions *)

(** A mask of the shape [s] of the kernel it gates, with entries 0 and 1. *)
Definition bit (e : Z) : Prop := e = 0%Z \/ e = 1%Z.

Definition binary_mask (M : list (list Z)) (s : nat * nat) : Prop :=
  length M = fst s
  /\ Forall (fun row => length row = snd s /\ Forall bit row) M.

(** What the chain of masks keeps through the hidden layers: [D + P] rows
    of [h] non-negative entries, with every parameter row reaching the
    first unit. *)
Definition reaches (D P h : nat) (X : list (list Z)) : Prop :=
  length X = D + P
  /\ Forall (fun row => length row = h /\ Forall (fun e => 0 <= e)%Z row) X
  /\ forall i, i < P -> (1 <= Zentry X i 0)%Z.

(** A MADE layer with two inputs, one hidden node and weights that are not
    zero, before and after [build]. *)
Definition demo_linear0 : MADE.t := MADE.mk 2 1 1 [] [] [] [] "linear" 0.

Definition demo_linear : MADE.t :=
  match MADE.build demo_linear0 2 []
          [[[2]; [5]]; [[3; 4]]]%R [[1]; [0; 7]]%R with
  | Ok m => m
  | Raise _ => demo_linear0
  end.

(** The range an activation function confines an output to. *)
Definition in_range (act : string) (v : R) : Prop :=
  if String.eqb act "relu" then (0 <= v)%R
  else if String.eqb act "tanh" then (-1 < v < 1)%R
  else if String.eqb act "sigmoid" then (0 < v < 1)%R
  else True.

(** Order labels that numpy can convert to a two-dimensional array: all
    rows have the length of the first. *)
Definition rectangular (a : list (list Z)) : Prop :=
  Forall (fun r => length r = length (hd [] a)) a.

(** A conditional model for one histogram without bins. *)
Definition hist_empty : MAConditionalFlowModel.hist := ([], [0%R]).

Definition demo_cond_empty : MAConditionalFlowModel.t :=
  match MAConditionalFlowModel.init 2 2 [hist_empty] 1 1 (Some [[1; 0]])
          (fun _ => demo_draws2) (fun _ => demo_cond_draws) (fun _ => []) with
  | Ok m => m
  | Raise _ => MAConditionalFlowModel.mk 0 0 [] [] [] 0 []
  end.

(** * Facts about lists and matrices *)

Lemma length_zip_with (A B C : Type) (f : A -> B -> C) (u : list A) (v : list B) :
  length (zip_with f u v) = Nat.min (length u) (length v).
Proof.
  revert v; induction u as [|a u IH]; intros [|b v]; simpl; auto.
Qed.

Lemma nth_zip_with (A B C : Type) (f : A -> B -> C) (u : list A) (v : list B)
    (i : nat) (da : A) (db : B) (dc : C) :
  i < length u -> i < length v ->
  nth i (zip_with f u v) dc = f (nth i u da) (nth i v db).
Proof.
  revert v i; induction u as [|a u IH]; intros [|b v] [|i]; simpl; try lia; auto.
  intros Hu Hv; apply IH; lia.
Qed.

Lemma nth_map_seq (A : Type) (f : nat -> A) (a n i : nat) (d : A) :
  i < n -> nth i (map f (seq a n)) d = f (a + i).
Proof.
  intros Hi.
  rewrite (nth_indep _ d (f 0)) by (rewrite length_map, length_seq; exact Hi).
  rewrite map_nth, seq_nth by exact Hi; reflexivity.
Qed.

Lemma nth_nil (A : Type) (k : nat) (d : A) : nth k [] d = d.
Proof. destruct k; reflexivity. Qed.

Lemma list_ext (A : Type) (d : A) (u v : list A) :
  length u = length v ->
  (forall i, i < length u -> nth i u d = nth i v d) -> u = v.
Proof.
  revert v; induction u as [|a u IH]; intros [|b v]; simpl; try discriminate; auto.
  intros Hl H; f_equal.
  - apply (H 0); lia.
  - apply IH; [lia|]. intros i Hi; apply (H (S i)); lia.
Qed.

Lemma fold_left_range_S (A : Type) (f : A -> nat -> A) (n : nat) (a : A) :
  fold_left f (range (S n)) a = f (fold_left f (range n) a) n.
Proof.
  unfold range; rewrite seq_S, fold_left_app; reflexivity.
Qed.

Section LinearFacts.
Variable A : Type.
Variable zero : A.
Variables add mul : A -> A -> A.

Lemma nth_column (M : list (list A)) (j k : nat) :
  nth j (column zero k M) zero = entry zero M j k.
Proof.
  unfold column, entry.
  destruct (Nat.lt_ge_cases j (length M)) as [Hj|Hj].
  - rewrite (nth_indep _ zero (nth k [] zero)) by (rewrite length_map; exact Hj).
    apply (map_nth (fun row => nth k row zero)).
  - rewrite (nth_overflow (map _ _)) by (now rewrite length_map).
    rewrite (nth_overflow M) by exact Hj. now rewrite nth_nil.
Qed.

Lemma entry_transpose (M : list (list A)) (nc i k : nat) :
  entry zero (transpose zero nc M) i k = if i <? nc then entry zero M k i else zero.
Proof.
  unfold entry at 1, transpose, range.
  destruct (Nat.ltb_spec i nc) as [Hi|Hi].
  - rewrite nth_map_seq by exact Hi. apply nth_column.
  - rewrite (nth_overflow (map _ _)) by (now rewrite length_map, length_seq).
    apply nth_nil.
Qed.

Lemma entry_tabulate (f : nat -> nat -> A) (a n b r k d : nat) :
  entry zero (map (fun k => map (fun d => f k d) (seq a n)) (seq b r)) k d
  = if (k <? r) && (d <? n) then f (b + k) (a + d) else zero.
Proof.
  unfold entry.
  destruct (Nat.ltb_spec k r) as [Hk|Hk]; simpl.
  - rewrite nth_map_seq by exact Hk.
    destruct (Nat.ltb_spec d n) as [Hd|Hd].
    + now rewrite nth_map_seq.
    + apply nth_overflow; now rewrite length_map, length_seq.
  - rewrite (nth_overflow (map _ _)) by (now rewrite length_map, length_seq).
    apply nth_nil.
Qed.

Lemma nth_vec_mat (x : list A) (M : list (list A)) (nc k : nat) :
  k < nc -> nth k (vec_mat zero add mul x M nc) zero = dot zero add mul x (column zero k M).
Proof.
  intros Hk; unfold vec_mat, range. now rewrite nth_map_seq.
Qed.

Lemma length_vec_mat (x : list A) (M : list (list A)) (nc : nat) :
  length (vec_mat zero add mul x M nc) = nc.
Proof. unfold vec_mat, range; now rewrite length_map, length_seq. Qed.

Lemma entry_matmul (X M : list (list A)) (nc i k : nat) :
  i < length X -> k < nc ->
  entry zero (matmul zero add mul X M nc) i k
  = dot zero add mul (nth i X []) (column zero k M).
Proof.
  intros Hi Hk; unfold entry, matmul.
  rewrite (nth_indep _ [] (vec_mat zero add mul [] M nc)) by (now rewrite length_map).
  rewrite (map_nth (fun x => vec_mat zero add mul x M nc)).
  now apply nth_vec_mat.
Qed.

Lemma entry_matmul_out (X M : list (list A)) (nc i k : nat) :
  length X <= i \/ nc <= k ->
  entry zero (matmul zero add mul X M nc) i k = zero.
Proof.
  intros H; unfold entry, matmul.
  destruct (Nat.lt_ge_cases i (length X)) as [Hi|Hi].
  - destruct H as [H|H]; [lia|].
    rewrite (nth_indep _ [] (vec_mat zero add mul [] M nc)) by (now rewrite length_map).
    rewrite (map_nth (fun x => vec_mat zero add mul x M nc)).
    apply nth_overflow; now rewrite length_vec_mat.
  - rewrite (nth_overflow (map _ _)) by (now rewrite length_map).
    apply nth_nil.
Qed.

(** A dot product only looks at the entries its second argument keeps. *)
Lemma dot_ext (u u' c : list A) :
  length u = length u' ->
  (forall j, j < length u ->
     mul (nth j u zero) (nth j c zero) = mul (nth j u' zero) (nth j c zero)) ->
  dot zero add mul u c = dot zero add mul u' c.
Proof.
  revert u' c; induction u as [|a u IH]; intros [|a' u'] [|b c]; simpl;
    try discriminate; auto.
  intros Hl H; unfold dot in *; simpl; f_equal.
  - apply (H 0); lia.
  - apply IH; [lia|]. intros j Hj; apply (H (S j)); lia.
Qed.

Hypothesis add_zero : add zero zero = zero.

Lemma dot_zero (u c : list A) :
  (forall j, j < length u -> j < length c ->
     mul (nth j u zero) (nth j c zero) = zero) ->
  dot zero add mul u c = zero.
Proof.
  revert c; induction u as [|a u IH]; intros [|b c]; simpl; auto.
  intros H; unfold dot in *; simpl.
  rewrite (H 0), IH by (simpl; try lia; intros j Hu Hc; apply (H (S j)); lia).
  exact add_zero.
Qed.
End LinearFacts.

(** * The masks of a built MADE layer *)

Lemma mask_in_nonzero (D P W x : nat) (nums : list (list Z)) (i k : nat) :
  Zentry (MADE.mask_in D P W x nums) i k <> 0%Z ->
  (Z.of_nat (i + 1) <= MADE.num_at nums 0 k)%Z.
Proof.
  unfold Zentry, MADE.mask_in, range2.
  rewrite entry_transpose, entry_tabulate.
  destruct (i <? D + P); [|congruence].
  destruct ((k <? W + x - 0) && (i <? D + 1 + P - 1)); [|congruence].
  simpl (0 + k). replace (1 + i) with (i + 1) by lia.
  destruct (Z.geb_spec (MADE.num_at nums 0 k) (Z.of_nat (i + 1))); [lia|congruence].
Qed.

Lemma mask_hidden_nonzero (W x : nat) (nums : list (list Z)) (l j k : nat) :
  Zentry (MADE.mask_hidden W x nums l) j k <> 0%Z ->
  (MADE.num_at nums (l - 1) j <= MADE.num_at nums l k)%Z.
Proof.
  unfold Zentry, MADE.mask_hidden, range2.
  rewrite entry_transpose, entry_tabulate.
  destruct (j <? W + x); [|congruence].
  destruct ((k <? W + x - 0) && (j <? W + x - 0)); [|congruence].
  simpl (0 + _).
  destruct (Z.geb_spec (MADE.num_at nums l k) (MADE.num_at nums (l - 1) j));
    [lia|congruence].
Qed.

Lemma mask_out_nonzero (D P L W x : nat) (nums : list (list Z)) (k d : nat) :
  Zentry (MADE.mask_out D P L W x nums) k d <> 0%Z ->
  (MADE.num_at nums (L - 1) k < Z.of_nat (d + 1 + P))%Z.
Proof.
  unfold Zentry, MADE.mask_out, range2.
  rewrite entry_transpose, entry_tabulate.
  destruct (k <? W + x); [|congruence].
  destruct ((d <? D + 1 - 1) && (k <? W + x - 0)); [|congruence].
  simpl (0 + k). replace (1 + d + P) with (d + 1 + P) by lia.
  destruct (Z.ltb_spec (MADE.num_at nums (L - 1) k) (Z.of_nat (d + 1 + P)));
    [lia|congruence].
Qed.

Section BuiltMasks.
Variables (D P L W x : nat).
Variable nums : list (list Z).
Let ms := MADE.build_masks D P L W x nums.

Lemma nth_masks_first : nth 0 ms [] = MADE.mask_in D P W x nums.
Proof. reflexivity. Qed.

Lemma nth_masks_hidden (l : nat) :
  1 <= l < L -> nth l ms [] = MADE.mask_hidden W x nums l.
Proof.
  intros Hl; unfold ms, MADE.build_masks, range2.
  destruct l as [|l]; [lia|]. simpl.
  rewrite app_nth1 by (rewrite length_map, length_seq; lia).
  rewrite nth_indep with (d' := MADE.mask_hidden W x nums 0)
    by (rewrite length_map, length_seq; lia).
  rewrite map_nth, seq_nth by lia. reflexivity.
Qed.

Lemma nth_masks_last :
  1 <= L -> nth L ms [] = MADE.mask_out D P L W x nums.
Proof.
  intros HL; unfold ms, MADE.build_masks, range2.
  destruct L as [|L']; [lia|]. simpl.
  rewrite app_nth2 by (rewrite length_map, length_seq; lia).
  rewrite length_map, length_seq.
  match goal with |- context [nth ?a [_] _] => replace a with 0 by lia end.
  reflexivity.
Qed.
End BuiltMasks.

Lemma kernel_shapes_hidden (m : MADE.t) (l : nat) :
  l < MADE.num_layers m ->
  snd (nth l (MADE.kernel_shapes m) (0, 0)) = MADE.num_nodes m + MADE.extra m.
Proof.
  intros Hl; unfold MADE.kernel_shapes, MADE.shapes, MADE.extra, range2.
  destruct l as [|l]; [reflexivity|]. simpl.
  rewrite app_nth1 by (rewrite length_map, length_seq; lia).
  rewrite nth_map_seq by lia. reflexivity.
Qed.

Lemma kernel_shapes_last (m : MADE.t) :
  1 <= MADE.num_layers m ->
  snd (nth (MADE.num_layers m) (MADE.kernel_shapes m) (0, 0)) = MADE.in_shape m.
Proof.
  intros HL; unfold MADE.kernel_shapes, MADE.shapes, range2.
  destruct (MADE.num_layers m) as [|L'] eqn:E; [lia|]. simpl.
  rewrite app_nth2 by (rewrite length_map, length_seq; lia).
  rewrite length_map, length_seq.
  match goal with |- context [nth ?a [_] _] => replace a with 0 by lia end.
  reflexivity.
Qed.

Lemma build_built (m0 m : MADE.t) (w : nat) (rng : list (list Z))
    (ws : list (list (list R))) (bs : list (list R)) :
  MADE.build m0 w rng ws bs = Ok m -> built m.
Proof.
  unfold MADE.build. destruct (negb _); [discriminate|].
  cbv zeta. destruct (_ && _); [discriminate|].
  intros H; injection H as <-. reflexivity.
Qed.

Lemma mask_chain_S (m : MADE.t) (n : nat) :
  mask_chain m (S n)
  = Zmatmul (mask_chain m n) (nth (S n) (MADE.masks m) [])
            (snd (nth (S n) (MADE.kernel_shapes m) (0, 0))).
Proof. reflexivity. Qed.

Section MaskChain.
Variable m : MADE.t.
Hypothesis Hbuilt : built m.
Let P := MADE.n_params m.
Let ord := MADE.num_at (MADE.nums m).

Lemma masks_first_nonzero (i k : nat) :
  Zentry (nth 0 (MADE.masks m) []) i k <> 0%Z -> (Z.of_nat (i + 1) <= ord 0 k)%Z.
Proof. rewrite Hbuilt, nth_masks_first. apply mask_in_nonzero. Qed.

Lemma masks_hidden_nonzero (l j k : nat) :
  1 <= l < MADE.num_layers m ->
  Zentry (nth l (MADE.masks m) []) j k <> 0%Z -> (ord (l - 1) j <= ord l k)%Z.
Proof. intros Hl. rewrite Hbuilt, nth_masks_hidden by exact Hl. apply mask_hidden_nonzero. Qed.

Lemma masks_last_nonzero (k d : nat) :
  1 <= MADE.num_layers m ->
  Zentry (nth (MADE.num_layers m) (MADE.masks m) []) k d <> 0%Z ->
  (ord (MADE.num_layers m - 1) k < Z.of_nat (d + 1 + P))%Z.
Proof. intros HL. rewrite Hbuilt, nth_masks_last by exact HL. apply mask_out_nonzero. Qed.

(** Through the hidden layers, unit [k] is reached only from inputs whose
    position does not exceed its order label. *)
Lemma mask_chain_hidden (l : nat) :
  l < MADE.num_layers m ->
  forall i k, (ord l k < Z.of_nat (i + 1))%Z -> Zentry (mask_chain m l) i k = 0%Z.
Proof.
  induction l as [|l IH]; intros Hl i k Hik.
  - simpl. destruct (Z.eq_dec (Zentry (nth 0 (MADE.masks m) []) i k) 0) as [E|E]; auto.
    apply masks_first_nonzero in E. lia.
  - rewrite mask_chain_S, kernel_shapes_hidden by exact Hl.
    set (nc := MADE.num_nodes m + MADE.extra m).
    destruct (Nat.lt_ge_cases i (length (mask_chain m l))) as [Hi|Hi];
      [destruct (Nat.lt_ge_cases k nc) as [Hk|Hk]|];
      try (apply entry_matmul_out; lia).
    unfold Zentry, Zmatmul. rewrite entry_matmul by assumption.
    apply dot_zero; [reflexivity|]. intros j _ _.
    rewrite nth_column.
    destruct (Z.eq_dec (entry 0%Z (nth (S l) (MADE.masks m) []) j k) 0) as [E|E].
    + rewrite E. apply Z.mul_0_r.
    + apply masks_hidden_nonzero in E; [|lia].
      replace (S l - 1) with l in E by lia.
      fold (entry 0%Z (mask_chain m l) i j). fold (Zentry (mask_chain m l) i j).
      rewrite IH by lia. apply Z.mul_0_l.
Qed.

(** The whole chain: output [d] is not reached from any input at or after
    data position [d]. *)
Lemma mask_product_upper (i d : nat) :
  1 <= MADE.num_layers m -> d + P <= i -> Zentry (mask_product m) i d = 0%Z.
Proof.
  intros HL Hid. unfold mask_product.
  destruct (MADE.num_layers m) as [|l] eqn:EL; [lia|].
  rewrite mask_chain_S, <- EL, kernel_shapes_last by lia.
  destruct (Nat.lt_ge_cases i (length (mask_chain m l))) as [Hi|Hi];
    [destruct (Nat.lt_ge_cases d (MADE.in_shape m)) as [Hd|Hd]|];
    try (apply entry_matmul_out; lia).
  unfold Zentry, Zmatmul. rewrite entry_matmul by assumption.
  apply dot_zero; [reflexivity|]. intros k _ _.
  rewrite nth_column.
  destruct (Z.eq_dec (entry 0%Z (nth (MADE.num_layers m) (MADE.masks m) []) k d) 0)
    as [E|E].
  - rewrite E. apply Z.mul_0_r.
  - apply masks_last_nonzero in E; [|lia].
    rewrite EL in E. replace (S l - 1) with l in E by lia.
    fold (entry 0%Z (mask_chain m l) i k). fold (Zentry (mask_chain m l) i k).
    rewrite mask_chain_hidden by lia. apply Z.mul_0_l.
Qed.
End MaskChain.

(** * The autoregressive property of a built MADE layer *)

Lemma nth_map_in (A B : Type) (g : A -> B) (l : list A) (i : nat) (d : B) (d' : A) :
  i < length l -> nth i (map g l) d = g (nth i l d').
Proof.
  intros Hi. rewrite (nth_indep _ d (g d')) by (now rewrite length_map).
  apply map_nth.
Qed.

Lemma nth_map_agree (A B : Type) (g : A -> B) (u v : list A) (k : nat) (d : A) (d' : B) :
  length u = length v -> nth k u d = nth k v d ->
  nth k (map g u) d' = nth k (map g v) d'.
Proof.
  intros Hl H. destruct (Nat.lt_ge_cases k (length u)) as [Hk|Hk].
  - rewrite !nth_map_in with (d' := d) by lia. now rewrite H.
  - rewrite !nth_overflow; auto; rewrite length_map; lia.
Qed.

Lemma nth_zip_agree (A B C : Type) (f : A -> B -> C) (u u' : list A) (b : list B)
    (k : nat) (d : A) (dc : C) :
  length u = length u' -> nth k u d = nth k u' d ->
  nth k (zip_with f u b) dc = nth k (zip_with f u' b) dc.
Proof.
  intros Hl H.
  destruct (Nat.lt_ge_cases k (Nat.min (length u) (length b))) as [Hk|Hk].
  - destruct b as [|b0 b]; [simpl in Hk; lia|].
    rewrite !nth_zip_with with (da := d) (db := b0) by lia. now rewrite H.
  - rewrite !nth_overflow; auto; rewrite length_zip_with; lia.
Qed.

Lemma tf_multiply_zero (M : list (list Z)) (K : list (list R)) (j k : nat) :
  Zentry M j k = 0%Z -> entry 0%R (tf_multiply M K) j k = 0%R.
Proof.
  unfold Zentry, entry, tf_multiply. intros H.
  destruct (Nat.lt_ge_cases j (Nat.min (length M) (length K))) as [Hj|Hj].
  - rewrite nth_zip_with with (da := []) (db := []) by lia.
    destruct (Nat.lt_ge_cases k (Nat.min (length (nth j M [])) (length (nth j K []))))
      as [Hk|Hk].
    + rewrite nth_zip_with with (da := 0%Z) (db := 0%R) by lia.
      rewrite H. apply Rmult_0_l.
    + apply nth_overflow. rewrite length_zip_with. exact Hk.
  - rewrite (nth_overflow (zip_with _ _ _)) by (rewrite length_zip_with; exact Hj).
    apply nth_nil.
Qed.

Lemma length_dense (m : MADE.t) (i nc : nat) (x : list R) :
  length (MADE.dense m i nc x) = Nat.min nc (length (nth i (MADE.biases m) [])).
Proof.
  unfold MADE.dense, vadd, Rvec_mat. now rewrite length_zip_with, length_vec_mat.
Qed.

(** Two inputs that agree wherever the mask of layer [i] lets unit [k] look
    give unit [k] the same value. *)
Lemma dense_agree (m : MADE.t) (i nc k : nat) (x y : list R) :
  length x = length y ->
  (forall j, Zentry (nth i (MADE.masks m) []) j k <> 0%Z -> nth j x 0%R = nth j y 0%R) ->
  nth k (MADE.dense m i nc x) 0%R = nth k (MADE.dense m i nc y) 0%R.
Proof.
  intros Hl H. unfold MADE.dense, vadd, Rvec_mat.
  apply nth_zip_agree with (d := 0%R); [now rewrite !length_vec_mat|].
  destruct (Nat.lt_ge_cases k nc) as [Hk|Hk].
  - rewrite !nth_vec_mat by exact Hk.
    apply dot_ext; [exact Hl|]. intros j _. rewrite nth_column.
    destruct (Z.eq_dec (Zentry (nth i (MADE.masks m) []) j k) 0) as [E|E].
    + rewrite tf_multiply_zero by exact E. now rewrite !Rmult_0_r.
    + now rewrite (H j E).
  - rewrite !nth_overflow; auto; now rewrite length_vec_mat.
Qed.

Lemma hidden_S (m : MADE.t) (n : nat) (x : list R) :
  MADE.hidden m (S n) x
  = relu (MADE.dense m n (MADE.num_nodes m + MADE.extra m) (MADE.hidden m n x)).
Proof. unfold MADE.hidden. apply fold_left_range_S. Qed.

Lemma length_hidden (m : MADE.t) (n : nat) (x y : list R) :
  length x = length y -> length (MADE.hidden m n x) = length (MADE.hidden m n y).
Proof.
  intros Hl. destruct n as [|n]; [exact Hl|].
  rewrite !hidden_S. unfold relu. now rewrite !length_map, !length_dense.
Qed.

Section Autoregressive.
Variable m : MADE.t.
Hypothesis Hbuilt : built m.
Let ord := MADE.num_at (MADE.nums m).

(** A hidden unit only depends on the inputs at positions up to its label. *)
Lemma hidden_agree (l : nat) :
  l < MADE.num_layers m ->
  forall (x y : list R) (k : nat),
    length x = length y ->
    (forall i, (Z.of_nat (i + 1) <= ord l k)%Z -> nth i x 0%R = nth i y 0%R) ->
    nth k (MADE.hidden m (S l) x) 0%R = nth k (MADE.hidden m (S l) y) 0%R.
Proof.
  induction l as [|l IH]; intros Hl x y k Hxy H;
    match goal with
    | |- nth _ (MADE.hidden _ (S ?n) _) _ = _ =>
        rewrite (hidden_S m n x), (hidden_S m n y)
    end; unfold relu.
  - apply nth_map_agree with (d := 0%R); [now rewrite !length_dense|].
    apply dense_agree; [exact Hxy|].
    intros j E. apply H. now apply masks_first_nonzero.
  - apply nth_map_agree with (d := 0%R); [now rewrite !length_dense|].
    apply dense_agree; [now apply length_hidden|].
    intros j E. apply (masks_hidden_nonzero Hbuilt) in E; [|lia].
    replace (S l - 1) with l in E by lia.
    apply IH; [lia|exact Hxy|].
    intros i Hi. apply H. fold ord in E. lia.
Qed.

(** Output [d] only depends on the parameters and on the data before [d]. *)
Lemma call_agree (x y : list R) (d : nat) :
  1 <= MADE.num_layers m ->
  length x = length y ->
  (forall i, i < d + MADE.n_params m -> nth i x 0%R = nth i y 0%R) ->
  nth d (MADE.call m x) 0%R = nth d (MADE.call m y) 0%R.
Proof.
  intros Hlayers Hxy H.
  assert (Ho : nth d (MADE.dense m (MADE.num_layers m) (MADE.in_shape m)
                        (MADE.hidden m (MADE.num_layers m) x)) 0%R
               = nth d (MADE.dense m (MADE.num_layers m) (MADE.in_shape m)
                          (MADE.hidden m (MADE.num_layers m) y)) 0%R).
  { apply dense_agree; [now apply length_hidden|].
    intros k E. apply (masks_last_nonzero Hbuilt) in E; [|exact Hlayers].
    destruct (MADE.num_layers m) as [|l] eqn:EL; [lia|].
    replace (S l - 1) with l in E by lia.
    apply hidden_agree; [lia|exact Hxy|].
    intros i Hi. apply H. fold ord in E. lia. }
  unfold MADE.call.
  repeat match goal with |- context [if ?b then _ else _] => destruct b end;
    try exact Ho; unfold relu;
    (apply nth_map_agree with (d := 0%R); [now rewrite !length_dense | exact Ho]).
Qed.

Lemma length_call (x : list R) :
  length (nth (MADE.num_layers m) (MADE.biases m) []) = MADE.in_shape m ->
  length (MADE.call m x) = MADE.in_shape m.
Proof.
  intros Hb. unfold MADE.call.
  repeat match goal with |- context [if ?b then _ else _] => destruct b end;
    unfold relu; rewrite ?length_map, length_dense, Hb; apply Nat.min_id.
Qed.
End Autoregressive.

(** * Well-formed layers and coupling stacks *)

Lemma Forall2_nth_rel (A B : Type) (Q : A -> B -> Prop) (l : list A) (l' : list B)
    (da : A) (db : B) :
  Forall2 Q l l' -> forall n, n < length l' -> Q (nth n l da) (nth n l' db).
Proof.
  induction 1 as [|a b l l' Hab _ IH]; intros [|n] Hn; simpl in *; try lia; auto.
  apply IH; lia.
Qed.

Lemma length_kernel_shapes (m : MADE.t) :
  length (MADE.kernel_shapes m) = 1 + (MADE.num_layers m - 1) + 1.
Proof.
  unfold MADE.kernel_shapes, MADE.shapes, range2.
  rewrite !length_app, length_map, length_seq. simpl. lia.
Qed.

Lemma wf_made_length_call (D P : nat) (m : MADE.t) (x : list R) :
  wf_made D P m -> length (MADE.call m x) = D.
Proof.
  intros (Hb & HL & HD & HP & _ & Hbias). rewrite <- HD.
  apply length_call.
  rewrite <- (kernel_shapes_last m HL).
  apply (Forall2_nth_rel [] (0, 0) Hbias).
  rewrite length_kernel_shapes. lia.
Qed.

Lemma wf_made_call_agree (D P : nat) (m : MADE.t) (x y : list R) (d : nat) :
  wf_made D P m -> length x = length y ->
  (forall i, i < d + P -> nth i x 0%R = nth i y 0%R) ->
  nth d (MADE.call m x) 0%R = nth d (MADE.call m y) 0%R.
Proof.
  intros (Hb & HL & HD & HP & _) Hxy H.
  apply call_agree; auto. now rewrite HP.
Qed.

Ltac lengths :=
  unfold vadd, vmul, vsub, vexp, vneg, MAFlowModel.one_hot, gather, range;
  repeat (rewrite length_zip_with || rewrite length_map || rewrite length_seq
          || rewrite length_app || rewrite repeat_length);
  try lia.

Lemma exp_undo (s x t : R) : (exp (- s) * (x * exp s + t - t) = x)%R.
Proof.
  replace (exp (- s) * (x * exp s + t - t))%R with (x * (exp (- s) * exp s))%R by ring.
  rewrite <- exp_plus, Rplus_opp_l, exp_0. ring.
Qed.

Section CouplingInverse.
Variable D : nat.
Variable c : list MADE.t.
Hypothesis Hc : wf_coupling D 0 c.

Lemma coupling_call_length (x : list R) :
  length (fst (coupling_call c x)) = D /\ length (snd (coupling_call c x)) = D.
Proof.
  destruct Hc as (ms & mt & -> & Hs & Ht). simpl.
  split; eapply wf_made_length_call; eassumption.
Qed.

Lemma coupling_call_agree (x y : list R) (k : nat) :
  length x = length y ->
  (forall i, i < k -> nth i x 0%R = nth i y 0%R) ->
  nth k (fst (coupling_call c x)) 0%R = nth k (fst (coupling_call c y)) 0%R
  /\ nth k (snd (coupling_call c x)) 0%R = nth k (snd (coupling_call c y)) 0%R.
Proof.
  intros Hxy H. destruct Hc as (ms & mt & -> & Hs & Ht). simpl.
  split; eapply wf_made_call_agree; try eassumption;
    intros i Hi; apply H; lia.
Qed.

Lemma length_forward_affine (x : list R) :
  length x = D -> length (forward_affine c x) = D.
Proof.
  intros Hx. destruct (coupling_call_length x) as [Hs Ht].
  unfold forward_affine. lengths.
Qed.

Lemma nth_forward_affine (x : list R) (j : nat) :
  length x = D -> j < D ->
  nth j (forward_affine c x) 0%R
  = (nth j x 0 * exp (nth j (fst (coupling_call c x)) 0)
     + nth j (snd (coupling_call c x)) 0)%R.
Proof.
  intros Hx Hj. destruct (coupling_call_length x) as [Hs Ht].
  unfold forward_affine, vadd, vmul, vexp.
  rewrite nth_zip_with with (da := 0%R) (db := 0%R) by lengths.
  rewrite nth_zip_with with (da := 0%R) (db := 0%R) by lengths.
  rewrite nth_map_in with (d' := 0%R) by lia. reflexivity.
Qed.

Lemma length_invert_feature (w : list R) (k : nat) :
  length w = D -> length (MAFlowModel.invert_feature c D w k) = D.
Proof.
  intros Hw. destruct (coupling_call_length w) as [Hs Ht].
  unfold MAFlowModel.invert_feature.
  destruct (coupling_call c w) as [s t]; simpl in Hs, Ht. lengths.
Qed.

Lemma nth_invert_feature (w : list R) (k j : nat) :
  length w = D -> j < D ->
  nth j (MAFlowModel.invert_feature c D w k) 0%R
  = if j =? k
    then (exp (- nth j (fst (coupling_call c w)) 0)
          * (nth j w 0 - nth j (snd (coupling_call c w)) 0))%R
    else nth j w 0%R.
Proof.
  intros Hw Hj. destruct (coupling_call_length w) as [Hs Ht].
  unfold MAFlowModel.invert_feature.
  destruct (coupling_call c w) as [s t]; simpl in Hs, Ht |- *.
  unfold vadd, vmul, vsub, vexp, vneg.
  rewrite nth_zip_with with (da := 0%R) (db := 0%R) by lengths.
  rewrite nth_zip_with with (da := 0%R) (db := 0%R) by lengths.
  rewrite nth_zip_with with (da := 0%R) (db := 0%R) by lengths.
  rewrite nth_zip_with with (da := 0%R) (db := 0%R) by lengths.
  rewrite nth_zip_with with (da := 0%R) (db := 0%R) by lengths.
  rewrite nth_map_in with (d' := 0%R) by lengths.
  rewrite nth_map_in with (d' := 0%R) by lengths.
  rewrite nth_map_in with (d' := 0%R) by lengths.
  unfold MAFlowModel.one_hot, range. rewrite nth_map_seq by exact Hj. simpl (0 + j).
  destruct (j =? k); ring.
Qed.

(** After [k] rounds of the inverse loop the first [k] features are
    restored and the others still hold the forward values. *)
Lemma invert_prefix (x : list R) (k : nat) :
  length x = D -> k <= D ->
  let w := fold_left (MAFlowModel.invert_feature c D) (range k) (forward_affine c x) in
  length w = D
  /\ forall j, j < D ->
       nth j w 0%R = if j <? k then nth j x 0%R else nth j (forward_affine c x) 0%R.
Proof.
  intros Hx. induction k as [|k IH]; intros Hk.
  - simpl. split; [now apply length_forward_affine | reflexivity].
  - rewrite fold_left_range_S.
    destruct IH as [Hw Hnth]; [lia|].
    set (w := fold_left (MAFlowModel.invert_feature c D) (range k) (forward_affine c x))
      in *.
    split; [now apply length_invert_feature|].
    intros j Hj. rewrite nth_invert_feature by assumption.
    destruct (Nat.eqb_spec j k) as [->|Hjk].
    + destruct (coupling_call_agree w x (k := k)) as [Es Et].
      * congruence.
      * intros i Hi. rewrite Hnth by lia.
        destruct (Nat.ltb_spec i k); [reflexivity|lia].
      * rewrite Es, Et, Hnth by assumption.
        destruct (Nat.ltb_spec k k); [lia|].
        rewrite nth_forward_affine by assumption.
        rewrite exp_undo. destruct (Nat.ltb_spec k (S k)); [reflexivity|lia].
    + rewrite Hnth by assumption.
      destruct (Nat.ltb_spec j k), (Nat.ltb_spec j (S k)); try reflexivity; lia.
Qed.

(** The inverse loop undoes the affine update. *)
Lemma invert_forward (x : list R) :
  length x = D ->
  fold_left (MAFlowModel.invert_feature c D) (range D) (forward_affine c x) = x.
Proof.
  intros Hx. destruct (invert_prefix x Hx (Nat.le_refl D)) as [Hw Hnth].
  apply list_ext with (d := 0%R); [congruence|].
  intros j Hj. rewrite Hnth by lia.
  destruct (Nat.ltb_spec j D); [reflexivity|lia].
Qed.
End CouplingInverse.

(** * [argsort] inverts a permutation *)

Lemma insert_key_perm (a : nat * nat) (l : list (nat * nat)) :
  Permutation (insert_key a l) (a :: l).
Proof.
  induction l as [|b l IH]; simpl; [reflexivity|].
  destruct (fst a <=? fst b); [reflexivity|].
  rewrite IH. apply perm_swap.
Qed.

Lemma sort_keys_perm (l : list (nat * nat)) : Permutation (sort_keys l) l.
Proof.
  induction l as [|a l IH]; simpl; [reflexivity|].
  rewrite insert_key_perm. now constructor.
Qed.

Lemma insert_key_sorted (a : nat * nat) (l : list (nat * nat)) :
  StronglySorted key_le l -> StronglySorted key_le (insert_key a l).
Proof.
  induction 1 as [|b l Hs IH Hb]; simpl.
  - repeat constructor.
  - destruct (Nat.leb_spec (fst a) (fst b)) as [Hab|Hab].
    + constructor; [now constructor|].
      constructor; [exact Hab|].
      eapply Forall_impl; [|exact Hb]. unfold key_le; intros; lia.
    + constructor; [exact IH|].
      eapply Permutation_Forall; [symmetry; apply insert_key_perm|].
      constructor; [unfold key_le; lia | exact Hb].
Qed.

Lemma sort_keys_sorted (l : list (nat * nat)) : StronglySorted key_le (sort_keys l).
Proof.
  induction l as [|a l IH]; simpl; [constructor | now apply insert_key_sorted].
Qed.

Lemma sorted_map_fst (l : list (nat * nat)) :
  StronglySorted key_le l -> StronglySorted le (map fst l).
Proof.
  induction 1 as [|b l Hs IH Hb]; simpl; constructor; auto.
  rewrite Forall_map. exact Hb.
Qed.

(** A sorted arrangement of [a, a+1, ..., a+n-1] is that very list. *)
Lemma sorted_perm_seq (n : nat) :
  forall (a : nat) (l : list nat),
    StronglySorted le l -> Permutation l (seq a n) -> l = seq a n.
Proof.
  induction n as [|n IH]; intros a l Hs Hp.
  - now apply Permutation_nil; symmetry.
  - destruct l as [|h t]; [apply Permutation_length in Hp; discriminate|].
    inversion Hs as [|h' t' Hst Hh]; subst.
    assert (Hha : h = a).
    { assert (Hin : In h (seq a (S n))) by (eapply Permutation_in; [exact Hp|now left]).
      apply in_seq in Hin.
      assert (Ha : In a (h :: t)).
      { eapply Permutation_in; [symmetry; exact Hp|]. simpl; now left. }
      destruct Ha as [Ha|Ha]; [lia|].
      rewrite Forall_forall in Hh. specialize (Hh a Ha). lia. }
    subst h. simpl. f_equal.
    apply IH; [exact Hst|].
    simpl in Hp. now apply Permutation_cons_inv in Hp.
Qed.

Lemma combine_index (p : list nat) (a : nat) :
  Forall (fun vi => a <= snd vi < a + length p /\ nth (snd vi - a) p 0 = fst vi)
         (combine p (seq a (length p))).
Proof.
  revert a; induction p as [|v p IH]; intros a; simpl; constructor.
  - simpl. replace (a - a) with 0 by lia. split; [lia|reflexivity].
  - eapply Forall_impl; [|apply (IH (S a))].
    intros [w i]; simpl. intros [Hi Hw]. split; [lia|].
    replace (i - a) with (S (i - S a)) by lia. exact Hw.
Qed.

Lemma map_fst_combine_range (p : list nat) :
  map fst (combine p (range (length p))) = p.
Proof.
  unfold range. generalize 0.
  induction p as [|v p IH]; intros a; simpl; [reflexivity|].
  now rewrite IH.
Qed.

(** Reading [p] at the indices [argsort p] gives [p] sorted. *)
Lemma gather_argsort (p : list nat) (n : nat) :
  Permutation p (seq 0 n) -> gather 0 p (argsort p) = seq 0 n.
Proof.
  intros Hp. unfold gather, argsort. rewrite map_map.
  set (s := sort_keys (combine p (range (length p)))).
  assert (Hs : Forall (fun vi => nth (snd vi) p 0 = fst vi) s).
  { eapply Permutation_Forall; [symmetry; apply sort_keys_perm|].
    eapply Forall_impl; [|apply (combine_index p 0)].
    intros [w i]; simpl. intros [_ Hw]. now rewrite Nat.sub_0_r in Hw. }
  transitivity (map fst s).
  - apply map_ext_Forall. exact Hs.
  - apply sorted_perm_seq.
    + apply sorted_map_fst, sort_keys_sorted.
    + etransitivity; [apply Permutation_map, sort_keys_perm|].
      now rewrite map_fst_combine_range.
Qed.

Lemma argsort_bound (p : list nat) :
  Forall (fun j => j < length p) (argsort p).
Proof.
  unfold argsort. rewrite Forall_map.
  eapply Permutation_Forall; [symmetry; apply sort_keys_perm|].
  eapply Forall_impl; [|apply (combine_index p 0)].
  intros [w i]; simpl. lia.
Qed.

Lemma length_argsort (p : list nat) : length (argsort p) = length p.
Proof.
  unfold argsort. rewrite length_map.
  rewrite (Permutation_length (sort_keys_perm _)).
  unfold range. rewrite length_combine, length_seq. lia.
Qed.

Lemma gather_range (A : Type) (d : A) (x : list A) :
  gather d x (seq 0 (length x)) = x.
Proof.
  apply list_ext with (d := d).
  - unfold gather. now rewrite length_map, length_seq.
  - unfold gather. rewrite length_map, length_seq. intros i Hi.
    now rewrite nth_map_seq.
Qed.

(** Gathering with [argsort p] undoes gathering with the permutation [p]. *)
Lemma gather_argsort_gather (x : list R) (p : list nat) :
  Permutation p (seq 0 (length x)) ->
  gather 0%R (gather 0%R x p) (argsort p) = x.
Proof.
  intros Hp.
  transitivity (gather 0%R x (gather 0 p (argsort p))).
  - unfold gather. rewrite map_map.
    apply map_ext_Forall.
    eapply Forall_impl; [|apply argsort_bound].
    intros j Hj. simpl. now rewrite nth_map_in with (d' := 0).
  - rewrite gather_argsort with (n := length x) by exact Hp. apply gather_range.
Qed.

(** * The unconditional flow: forward then inverse *)

Module FlowFacts.
Import MAFlowModel.

Lemma step_true (m : t) (x : list R) (ld : R) (i : nat) :
  fst (step m true (x, ld) i)
  = let a := forward_affine (nth i (layers_list m) []) x in
    if i =? n_coupling m - 1 then a else gather 0%R a (nth i (permutations m) []).
Proof.
  unfold step, forward_affine.
  destruct (coupling_call (nth i (layers_list m) []) x) as [s t]. simpl.
  destruct (i =? n_coupling m - 1); reflexivity.
Qed.

Lemma step_false (m : t) (z : list R) (ld : R) (i : nat) :
  fst (step m false (z, ld) i)
  = let w := fold_left (invert_feature (nth i (layers_list m) []) (in_shape m))
                       (range (in_shape m)) z in
    if i =? 0 then w else gather 0%R w (argsort (nth (i - 1) (permutations m) [])).
Proof.
  unfold step. simpl. destruct (i =? 0); reflexivity.
Qed.

Lemma snd_step_false (m : t) (z : list R) (ld : R) (i : nat) :
  snd (step m false (z, ld) i) = ld.
Proof.
  unfold step. simpl. destruct (i =? 0); reflexivity.
Qed.

Lemma step_fst_indep (m : t) (tr : bool) (x : list R) (ld ld' : R) (i : nat) :
  fst (step m tr (x, ld) i) = fst (step m tr (x, ld') i).
Proof.
  destruct tr; [now rewrite !step_true | now rewrite !step_false].
Qed.

Lemma fst_fold_step (m : t) (tr : bool) (l : list nat) :
  forall (x : list R) (ld : R),
    fst (fold_left (step m tr) l (x, ld)) = fold_left (flow_step_x m tr) l x.
Proof.
  induction l as [|i l IH]; intros x ld; cbn [fold_left]; [reflexivity|].
  destruct (step m tr (x, ld) i) as [x' ld'] eqn:E.
  rewrite IH. f_equal. unfold flow_step_x.
  rewrite (step_fst_indep m tr x 0%R ld), E. reflexivity.
Qed.

Lemma fst_call (m : t) (x : list R) (tr : bool) :
  fst (call m x tr)
  = fold_left (flow_step_x m tr)
              (if tr then range (n_coupling m) else rev (range (n_coupling m))) x.
Proof. unfold call. apply fst_fold_step. Qed.

Lemma rev_range_S (n : nat) : rev (range (S n)) = n :: rev (range n).
Proof. unfold range. now rewrite seq_S, rev_app_distr. Qed.

Section RoundTrip.
Variable m : t.
Hypothesis Hwf : wf_flow m.
Variable x : list R.
Hypothesis Hx : length x = in_shape m.

Let N := n_coupling m.
Let D := in_shape m.
Let layer (i : nat) := nth i (layers_list m) [].
Let perm (i : nat) := nth i (permutations m) [].

(** State entering layer [n] of the forward pass ... *)
Let F (n : nat) : list R := fold_left (flow_step_x m true) (range n) x.
(** ... and after its affine update. *)
Let A (n : nat) : list R := forward_affine (layer n) (F n).

Lemma wf_layer (i : nat) : i < N -> wf_coupling D 0 (layer i).
Proof.
  intros Hi. destruct Hwf as (Hl & Hc & _).
  rewrite Forall_forall in Hc. apply Hc, nth_In. now rewrite Hl.
Qed.

Lemma wf_perm (i : nat) : i < N - 1 -> Permutation (perm i) (seq 0 D).
Proof.
  intros Hi. destruct Hwf as (_ & _ & Hl & Hp).
  rewrite Forall_forall in Hp. apply Hp, nth_In. now rewrite Hl.
Qed.

Lemma F_S (n : nat) :
  F (S n) = if n =? N - 1 then A n else gather 0%R (A n) (perm n).
Proof.
  unfold F. rewrite fold_left_range_S. unfold flow_step_x at 1.
  now rewrite step_true.
Qed.

Lemma length_F (n : nat) : n <= N -> length (F n) = D.
Proof.
  induction n as [|n IH]; intros Hn; [exact Hx|].
  assert (HA : length (A n) = D).
  { apply length_forward_affine; [apply wf_layer; lia | apply IH; lia]. }
  rewrite F_S. destruct (Nat.eqb_spec n (N - 1)); [exact HA|].
  unfold gather. rewrite length_map.
  rewrite (Permutation_length (wf_perm (i := n) ltac:(lia))).
  apply length_seq.
Qed.

Lemma length_A (n : nat) : n < N -> length (A n) = D.
Proof.
  intros Hn. apply length_forward_affine; [now apply wf_layer | apply length_F; lia].
Qed.

(** Running the inverse loop over layers [n, n-1, ..., 0] from the
    forward state after the affine update of layer [n] restores [x]. *)
Lemma inverse_from (n : nat) :
  n < N -> fold_left (flow_step_x m false) (rev (range (S n))) (A n) = x.
Proof.
  induction n as [|n IH]; intros Hn; rewrite rev_range_S; cbn [fold_left].
  - unfold range; simpl. unfold flow_step_x. rewrite step_false. cbv zeta.
    simpl (0 =? 0). fold (layer 0). unfold A.
    apply invert_forward with (D := D); [apply wf_layer; lia | exact Hx].
  - assert (Hz : flow_step_x m false (A (S n)) (S n) = A n).
    { unfold flow_step_x. rewrite step_false. cbv zeta.
      simpl (S n =? 0). simpl (S n - 1). rewrite Nat.sub_0_r.
      fold (layer (S n)). unfold A at 1.
      rewrite invert_forward with (D := D);
        [| apply wf_layer; lia | apply length_F; lia].
      rewrite F_S. destruct (Nat.eqb_spec n (N - 1)); [lia|].
      fold (perm n). apply gather_argsort_gather.
      rewrite length_A by lia. apply wf_perm; lia. }
    rewrite Hz. apply IH; lia.
Qed.

Lemma round_trip : fst (call m (fst (call m x true)) false) = x.
Proof.
  rewrite !fst_call. fold N. fold (F N).
  destruct N as [|n] eqn:EN; [reflexivity|].
  rewrite F_S. rewrite EN. destruct (Nat.eqb_spec n (S n - 1)); [|lia].
  apply inverse_from. lia.
Qed.
End RoundTrip.
End FlowFacts.

(** * Construction of a MADE layer *)

Lemma init_fields (D L W : nat) (act : string) (rn : list (list Z)) (P : nat)
    (silent : bool) (m0 : MADE.t) (msgs : list message) :
  MADE.init D L W act rn P silent = Ok (m0, msgs) ->
  MADE.in_shape m0 = D /\ MADE.num_layers m0 = L /\ MADE.num_nodes m0 = W
  /\ MADE.n_params m0 = P /\ MADE.activation m0 = act /\ 2 <= D.
Proof.
  unfold MADE.init. destruct (Nat.ltb_spec D 2); [discriminate|].
  destruct (negb (existsb _ _)); [discriminate|].
  intros E; injection E as <- _. simpl. repeat split; auto.
Qed.

Lemma build_fields (m0 m : MADE.t) (w : nat) (rng : list (list Z))
    (ws : list (list (list R))) (bs : list (list R)) :
  MADE.build m0 w rng ws bs = Ok m ->
  MADE.in_shape m = MADE.in_shape m0 /\ MADE.num_layers m = MADE.num_layers m0
  /\ MADE.num_nodes m = MADE.num_nodes m0 /\ MADE.n_params m = MADE.n_params m0
  /\ MADE.activation m = MADE.activation m0
  /\ MADE.kernels m = ws /\ MADE.biases m = bs
  /\ MADE.nums m = MADE.build_nums m0 rng.
Proof.
  unfold MADE.build. destruct (negb _); [discriminate|].
  cbv zeta. destruct (_ && _); [discriminate|].
  intros E; injection E as <-. simpl. repeat split; auto.
Qed.

Lemma build_ok (m0 : MADE.t) (rng : list (list Z))
    (ws : list (list (list R))) (bs : list (list R)) :
  1 <= MADE.num_layers m0 ->
  exists m, MADE.build m0 (MADE.in_shape m0 + MADE.n_params m0) rng ws bs = Ok m.
Proof.
  intros HL. unfold MADE.build. rewrite Nat.eqb_refl. cbn [negb]. cbv zeta.
  destruct (Nat.eqb_spec (MADE.num_layers m0) 0); [lia|].
  cbn [andb]. eexists; reflexivity.
Qed.

(** Without hidden layers [build] fails as soon as there is a hidden unit. *)
Lemma build_no_layers (m0 : MADE.t) (rng : list (list Z))
    (ws : list (list (list R))) (bs : list (list R)) :
  MADE.num_layers m0 = 0 ->
  1 <= MADE.num_nodes m0 + MADE.extra m0 ->
  MADE.build m0 (MADE.in_shape m0 + MADE.n_params m0) rng ws bs = Raise IndexError.
Proof.
  intros HL HW. unfold MADE.build. rewrite Nat.eqb_refl. cbn [negb]. cbv zeta.
  rewrite HL. cbn [Nat.eqb andb]. unfold MADE.extra in HW.
  destruct (Nat.ltb_spec 0 (MADE.num_nodes m0 + (if 0 <? MADE.n_params m0 then 1 else 0)));
    [reflexivity|lia].
Qed.

Lemma supported_spec (act : string) :
  existsb (String.eqb act) MADE.supported = true <-> In act MADE.supported.
Proof.
  rewrite existsb_exists. split.
  - intros (s & Hs & E). apply String.eqb_eq in E. now subst.
  - intros H. exists act. split; [exact H | apply String.eqb_refl].
Qed.

Lemma shape_eqb_false (s1 s2 : list nat) : s1 <> s2 -> MADE.shape_eqb s1 s2 = false.
Proof.
  intros H. unfold MADE.shape_eqb. destruct (list_eq_dec Nat.eq_dec s1 s2); congruence.
Qed.

(** * Construction of the flow models *)

Lemma mapM_ok (A B : Type) (f : A -> outcome B) (l : list A) :
  (forall a, In a l -> exists b, f a = Ok b) ->
  exists bs, mapM f l = Ok bs.
Proof.
  induction l as [|a l IH]; intros H; simpl; [eexists; reflexivity|].
  destruct (H a (or_introl eq_refl)) as [b ->].
  destruct IH as [bs ->]; [intros; apply H; now right|].
  simpl. eexists; reflexivity.
Qed.

Lemma mapM_Forall2 (A B : Type) (f : A -> outcome B) (l : list A) :
  forall bs, mapM f l = Ok bs -> Forall2 (fun a b => f a = Ok b) l bs.
Proof.
  induction l as [|a l IH]; simpl; intros bs E.
  - injection E as <-. constructor.
  - destruct (f a) as [b|] eqn:Ea; [|discriminate]. simpl in E.
    destruct (mapM f l) as [bs'|]; [|discriminate]. simpl in E.
    injection E as <-. constructor; auto.
Qed.

Lemma made_init_ok (D L W : nat) (act : string) (rn : list (list Z)) (P : nat)
    (silent : bool) :
  2 <= D -> In act MADE.supported ->
  exists m0 msgs, MADE.init D L W act rn P silent = Ok (m0, msgs).
Proof.
  intros HD Hact. unfold MADE.init.
  destruct (Nat.ltb_spec D 2); [lia|].
  apply supported_spec in Hact. rewrite Hact. simpl.
  eexists; eexists; reflexivity.
Qed.

(** The coupling stacks of both flow models are always constructed when
    there are at least two inputs. *)
Lemma stack_ok (D P L W : nat) (dr : draws) :
  2 <= D -> 1 <= L ->
  exists c, stack D P 2 ["tanh"; "linear"]%string L W dr = Ok c.
Proof.
  intros HD HL. unfold stack. cbn -[mapM range MADE.init MADE.build nth Nat.ltb].
  apply mapM_ok. intros i Hi.
  assert (Hact : In (nth i ["tanh"; "linear"] "")%string MADE.supported).
  { simpl in Hi. destruct Hi as [<-|[<-|[]]]; simpl; auto. }
  destruct (made_init_ok L W (if 2 <? D then coupling_nums dr else []) P true HD Hact)
    as (m0 & msgs & E).
  rewrite E. cbn [bind fst].
  destruct (init_fields _ _ _ _ _ _ _ E) as (HD0 & HL0 & _ & HP0 & _).
  destruct (@build_ok m0 (made_nums dr i) (made_kernels dr i) (made_biases dr i))
    as [m Em]; [lia|].
  rewrite HD0, HP0 in Em. exists m. exact Em.
Qed.

Lemma flow_init_ok (n D L W : nat) (permutations : option (list (list nat)))
    (dr : nat -> draws) (rp : nat -> list nat) :
  2 <= D -> 1 <= L ->
  exists m, MAFlowModel.init n D L W permutations dr rp = Ok m
            /\ MAFlowModel.permutations m
               = match permutations with
                 | None => map rp (range (n - 1))
                 | Some p => p
                 end.
Proof.
  intros HD HL. unfold MAFlowModel.init.
  destruct (mapM_ok (fun i => MACoupling D 2 ["tanh"; "linear"]%string L W (dr i))
                    (range n)) as [layers ->].
  - intros i _. apply stack_ok; [exact HD|exact HL].
  - simpl. eexists; split; reflexivity.
Qed.

(** * Histograms, cumulative distributions and inverse transform sampling *)

Lemma cumsum_from_sorted (v : list R) :
  Forall (fun a => 0 <= a)%R v ->
  forall acc, Sorted Rle (acc :: cumsum_from acc v).
Proof.
  induction 1 as [|a v Ha _ IH]; intros acc; simpl.
  - repeat constructor.
  - constructor; [apply IH|]. constructor. lra.
Qed.

Lemma last_cumsum_from (v : list R) :
  forall acc d, last (acc :: cumsum_from acc v) d = (acc + Rsum v)%R.
Proof.
  induction v as [|a v IH]; intros acc d.
  - simpl. unfold Rsum, reduce_sum; simpl. ring.
  - change (last (acc :: cumsum_from acc (a :: v)) d)
      with (last ((acc + a)%R :: cumsum_from (acc + a)%R v) d).
    rewrite IH. unfold Rsum, reduce_sum; simpl. ring.
Qed.

Lemma Rsum_nonneg (v : list R) : Forall (fun a => 0 <= a)%R v -> (0 <= Rsum v)%R.
Proof.
  induction 1 as [|a v Ha _ IH]; unfold Rsum, reduce_sum in *; simpl; lra.
Qed.

Lemma Rsum_pos (v : list R) :
  Forall (fun a => 0 <= a)%R v -> Exists (fun a => 0 < a)%R v -> (0 < Rsum v)%R.
Proof.
  intros Hn He. induction He as [a v Ha|a v He IH]; inversion Hn as [|? ? H0 Hv]; subst.
  - pose proof (Rsum_nonneg Hv). unfold Rsum, reduce_sum in *; simpl; lra.
  - specialize (IH Hv). unfold Rsum, reduce_sum in *; simpl; lra.
Qed.

Lemma sorted_snoc_last (l : list R) (d : R) :
  Sorted Rle l -> Sorted Rle (l ++ [last l d]).
Proof.
  induction 1 as [|a l Hs IH Hh].
  - simpl. repeat constructor.
  - destruct l as [|b l].
    + simpl. constructor; [repeat constructor | constructor; lra].
    + change (last (a :: b :: l) d) with (last (b :: l) d).
      simpl app. constructor; [exact IH|].
      constructor. now apply HdRel_inv in Hh.
Qed.

Lemma sorted_map_mono (f : R -> R) (l : list R) :
  (forall a b, a <= b -> f a <= f b)%R -> Sorted Rle l -> Sorted Rle (map f l).
Proof.
  intros Hf. induction 1 as [|a l Hs IH Hh]; simpl; constructor; auto.
  destruct Hh; simpl; constructor. now apply Hf.
Qed.

Section MakeCdf.
Variable values : list R.
Let total := Rsum values.
Let raw := (0%R :: cumsum values) ++ [total].

Lemma make_cdf_unfold :
  MAConditionalFlowModel.make_cdf values = map (fun c => (c / total)%R) raw.
Proof.
  unfold MAConditionalFlowModel.make_cdf, raw, total, cumsum.
  rewrite last_last, last_cumsum_from, Rplus_0_l. reflexivity.
Qed.

Lemma make_cdf_head : hd 0%R (MAConditionalFlowModel.make_cdf values) = 0%R.
Proof. rewrite make_cdf_unfold. simpl. unfold Rdiv. apply Rmult_0_l. Qed.

Lemma length_make_cdf :
  length (MAConditionalFlowModel.make_cdf values) = length values + 2.
Proof.
  rewrite make_cdf_unfold. unfold raw, cumsum. rewrite length_map, length_app. simpl.
  assert (H : forall acc, length (cumsum_from acc values) = length values).
  { induction values as [|a v IH]; intros acc; simpl; auto. }
  rewrite H. lia.
Qed.

Hypothesis Hnonneg : Forall (fun a => 0 <= a)%R values.
Hypothesis Hpos : Exists (fun a => 0 < a)%R values.

Lemma total_pos : (0 < total)%R.
Proof. now apply Rsum_pos. Qed.

Lemma make_cdf_last : last (MAConditionalFlowModel.make_cdf values) 0%R = 1%R.
Proof.
  rewrite make_cdf_unfold. unfold raw. rewrite map_app. simpl map at 2.
  rewrite last_last. pose proof total_pos. field. lra.
Qed.

Lemma make_cdf_sorted : Sorted Rle (MAConditionalFlowModel.make_cdf values).
Proof.
  rewrite make_cdf_unfold. apply sorted_map_mono.
  - intros a b Hab. pose proof total_pos as Ht.
    unfold Rdiv. apply Rmult_le_compat_r; [|exact Hab].
    left. now apply Rinv_0_lt_compat.
  - unfold raw, total.
    rewrite <- (Rplus_0_l (Rsum values)), <- (last_cumsum_from values 0 0).
    apply sorted_snoc_last. now apply cumsum_from_sorted.
Qed.

(** The entry before the padding is already 1. *)
Lemma make_cdf_top :
  nth (length values) (MAConditionalFlowModel.make_cdf values) 0%R = 1%R.
Proof.
  rewrite make_cdf_unfold. unfold raw.
  assert (Hlen : length (0%R :: cumsum values) = S (length values)).
  { pose proof length_make_cdf as H. rewrite make_cdf_unfold in H.
    unfold raw in H. rewrite length_map, length_app in H. simpl in H |- *. lia. }
  rewrite nth_map_in with (d' := 0%R) by (rewrite length_app, Hlen; simpl; lia).
  rewrite app_nth1 by lia.
  replace (length values) with (length (0%R :: cumsum values) - 1) by lia.
  assert (Hl : forall (l : list R) d, l <> [] -> nth (length l - 1) l d = last l d).
  { induction l as [|a [|b l] IH]; intros d Hne; try congruence; [reflexivity|].
    change (last (a :: b :: l) d) with (last (b :: l) d).
    rewrite <- IH by discriminate. simpl. now rewrite Nat.sub_0_r. }
  rewrite Hl by discriminate.
  unfold cumsum. rewrite last_cumsum_from, Rplus_0_l. fold total.
  pose proof total_pos. field. lra.
Qed.
End MakeCdf.

Lemma searchsorted_le (a : list R) (v : R) (k : nat) :
  k < length a -> (v <= nth k a 0)%R -> searchsorted a v <= k.
Proof.
  revert k; induction a as [|c a IH]; intros k Hk Hv; simpl in *; [lia|].
  destruct (Rlt_dec c v) as [Hc|Hc]; [|lia].
  destruct k as [|k]; [lra|].
  apply -> Nat.succ_le_mono. apply IH; [lia|exact Hv].
Qed.

Lemma nth_error_last (A : Type) (l : list A) (d : A) :
  l <> [] -> nth_error l (length l - 1) = Some (last l d).
Proof.
  induction l as [|a [|b l] IH]; intros Hne; try congruence; [reflexivity|].
  change (last (a :: b :: l) d) with (last (b :: l) d).
  rewrite <- IH by discriminate. simpl. now rewrite Nat.sub_0_r.
Qed.

(** Index [-1] reads the last entry. *)
Lemma py_index_minus_one (A : Type) (l : list A) (d : A) :
  l <> [] -> py_index l (-1) = Ok (last l d).
Proof.
  intros Hne. unfold py_index.
  assert (Hl : 0 < length l) by (destruct l; [congruence | simpl; lia]).
  change (0 <=? -1)%Z with false. cbv iota.
  destruct (Z.leb_spec (- Z.of_nat (length l)) (-1)) as [_|H]; [|lia].
  replace (Z.to_nat (Z.of_nat (length l) + -1)) with (length l - 1) by lia.
  now rewrite nth_error_last with (d := d).
Qed.

Lemma py_index_in_range (A : Type) (l : list A) (i : Z) :
  (- Z.of_nat (length l) <= i < Z.of_nat (length l))%Z -> exists a, py_index l i = Ok a.
Proof.
  intros Hi. unfold py_index.
  destruct (Z.leb_spec 0 i) as [H0|H0].
  - destruct (nth_error l (Z.to_nat i)) as [a|] eqn:E; [now exists a|].
    apply nth_error_None in E. lia.
  - destruct (Z.leb_spec (- Z.of_nat (length l)) i) as [_|H]; [|lia].
    destruct (nth_error l (Z.to_nat (Z.of_nat (length l) + i))) as [a|] eqn:E;
      [now exists a|].
    apply nth_error_None in E. lia.
Qed.

Lemma store_hist_ok (h s : MAConditionalFlowModel.hist) :
  MAConditionalFlowModel.store_hist h = Ok s ->
  s = (MAConditionalFlowModel.make_cdf (fst h), tl (snd h))
  /\ length (snd h) = S (length (fst h)).
Proof.
  unfold MAConditionalFlowModel.store_hist.
  destruct (Z.eqb_spec (Z.of_nat (length (fst h))) (Z.of_nat (length (snd h)) - 1))
    as [E|E]; simpl; [|discriminate].
  intros H; injection H as <-. split; [reflexivity|lia].
Qed.

Lemma stored_nth (hists stored : list MAConditionalFlowModel.hist) :
  mapM MAConditionalFlowModel.store_hist hists = Ok stored ->
  forall i h, nth_error hists i = Some h ->
    nth_error stored i = Some (MAConditionalFlowModel.make_cdf (fst h), tl (snd h))
    /\ length (snd h) = S (length (fst h)).
Proof.
  intros HM. apply mapM_Forall2 in HM.
  induction HM as [|h0 s0 hs ss H0 _ IH]; intros [|i] h Hi; simpl in Hi; try discriminate.
  - injection Hi as <-. apply store_hist_ok in H0. destruct H0 as [-> Hl].
    split; [reflexivity|exact Hl].
  - simpl. now apply IH.
Qed.

Lemma stored_all (hists stored : list MAConditionalFlowModel.hist) :
  mapM MAConditionalFlowModel.store_hist hists = Ok stored ->
  Forall2 (fun h s => s = (MAConditionalFlowModel.make_cdf (fst h), tl (snd h))
                      /\ length (snd h) = S (length (fst h))) hists stored.
Proof.
  intros HM. apply mapM_Forall2 in HM.
  induction HM; constructor; auto. now apply store_hist_ok.
Qed.

Lemma cond_init_fields (n D : nat) (hists : list MAConditionalFlowModel.hist)
    (L W : nat) (perms : option (list (list nat))) (dr0 dr : nat -> draws)
    (rp : nat -> list nat) (m : MAConditionalFlowModel.t) :
  MAConditionalFlowModel.init n D hists L W perms dr0 dr rp = Ok m ->
  MAConditionalFlowModel.n_coupling m = n
  /\ MAConditionalFlowModel.in_shape m = D
  /\ MAConditionalFlowModel.n_params m = length hists
  /\ 1 <= length hists
  /\ mapM MAConditionalFlowModel.store_hist hists
     = Ok (MAConditionalFlowModel.param_hists m)
  /\ MAConditionalFlowModel.left_zero_matrix m
     = MAConditionalFlowModel.make_left_zero_matrix D (length hists)
  /\ MAConditionalFlowModel.permutations m
     = match perms with None => map rp (range (n - 1)) | Some p => p end
  /\ mapM (fun i => MAConditionalCoupling D (length hists) 2 ["tanh"; "linear"]%string
                      L W (dr i)) (range n)
     = Ok (MAConditionalFlowModel.layers_list m).
Proof.
  unfold MAConditionalFlowModel.init.
  destruct (MAFlowModel.init n D L W perms dr0 rp) as [super|] eqn:Es; [|discriminate].
  cbn [bind].
  destruct (mapM MAConditionalFlowModel.store_hist hists) as [stored|]; [|discriminate].
  cbn [bind].
  destruct (Nat.eqb_spec (length hists) 0) as [E0|E0]; [discriminate|].
  destruct (mapM _ (range n)) as [layers|]; [|discriminate].
  cbn [bind]. intros H; injection H as <-. simpl.
  repeat split; auto; [lia|].
  unfold MAFlowModel.init in Es.
  destruct (mapM _ (range n)) as [ls|]; [|discriminate].
  cbn [bind] in Es. injection Es as <-. reflexivity.
Qed.

(** * The conditional flow *)

Lemma left_zero_entry (D P i j : nat) :
  j < P -> entry 0%R (MAConditionalFlowModel.make_left_zero_matrix D P) i j = 0%R.
Proof.
  intros Hj. unfold entry, MAConditionalFlowModel.make_left_zero_matrix.
  destruct (Nat.lt_ge_cases i D) as [Hi|Hi].
  - rewrite nth_zip_with with (da := repeat 0%R P) (db := []).
    + rewrite nth_repeat.
      rewrite app_nth1 by (rewrite repeat_length; exact Hj).
      apply nth_repeat.
    + now rewrite repeat_length.
    + unfold MAConditionalFlowModel.eye, range. now rewrite length_map, length_seq.
  - rewrite (nth_overflow (zip_with _ _ _)); [apply nth_nil|].
    rewrite length_zip_with, repeat_length. lia.
Qed.

Module CondFacts.
Import MAConditionalFlowModel.

Section Steps.
Variable m : t.
Let D := in_shape m.
Let P := n_params m.

Lemma length_widened (c : list MADE.t) (x : list R) :
  length (fst (widened m c x)) = P + D /\ length (snd (widened m c x)) = P + D.
Proof.
  unfold widened. destruct (coupling_call c x) as [s t]. simpl.
  unfold Rvec_mat. now rewrite !length_vec_mat.
Qed.

Lemma cond_step_true (x : list R) (ld : R) (i : nat) :
  fst (step m true (x, ld) i)
  = let a := cond_forward_affine m (nth i (layers_list m) []) x in
    if i =? n_coupling m - 1 then a else cond_permute m true i a.
Proof.
  unfold step, cond_forward_affine, cond_permute.
  destruct (widened m (nth i (layers_list m) []) x) as [s t]. simpl.
  destruct (i =? n_coupling m - 1); reflexivity.
Qed.

Lemma cond_step_false (z : list R) (ld : R) (i : nat) :
  fst (step m false (z, ld) i)
  = let w := fold_left (invert_feature m (nth i (layers_list m) []))
                       (range (in_shape m)) z in
    if i =? 0 then w else cond_permute m false i w.
Proof.
  unfold step, cond_permute. simpl. destruct (i =? 0); reflexivity.
Qed.

Lemma cond_fst_fold_step (tr : bool) (l : list nat) :
  forall (x : list R) (ld : R),
    fst (fold_left (step m tr) l (x, ld)) = fold_left (cond_step_x m tr) l x.
Proof.
  induction l as [|i l IH]; intros x ld; cbn [fold_left]; [reflexivity|].
  destruct (step m tr (x, ld) i) as [x' ld'] eqn:E.
  rewrite IH. f_equal. unfold cond_step_x.
  transitivity (fst (step m tr (x, ld) i)); [now rewrite E|].
  destruct tr; [now rewrite !cond_step_true | now rewrite !cond_step_false].
Qed.

(** A property of the features that every step of the loop over the
    layers keeps is kept by [call]. *)
Lemma call_invariant (Inv : list R -> Prop) (tr : bool) (x : list R) :
  (forall i z, i < n_coupling m -> Inv z -> Inv (cond_step_x m tr z i)) ->
  Inv x -> Inv (fst (call m x tr)).
Proof.
  intros Hstep Hx. unfold call. rewrite cond_fst_fold_step.
  set (l := if tr then range (n_coupling m) else rev (range (n_coupling m))).
  assert (Hl : Forall (fun i => i < n_coupling m) l).
  { apply Forall_forall. intros i Hi. subst l.
    destruct tr; [|apply in_rev in Hi]; apply in_seq in Hi; lia. }
  clearbody l. revert x Hx.
  induction Hl as [|i l Hi _ IH]; intros x Hx; simpl; auto.
Qed.

Lemma cond_length_forward_affine (c : list MADE.t) (x : list R) :
  length (cond_forward_affine m c x) = Nat.min (length x) (P + D).
Proof.
  destruct (length_widened c x) as [Hs Ht]. unfold cond_forward_affine. lengths.
Qed.

Lemma cond_length_invert_feature (c : list MADE.t) (x : list R) (k : nat) :
  length (invert_feature m c x k) = Nat.min (length x) (P + D).
Proof.
  destruct (length_widened c x) as [Hs Ht]. unfold invert_feature.
  destruct (widened m c x) as [s t]; simpl in Hs, Ht. fold P. fold D. lengths.
Qed.

Lemma length_permute (tr : bool) (i : nat) (x : list R) :
  length (cond_permute m tr i x)
  = P + length (nth (if tr then i else i - 1) (permutations m) []).
Proof.
  unfold cond_permute. destruct tr; lengths. now rewrite length_argsort.
Qed.

(** The first [P] positions are read back in place. *)
Lemma nth_permute (tr : bool) (i j : nat) (x : list R) :
  j < P -> nth j (cond_permute m tr i x) 0%R = nth j x 0%R.
Proof.
  intros Hj. unfold cond_permute, gather. rewrite map_app.
  rewrite app_nth1 by (unfold range; now rewrite length_map, length_seq).
  unfold range. now rewrite nth_map_seq.
Qed.

Hypothesis Hlzm : left_zero_matrix m = make_left_zero_matrix D P.

(** Scale and shift vanish on the parameter slots. *)
Lemma widened_zero (c : list MADE.t) (x : list R) (j : nat) :
  j < P ->
  nth j (fst (widened m c x)) 0%R = 0%R /\ nth j (snd (widened m c x)) 0%R = 0%R.
Proof.
  intros Hj. unfold widened. destruct (coupling_call c x) as [s t]. simpl.
  fold P; fold D. unfold Rvec_mat.
  rewrite !nth_vec_mat by lia.
  split; (apply dot_zero; [apply Rplus_0_l|]; intros i _ _;
          rewrite nth_column, Hlzm, left_zero_entry by exact Hj;
          apply Rmult_0_r).
Qed.

Lemma cond_nth_forward_affine (c : list MADE.t) (x : list R) (j : nat) :
  j < P -> P <= length x -> nth j (cond_forward_affine m c x) 0%R = nth j x 0%R.
Proof.
  intros Hj Hx. destruct (length_widened c x) as [Hs Ht].
  destruct (widened_zero c x Hj) as [Zs Zt].
  unfold cond_forward_affine, vadd, vmul, vexp.
  rewrite nth_zip_with with (da := 0%R) (db := 0%R) by lengths.
  rewrite nth_zip_with with (da := 0%R) (db := 0%R) by lengths.
  rewrite nth_map_in with (d' := 0%R) by lia.
  rewrite Zs, Zt, exp_0. ring.
Qed.

Lemma cond_nth_invert_feature (c : list MADE.t) (x : list R) (k j : nat) :
  j < P -> P <= length x -> nth j (invert_feature m c x k) 0%R = nth j x 0%R.
Proof.
  intros Hj Hx. destruct (length_widened c x) as [Hs Ht].
  unfold invert_feature.
  destruct (widened m c x) as [s t]; simpl in Hs, Ht. fold P; fold D.
  unfold vadd, vmul, vsub, vexp, vneg.
  rewrite nth_zip_with with (da := 0%R) (db := 0%R) by lengths.
  rewrite nth_zip_with with (da := 0%R) (db := 0%R) by lengths.
  rewrite nth_zip_with with (da := 0%R) (db := 0%R) by lengths.
  rewrite nth_map_in with (d' := 0%R) by lengths.
  unfold range. rewrite nth_map_seq by lia. simpl (0 + j).
  destruct (Nat.eqb_spec j (k + P)); [lia|]. ring.
Qed.

Lemma invert_loop_keeps (c : list MADE.t) (x z : list R) (n : nat) :
  keeps P x z -> keeps P x (fold_left (invert_feature m c) (range n) z).
Proof.
  intros Hz. induction n as [|n IH]; [exact Hz|].
  rewrite fold_left_range_S. destruct IH as [Hl Hn]. split.
  - rewrite cond_length_invert_feature. lia.
  - intros j Hj. rewrite cond_nth_invert_feature by assumption. now apply Hn.
Qed.

Lemma step_keeps (tr : bool) (x z : list R) (i : nat) :
  keeps P x z -> keeps P x (cond_step_x m tr z i).
Proof.
  intros Hz. unfold cond_step_x. destruct tr.
  - rewrite cond_step_true. cbv zeta.
    assert (Ha : keeps P x (cond_forward_affine m (nth i (layers_list m) []) z)).
    { destruct Hz as [Hl Hn]. split.
      - rewrite cond_length_forward_affine. lia.
      - intros j Hj. rewrite cond_nth_forward_affine by assumption. now apply Hn. }
    destruct (i =? n_coupling m - 1); [exact Ha|].
    destruct Ha as [Hl Hn]. split.
    + rewrite length_permute. lia.
    + intros j Hj. rewrite nth_permute by exact Hj. now apply Hn.
  - rewrite cond_step_false. cbv zeta. fold D.
    pose proof (invert_loop_keeps (nth i (layers_list m) []) D Hz) as Ha.
    destruct (i =? 0); [exact Ha|].
    destruct Ha as [Hl Hn]. split.
    + rewrite length_permute. lia.
    + intros j Hj. rewrite nth_permute by exact Hj. now apply Hn.
Qed.

Lemma call_keeps (x : list R) (tr : bool) :
  P <= length x -> firstn P (fst (call m x tr)) = firstn P x.
Proof.
  intros Hx.
  assert (H : keeps P x (fst (call m x tr))).
  { apply call_invariant; [intros; now apply step_keeps|]. split; auto. }
  destruct H as [Hl Hn].
  apply list_ext with (d := 0%R).
  - rewrite !length_firstn. lia.
  - rewrite length_firstn. intros j Hj.
    rewrite !nth_firstn.
    destruct (Nat.ltb_spec j P); [apply Hn|]; lia.
Qed.
End Steps.
End CondFacts.

(** * The constructors establish well-formedness *)

Lemma made_wf (D L W : nat) (act : string) (rn : list (list Z)) (P : nat) (silent : bool)
    (m0 m : MADE.t) (msgs : list message) (w : nat) (rng : list (list Z))
    (ws : list (list (list R))) (bs : list (list R)) :
  MADE.init D L W act rn P silent = Ok (m0, msgs) ->
  MADE.build m0 w rng ws bs = Ok m ->
  1 <= L ->
  Forall2 MADE.has_shape ws (MADE.shapes D P L W) ->
  Forall2 (fun b s => length b = snd s) bs (MADE.shapes D P L W) ->
  wf_made D P m.
Proof.
  intros Ei Eb HL Hws Hbs.
  destruct (init_fields _ _ _ _ _ _ _ Ei) as (HD & HL0 & HW & HP & _).
  destruct (build_fields _ _ _ _ _ Eb) as (HD' & HL' & HW' & HP' & _ & Hk & Hb & _).
  repeat split.
  - eapply build_built; eassumption.
  - lia.
  - congruence.
  - congruence.
  - unfold MADE.kernel_shapes. rewrite Hk, HD', HL', HW', HP', HD, HL0, HW, HP. exact Hws.
  - unfold MADE.kernel_shapes. rewrite Hb, HD', HL', HW', HP', HD, HL0, HW, HP. exact Hbs.
Qed.

Lemma stack_wf (D P L W : nat) (dr : draws) (c : list MADE.t) :
  stack D P 2 ["tanh"; "linear"]%string L W dr = Ok c ->
  1 <= L -> shaped_draws D P L W dr -> wf_coupling D P c.
Proof.
  unfold stack. cbn -[mapM range MADE.init MADE.build nth Nat.ltb].
  unfold range. cbn [seq mapM nth].
  intros E HL Hdr.
  destruct (MADE.init D L W "tanh" _ P true) as [[m0 msgs0]|] eqn:E0; [|discriminate].
  cbn [bind fst] in E.
  destruct (MADE.build m0 _ _ _ _) as [ms|] eqn:B0; [|discriminate].
  cbn [bind] in E.
  destruct (MADE.init D L W "linear" _ P true) as [[m1 msgs1]|] eqn:E1; [|discriminate].
  cbn [bind fst] in E.
  destruct (MADE.build m1 _ _ _ _) as [mt|] eqn:B1; [|discriminate].
  cbn [bind] in E. injection E as <-.
  exists ms, mt. split; [reflexivity|].
  split; eapply made_wf;
    [exact E0 | exact B0 | exact HL | apply Hdr | apply Hdr
    |exact E1 | exact B1 | exact HL | apply Hdr | apply Hdr].
Qed.

Lemma Forall2_length_r (A B : Type) (Q : A -> B -> Prop) (P : B -> Prop)
    (l : list A) (l' : list B) :
  Forall2 Q l l' -> (forall a b, In a l -> Q a b -> P b) ->
  length l' = length l /\ Forall P l'.
Proof.
  induction 1 as [|a b l l' Hab _ IH]; intros H; simpl.
  - split; [reflexivity|constructor].
  - destruct IH as [Hl Hf]; [intros a' b' Ha; apply H; now right|].
    split; [now rewrite Hl|]. constructor; [|exact Hf].
    eapply H; [now left|exact Hab].
Qed.

Lemma valid_permutations_table (n D : nat) (permutations : option (list (list nat)))
    (rp : nat -> list nat) :
  valid_permutations n D permutations rp ->
  let table := match permutations with
               | None => map rp (range (n - 1))
               | Some p => p
               end in
  length table = n - 1 /\ Forall (fun q => Permutation q (seq 0 D)) table.
Proof.
  destruct permutations as [p|]; simpl; [auto|].
  intros H. unfold range. rewrite length_map, length_seq. split; [reflexivity|].
  rewrite Forall_map. apply Forall_forall. intros i _. apply H.
Qed.

Lemma flow_init_wf (n D L W : nat) (permutations : option (list (list nat)))
    (dr : nat -> draws) (rp : nat -> list nat) (m : MAFlowModel.t) :
  MAFlowModel.init n D L W permutations dr rp = Ok m ->
  1 <= L -> (forall i, shaped_draws D 0 L W (dr i)) ->
  valid_permutations n D permutations rp ->
  wf_flow m.
Proof.
  unfold MAFlowModel.init. intros E HL Hdr Hp.
  destruct (mapM _ (range n)) as [layers|] eqn:El; [|discriminate].
  cbn [bind] in E. injection E as <-.
  apply mapM_Forall2 in El.
  destruct (@Forall2_length_r _ _ _ (wf_coupling D 0) _ _ El) as [Hlen Hwf].
  { intros i c _ Hc. eapply stack_wf; [exact Hc | exact HL | apply Hdr]. }
  destruct (@valid_permutations_table _ _ _ _ Hp) as [Hpl Hpp].
  unfold wf_flow; simpl. unfold range in Hlen. rewrite length_seq in Hlen.
  repeat split; assumption.
Qed.

Lemma cond_init_wf (n D : nat) (hists : list MAConditionalFlowModel.hist) (L W : nat)
    (permutations : option (list (list nat))) (dr0 dr : nat -> draws)
    (rp : nat -> list nat) (m : MAConditionalFlowModel.t) :
  MAConditionalFlowModel.init n D hists L W permutations dr0 dr rp = Ok m ->
  1 <= L -> (forall i, shaped_draws D (length hists) L W (dr i)) ->
  valid_permutations n D permutations rp ->
  wf_cond m.
Proof.
  intros E HL Hdr Hp.
  destruct (cond_init_fields _ _ _ _ _ _ _ _ _ E)
    as (Hn & HD & HP & Hh & Hst & Hz & Hperm & Hlay).
  apply mapM_Forall2 in Hlay.
  destruct (@Forall2_length_r _ _ _ (wf_coupling D (length hists)) _ _ Hlay)
    as [Hlen Hwf].
  { intros i c _ Hc. eapply stack_wf; [exact Hc | exact HL | apply Hdr]. }
  destruct (@valid_permutations_table _ _ _ _ Hp) as [Hpl Hpp].
  apply mapM_Forall2, Forall2_length in Hst.
  unfold range in Hlen. rewrite length_seq in Hlen.
  unfold wf_cond. rewrite Hn, HD, HP, Hperm, Hz.
  repeat split; try assumption.
Qed.

(** * Shapes of the samples *)

Lemma Forall_zip_with (A B C : Type) (f : A -> B -> C) (PA : A -> Prop) (PB : B -> Prop)
    (PC : C -> Prop) (u : list A) (v : list B) :
  (forall a b, PA a -> PB b -> PC (f a b)) ->
  Forall PA u -> Forall PB v -> Forall PC (zip_with f u v).
Proof.
  intros Hf Hu. revert v.
  induction Hu as [|a u Ha _ IH]; intros v Hv; simpl; [constructor|].
  destruct Hv as [|b v Hb Hv]; constructor; auto.
Qed.

Lemma mapM_length (A B : Type) (f : A -> outcome B) (l : list A) (bs : list B) :
  mapM f l = Ok bs -> length bs = length l.
Proof.
  intros H. apply mapM_Forall2, Forall2_length in H. now symmetry.
Qed.

Module ShapeFacts.

Section Unconditional.
Import MAFlowModel.
Variable m : t.
Hypothesis Hwf : wf_flow m.
Let D := in_shape m.

Lemma invert_loop_length (i n : nat) (z : list R) :
  i < n_coupling m -> length z = D ->
  length (fold_left (invert_feature (nth i (layers_list m) []) D) (range n) z) = D.
Proof.
  intros Hi Hz. induction n as [|n IH]; [exact Hz|].
  rewrite fold_left_range_S.
  apply length_invert_feature; [|exact IH].
  destruct Hwf as (Hl & Hc & _).
  rewrite Forall_forall in Hc. apply Hc, nth_In. now rewrite Hl.
Qed.

Lemma inverse_step_length (i : nat) (z : list R) :
  i < n_coupling m -> length z = D ->
  length (flow_step_x m false z i) = D.
Proof.
  intros Hi Hz. unfold flow_step_x. rewrite FlowFacts.step_false. cbv zeta.
  fold D. destruct (Nat.eqb_spec i 0) as [E|E]; [now apply invert_loop_length|].
  unfold gather. rewrite length_map, length_argsort.
  destruct Hwf as (_ & _ & Hl & Hp).
  rewrite Forall_forall in Hp.
  assert (Hin : In (nth (i - 1) (permutations m) []) (permutations m))
    by (apply nth_In; lia).
  rewrite (Permutation_length (Hp _ Hin)).
  apply length_seq.
Qed.

Lemma inverse_length (z : list R) :
  length z = D -> length (fst (call m z false)) = D.
Proof.
  intros Hz. rewrite FlowFacts.fst_call.
  assert (Hl : Forall (fun i => i < n_coupling m) (rev (range (n_coupling m)))).
  { apply Forall_forall. intros i Hi. apply in_rev, in_seq in Hi. lia. }
  revert z Hz. induction Hl as [|i l Hi _ IH]; intros z Hz; simpl; [exact Hz|].
  apply IH. now apply inverse_step_length.
Qed.

Lemma sample_shape (normal : nat -> list (list R)) (n : nat) :
  length (normal n) = n -> Forall (fun r => length r = D) (normal n) ->
  length (sample m normal n) = n
  /\ Forall (fun r => length r = D) (sample m normal n).
Proof.
  intros Hn Hr. unfold sample, predict. simpl. split.
  - now rewrite length_map.
  - rewrite Forall_map. eapply Forall_impl; [|exact Hr].
    intros r. apply inverse_length.
Qed.
End Unconditional.

Section Conditional.
Import MAConditionalFlowModel.
Variable m : t.
Hypothesis Hwf : wf_cond m.
Let D := in_shape m.
Let P := n_params m.

Lemma cond_invert_loop_length (c : list MADE.t) (n : nat) (z : list R) :
  length z = P + D ->
  length (fold_left (invert_feature m c) (range n) z) = P + D.
Proof.
  intros Hz. induction n as [|n IH]; [exact Hz|].
  rewrite fold_left_range_S, CondFacts.cond_length_invert_feature, IH.
  apply Nat.min_id.
Qed.

Lemma cond_inverse_step_length (i : nat) (z : list R) :
  i < n_coupling m -> length z = P + D ->
  length (cond_step_x m false z i) = P + D.
Proof.
  intros Hi Hz. unfold cond_step_x. rewrite CondFacts.cond_step_false. cbv zeta.
  destruct (Nat.eqb_spec i 0) as [E|E]; [now apply cond_invert_loop_length|].
  rewrite CondFacts.length_permute. fold P. f_equal.
  destruct Hwf as (_ & _ & Hl & Hp & _).
  rewrite Forall_forall in Hp.
  assert (Hin : In (nth (i - 1) (permutations m) []) (permutations m))
    by (apply nth_In; lia).
  rewrite (Permutation_length (Hp _ Hin)).
  apply length_seq.
Qed.

Lemma cond_inverse_length (z : list R) :
  length z = P + D -> length (fst (call m z false)) = P + D.
Proof.
  intros Hz.
  apply (CondFacts.call_invariant m (fun z => length z = P + D)); [|exact Hz].
  intros i z' Hi Hz'. now apply cond_inverse_step_length.
Qed.

Lemma ITS_point_ok (s : hist) (u : R) :
  valid_stored s -> (u <= 1)%R -> exists p, ITS_point s u = Ok p.
Proof.
  intros (values & edges & -> & Hn & He & Hl) Hu.
  unfold ITS_point. simpl fst; simpl snd.
  assert (Hs : searchsorted (make_cdf values) u <= length values).
  { apply searchsorted_le.
    - rewrite length_make_cdf. lia.
    - rewrite make_cdf_top by assumption. exact Hu. }
  assert (Hv : 1 <= length values).
  { destruct He; simpl; lia. }
  apply py_index_in_range.
  destruct edges as [|e edges]; [discriminate|].
  cbn [tl length] in Hl |- *. lia.
Qed.

Lemma join_shape (n : nat) (cols : list (list R)) :
  Forall (fun col => length col = n) cols ->
  forall (acc : list (list R)) (w : nat),
    length acc = n -> Forall (fun r => length r = w) acc ->
    let res := fold_left (fun acc col => zip_with (@app R) acc (map (fun p => [p]) col))
                         cols acc in
    length res = n /\ Forall (fun r => length r = w + length cols) res.
Proof.
  induction 1 as [|col cols Hc _ IH]; intros acc w Hl Hr; simpl.
  - split; [exact Hl|]. eapply Forall_impl; [|exact Hr].
    intros r Hlen. rewrite Hlen. simpl. lia.
  - destruct (IH (zip_with (@app R) acc (map (fun p => [p]) col)) (S w))
      as [Hl' Hr'].
    + rewrite length_zip_with, length_map. lia.
    + eapply Forall_zip_with with (PB := fun r => length r = 1); [|exact Hr|].
      * intros a b Ha Hb. cbv beta in *. rewrite length_app. lia.
      * rewrite Forall_map. apply Forall_forall. reflexivity.
    + split; [exact Hl'|]. eapply Forall_impl; [|exact Hr'].
      intros r Hlen. rewrite Hlen. simpl. lia.
Qed.

Variable rand : nat -> list R.
Variable n : nat.
Hypothesis Hhists : Forall valid_stored (param_hists m).
Hypothesis Hrand :
  forall i, length (rand i) = n /\ Forall (fun u => 0 <= u < 1)%R (rand i).
Hypothesis Hn : 1 <= n.

Lemma ITS_shape :
  exists ps, ITS m rand n = Ok ps
             /\ length ps = n /\ Forall (fun r => length r = P) ps.
Proof.
  unfold ITS. destruct (Nat.eqb_spec n 0) as [E0|_]; [lia|].
  set (ihs := combine (range (length (param_hists m))) (param_hists m)).
  destruct (mapM_ok (fun ih => mapM (ITS_point (snd ih)) (rand (fst ih))) ihs)
    as [cols Ec].
  { intros [i h] Hin. simpl. apply mapM_ok. intros u Hu.
    apply ITS_point_ok.
    - rewrite Forall_forall in Hhists. apply Hhists.
      eapply in_combine_r. exact Hin.
    - destruct (Hrand i) as [_ Hr]. rewrite Forall_forall in Hr.
      specialize (Hr u Hu). lra. }
  rewrite Ec. cbn [bind]. eexists; split; [reflexivity|].
  assert (Hcols : Forall (fun col => length col = n) cols).
  { apply mapM_Forall2 in Ec.
    destruct (@Forall2_length_r _ _ _ (fun col => length col = n) _ _ Ec)
      as [_ H]; [|exact H].
    intros ih col _ E. rewrite (mapM_length _ _ E). apply Hrand. }
  destruct (@join_shape n cols Hcols (repeat [] n) 0) as [Hl Hr].
  - apply repeat_length.
  - apply Forall_forall. intros r Hr. apply repeat_spec in Hr. now subst.
  - split; [exact Hl|]. eapply Forall_impl; [|exact Hr].
    intros r Hlen. rewrite Hlen. simpl.
    rewrite (mapM_length _ _ Ec). unfold ihs, range.
    rewrite length_combine, length_seq, Nat.min_id.
    destruct Hwf as (_ & _ & _ & _ & _ & HP & _). now rewrite <- HP.
Qed.

Variable normal : nat -> list (list R).
Hypothesis Hnormal :
  length (normal n) = n /\ Forall (fun r => length r = D) (normal n).

Lemma cond_sample_shape :
  exists xs, sample m rand normal n None = Ok xs
             /\ length xs = n /\ Forall (fun r => length r = P + D) xs.
Proof.
  unfold sample. destruct ITS_shape as (ps & -> & Hl & Hr). cbn [bind].
  destruct Hnormal as [Hnl Hnr].
  eexists; split; [reflexivity|]. unfold predict. simpl. split.
  - rewrite length_map, length_zip_with. lia.
  - rewrite Forall_map.
    eapply Forall_impl; [intros r; apply cond_inverse_length|].
    eapply Forall_zip_with; [|exact Hr|exact Hnr].
    intros a b Ha Hb. cbv beta in *. rewrite length_app. lia.
Qed.
End Conditional.
End ShapeFacts.

Lemma demo_flow_init :
  MAFlowModel.init 2 3 1 1 (Some [[2; 0; 1]]) (fun _ => demo_draws) (fun _ => [])
  = Ok demo_flow.
Proof. reflexivity. Qed.

Lemma demo_cond_init :
  MAConditionalFlowModel.init 2 2 [hist_A] 1 1 (Some [[1; 0]])
    (fun _ => demo_draws2) (fun _ => demo_cond_draws) (fun _ => [])
  = Ok demo_cond.
Proof. reflexivity. Qed.

Lemma demo_flow_wf : wf_flow demo_flow.
Proof.
  eapply flow_init_wf; [exact demo_flow_init | lia | |].
  - intros _ i. split; repeat constructor.
  - split; [reflexivity|]. constructor; [|constructor].
    transitivity [0; 2; 1]; [apply perm_swap | apply perm_skip, perm_swap].
Qed.

Lemma demo_cond_wf : wf_cond demo_cond.
Proof.
  eapply cond_init_wf; [exact demo_cond_init | lia | |].
  - intros _ i. split; repeat constructor.
  - split; [reflexivity|]. constructor; [|constructor]. apply perm_swap.
Qed.

(** The masks of [demo_made] compose to a matrix that is zero exactly from
    the diagonal of the data block on: the parameter (row 0) reaches every
    output, feature 0 reaches outputs 1 and 2, feature 1 reaches output 2. *)
Example demo_mask_product :
  mask_product demo_made
  = [[1; 4; 12]; [0; 2; 8]; [0; 0; 2]; [0; 0; 0]]%Z.
Proof. vm_compute. reflexivity. Qed.

(** * The claims *)

Unset Implicit Arguments.

(** C1. For every unconditional flow with built masks, weights of the
    declared shapes and a valid permutation table, and every input of width
    [in_shape]: the forward transform ([training = true], log-determinant
    dropped) followed by the inverse transform ([training = false]) returns
    the input, exactly, over the reals. *)
Theorem C1_forward_then_inverse (m : MAFlowModel.t) (x : list R) :
  wf_flow m ->
  length x = MAFlowModel.in_shape m ->
  fst (MAFlowModel.call m (fst (MAFlowModel.call m x true)) false) = x.
Proof.
  intros Hwf Hx. now apply FlowFacts.round_trip.
Qed.

Lemma C1_forward_then_inverse_witness :
  wf_flow demo_flow
  /\ length [1; 2; 3]%R = MAFlowModel.in_shape demo_flow
  /\ fst (MAFlowModel.call demo_flow
            (fst (MAFlowModel.call demo_flow [1; 2; 3]%R true)) false)
     = [1; 2; 3]%R.
Proof.
  split; [exact demo_flow_wf|]. split; [reflexivity|].
  apply (C1_forward_then_inverse demo_flow [1; 2; 3]%R demo_flow_wf). reflexivity.
Defined.

(** C2. For every MADE layer that [__init__] and [build] construct (at
    least two inputs, at least one hidden layer, any width, any number of
    parameters, any order labels): in the product of the masks of all its
    affine layers the entry from input position [i] to output [d] is zero
    whenever [i] is at or after data position [d], that is [d + P <= i]. *)
Theorem C2_mask_triangularity (D L W : nat) (act : string) (rn : list (list Z))
    (P : nat) (silent : bool) (m0 m : MADE.t) (msgs : list message) (w : nat)
    (rng : list (list Z)) (ws : list (list (list R))) (bs : list (list R)) :
  MADE.init D L W act rn P silent = Ok (m0, msgs) ->
  MADE.build m0 w rng ws bs = Ok m ->
  1 <= L ->
  forall i d, d + P <= i -> Zentry (mask_product m) i d = 0%Z.
Proof.
  intros Ei Eb HL i d Hid.
  destruct (init_fields _ _ _ _ _ _ _ Ei) as (_ & HL0 & _ & HP & _).
  destruct (build_fields _ _ _ _ _ Eb) as (_ & HL' & _ & HP' & _).
  apply mask_product_upper.
  - eapply build_built; exact Eb.
  - lia.
  - rewrite HP', HP. exact Hid.
Qed.

Lemma C2_mask_triangularity_witness :
  MADE.init 3 2 3 "tanh" [[1; 2; 1]; [2; 1; 2]]%Z 1 true = Ok (demo_made0, [])
  /\ MADE.build demo_made0 4 [] [] [] = Ok demo_made
  /\ 1 <= 2
  /\ 1 + 1 <= 2
  /\ Zentry (mask_product demo_made) 2 1 = 0%Z.
Proof.
  split; [reflexivity|]. split; [reflexivity|]. split; [lia|]. split; [lia|].
  apply (C2_mask_triangularity 3 2 3 "tanh" [[1; 2; 1]; [2; 1; 2]]%Z 1 true
           demo_made0 demo_made [] 4 [] [] []);
    [reflexivity | reflexivity | lia | lia].
Defined.

(** C3 (as stated, refuted). It is not the case that every explicitly
    supplied permutation table whose shape is not [(n_coupling - 1, in_shape)]
    makes the constructor raise: the table [[0]] for two coupling layers over
    three features is accepted. *)
Lemma C3_wrong_shape_accepted :
  ~ (forall (n D L W : nat) (p : list (list nat)) (dr : nat -> draws)
            (rp : nat -> list nat),
        ~ permutations_shape p n D ->
        exists e, MAFlowModel.init n D L W (Some p) dr rp = Raise e).
Proof.
  intros H.
  destruct (H 2 3 1 1 [[0]] (fun _ => demo_draws) (fun _ => [])) as [e He].
  - intros [_ Hf]. inversion Hf as [|q l Hq _]; subst. discriminate Hq.
  - discriminate He.
Qed.

(** C3 (amended). The constructor does not look at the shape of an
    explicitly supplied permutation table: with at least two features and at
    least one hidden layer (what the MADE layers need to be built) it
    succeeds for every table and stores the table as given. *)
Theorem C3_permutations_stored_unchecked (n D L W : nat) (p : list (list nat))
    (dr : nat -> draws) (rp : nat -> list nat) :
  2 <= D -> 1 <= L ->
  exists m, MAFlowModel.init n D L W (Some p) dr rp = Ok m
            /\ MAFlowModel.permutations m = p.
Proof.
  intros HD HL. exact (@flow_init_ok n D L W (Some p) dr rp HD HL).
Qed.

Lemma C3_permutations_stored_unchecked_witness :
  2 <= 3 /\ 1 <= 1
  /\ ~ permutations_shape [[0]] 2 3
  /\ exists m, MAFlowModel.init 2 3 1 1 (Some [[0]]) (fun _ => demo_draws) (fun _ => [])
               = Ok m
               /\ MAFlowModel.permutations m = [[0]].
Proof.
  split; [lia|]. split; [lia|]. split.
  - intros [_ Hf]. inversion Hf as [|q l Hq _]; subst. discriminate Hq.
  - apply (C3_permutations_stored_unchecked 2 3 1 1 [[0]]); lia.
Defined.

(** C9. [MADE.__init__] raises when there are fewer than two inputs and,
    for labels that numpy can convert to an array, when the output
    activation is none of relu, tanh, sigmoid and linear; a supplied
    [random_nums] with rows of one length but of another shape than
    [(num_layers, num_nodes)] is not fatal: [__init__] succeeds, the warning
    is printed and the supplied labels are dropped; with at least one hidden
    layer [build] then succeeds and uses the labels it generates itself. *)
Theorem C9_made_construction (D L W : nat) (act : string) (rn : list (list Z))
    (P : nat) (silent : bool) :
  (D < 2 -> MADE.init D L W act rn P silent = Raise TooFewInputs)
  /\ (2 <= D -> rectangular rn -> ~ In act MADE.supported ->
      MADE.init D L W act rn P silent = Raise BadActivation)
  /\ (2 <= D -> rectangular rn -> In act MADE.supported ->
      rn <> [] -> MADE.np_shape rn <> [L; W] ->
      exists m0 msgs,
        MADE.init D L W act rn P silent = Ok (m0, msgs)
        /\ In WarnNumsMismatch msgs
        /\ MADE.nums m0 = []
        /\ (1 <= L ->
            forall rng ws bs,
              exists m, MADE.build m0 (D + P) rng ws bs = Ok m
                        /\ MADE.nums m = offset_nums L P (internal_nums D L W rng))).
Proof.
  split; [|split].
  - intros HD. unfold MADE.init. destruct (Nat.ltb_spec D 2); [reflexivity|lia].
  - intros HD _ Hact. unfold MADE.init. destruct (Nat.ltb_spec D 2); [lia|].
    destruct (existsb (String.eqb act) MADE.supported) eqn:E; [|reflexivity].
    apply supported_spec in E. contradiction.
  - intros HD _ Hact Hrn Hshape. unfold MADE.init.
    destruct (Nat.ltb_spec D 2); [lia|].
    apply supported_spec in Hact. rewrite Hact. cbn [negb].
    rewrite (shape_eqb_false Hshape).
    destruct rn as [|r rn]; [congruence|]. cbn [MADE.is_empty negb andb app].
    eexists; eexists. split; [reflexivity|]. split; [now left|]. split; [reflexivity|].
    intros HL rng ws bs. unfold MADE.build.
    cbn [MADE.in_shape MADE.n_params MADE.num_layers MADE.num_nodes].
    rewrite Nat.eqb_refl. cbn [negb].
    destruct (Nat.eqb_spec L 0); [lia|]. cbn [andb].
    eexists; split; [reflexivity|].
    cbn [MADE.nums]. unfold MADE.build_nums, offset_nums, internal_nums.
    cbn [MADE.nums MADE.in_shape MADE.num_layers MADE.num_nodes MADE.n_params length
         Nat.eqb].
    destruct (Nat.ltb_spec 2 D); [reflexivity|].
    destruct (Nat.eqb_spec D 2); [reflexivity|lia].
Qed.

Lemma C9_made_construction_witness :
  MADE.init 1 1 4 "relu" [] 0 true = Raise TooFewInputs
  /\ MADE.init 3 1 4 "softmax" [] 0 true = Raise BadActivation
  /\ rectangular [[1; 2]]%Z
  /\ exists m0 msgs,
       MADE.init 3 1 4 "relu" [[1; 2]]%Z 0 true = Ok (m0, msgs)
       /\ In WarnNumsMismatch msgs
       /\ MADE.nums m0 = []
       /\ (1 <= 1 ->
           forall rng ws bs,
             exists m, MADE.build m0 (3 + 0) rng ws bs = Ok m
                       /\ MADE.nums m = offset_nums 1 0 (internal_nums 3 1 4 rng)).
Proof.
  assert (Hr : rectangular [[1; 2]]%Z) by (repeat constructor).
  split; [|split; [|split; [exact Hr|]]].
  - apply (C9_made_construction 1 1 4 "relu" [] 0 true). lia.
  - apply (C9_made_construction 3 1 4 "softmax" [] 0 true); [lia|constructor|].
    simpl. intros [H|[H|[H|[H|[]]]]]; discriminate H.
  - apply (C9_made_construction 3 1 4 "relu" [[1; 2]]%Z 0 true);
      [lia | exact Hr | simpl; auto | discriminate | discriminate].
Defined.

(** C5. A conditional model constructed with the histogram of values [1, 1]
    and bin edges [0, 1, 2] stores for it the padded distribution
    [0, 1/2, 1, 1] and the upper edges [1, 2]; for the uniform draw 0.6,
    [ITS] finds insertion position 2, hence bin index 1, and returns the
    upper edge at index 1, the upper edge 2 of the second bin. *)
Theorem C5_histogram_scenario (n D : nat) (hists : list MAConditionalFlowModel.hist)
    (L W : nat) (perms : option (list (list nat))) (dr0 dr : nat -> draws)
    (rp : nat -> list nat) (m : MAConditionalFlowModel.t) (i : nat) :
  MAConditionalFlowModel.init n D hists L W perms dr0 dr rp = Ok m ->
  nth_error hists i = Some hist_A ->
  exists s,
    nth_error (MAConditionalFlowModel.param_hists m) i = Some s
    /\ fst s = [0; 1 / 2; 1; 1]%R
    /\ snd s = [1; 2]%R
    /\ (Z.of_nat (searchsorted (fst s) (6 / 10)%R) - 1 = 1)%Z
    /\ MAConditionalFlowModel.ITS_point s (6 / 10)%R = Ok (nth 1 (snd s) 0%R)
    /\ nth 1 (snd s) 0%R = 2%R.
Proof.
  intros E Hi.
  destruct (cond_init_fields _ _ _ _ _ _ _ _ _ E) as (_ & _ & _ & _ & Hst & _).
  destruct (@stored_nth _ _ Hst _ _ Hi) as [Hs _].
  assert (Hcdf : MAConditionalFlowModel.make_cdf (fst hist_A) = [0; 1 / 2; 1; 1]%R).
  { unfold MAConditionalFlowModel.make_cdf, hist_A, cumsum. simpl.
    repeat (f_equal; try lra). }
  assert (Hsearch : searchsorted [0; 1 / 2; 1; 1]%R (6 / 10)%R = 2).
  { simpl. repeat (destruct (Rlt_dec _ _); try lra). reflexivity. }
  eexists. split; [exact Hs|]. cbn [fst snd]. rewrite Hcdf.
  split; [reflexivity|]. split; [reflexivity|]. split; [now rewrite Hsearch|].
  split; [|reflexivity].
  unfold MAConditionalFlowModel.ITS_point. cbn [fst snd]. rewrite Hsearch.
  reflexivity.
Qed.

Lemma C5_histogram_scenario_witness :
  MAConditionalFlowModel.init 2 2 [hist_A] 1 1 (Some [[1; 0]])
    (fun _ => demo_draws2) (fun _ => demo_cond_draws) (fun _ => []) = Ok demo_cond
  /\ nth_error [hist_A] 0 = Some hist_A
  /\ exists s,
       nth_error (MAConditionalFlowModel.param_hists demo_cond) 0 = Some s
       /\ fst s = [0; 1 / 2; 1; 1]%R
       /\ snd s = [1; 2]%R
       /\ (Z.of_nat (searchsorted (fst s) (6 / 10)%R) - 1 = 1)%Z
       /\ MAConditionalFlowModel.ITS_point s (6 / 10)%R = Ok (nth 1 (snd s) 0%R)
       /\ nth 1 (snd s) 0%R = 2%R.
Proof.
  split; [reflexivity|]. split; [reflexivity|].
  apply (C5_histogram_scenario 2 2 [hist_A] 1 1 (Some [[1; 0]])
           (fun _ => demo_draws2) (fun _ => demo_cond_draws) (fun _ => [])
           demo_cond 0); reflexivity.
Defined.

(** C7. For every conditional model constructed from histograms whose
    values are non-negative with at least one positive (the lengths are
    consistent, or the constructor raises), every stored distribution is
    non-decreasing, starts with 0 and ends with 1; there is one per
    histogram. *)
Theorem C7_cdf_monotone (n D : nat) (hists : list MAConditionalFlowModel.hist)
    (L W : nat) (perms : option (list (list nat))) (dr0 dr : nat -> draws)
    (rp : nat -> list nat) (m : MAConditionalFlowModel.t) :
  MAConditionalFlowModel.init n D hists L W perms dr0 dr rp = Ok m ->
  Forall (fun h => Forall (fun a => 0 <= a)%R (fst h)
                   /\ Exists (fun a => 0 < a)%R (fst h)) hists ->
  length (MAConditionalFlowModel.param_hists m) = length hists
  /\ Forall (fun s => Sorted Rle (fst s)
                      /\ hd 0%R (fst s) = 0%R
                      /\ last (fst s) 0%R = 1%R)
            (MAConditionalFlowModel.param_hists m).
Proof.
  intros E Hv.
  destruct (cond_init_fields _ _ _ _ _ _ _ _ _ E) as (_ & _ & _ & _ & Hst & _).
  apply stored_all in Hst. clear E.
  revert Hst. generalize (MAConditionalFlowModel.param_hists m). intros stored Hst.
  split; [symmetry; eapply Forall2_length; exact Hst|].
  induction Hst as [|h s hs ss [-> _] _ IH]; [constructor|].
  inversion Hv as [|? ? [Hn Hp] Hv']; subst.
  constructor; [|now apply IH]. cbn [fst].
  split; [now apply make_cdf_sorted|].
  split; [apply make_cdf_head | now apply make_cdf_last].
Qed.

Lemma C7_cdf_monotone_witness :
  MAConditionalFlowModel.init 2 2 [hist_A] 1 1 (Some [[1; 0]])
    (fun _ => demo_draws2) (fun _ => demo_cond_draws) (fun _ => []) = Ok demo_cond
  /\ Forall (fun h => Forall (fun a => 0 <= a)%R (fst h)
                      /\ Exists (fun a => 0 < a)%R (fst h)) [hist_A]
  /\ length (MAConditionalFlowModel.param_hists demo_cond) = length [hist_A]
  /\ Forall (fun s => Sorted Rle (fst s)
                      /\ hd 0%R (fst s) = 0%R
                      /\ last (fst s) 0%R = 1%R)
            (MAConditionalFlowModel.param_hists demo_cond).
Proof.
  assert (Hv : Forall (fun h => Forall (fun a => 0 <= a)%R (fst h)
                                /\ Exists (fun a => 0 < a)%R (fst h)) [hist_A]).
  { constructor; [|constructor]. split.
    - repeat constructor; simpl; lra.
    - left. simpl. lra. }
  split; [reflexivity|]. split; [exact Hv|].
  apply (C7_cdf_monotone 2 2 [hist_A] 1 1 (Some [[1; 0]])
           (fun _ => demo_draws2) (fun _ => demo_cond_draws) (fun _ => [])
           demo_cond); [reflexivity | exact Hv].
Defined.

Lemma py_index_nil (A : Type) (i : Z) : py_index (@nil A) i = Raise IndexError.
Proof.
  unfold py_index. destruct (0 <=? i)%Z.
  - destruct (Z.to_nat i); reflexivity.
  - destruct (_ <=? i)%Z; [|reflexivity].
    destruct (Z.to_nat _); reflexivity.
Qed.

(** Without bins there is no upper edge to return, whatever the draw is. *)
Lemma ITS_point_no_bins (s : MAConditionalFlowModel.hist) (u : R) :
  snd s = [] -> MAConditionalFlowModel.ITS_point s u = Raise IndexError.
Proof.
  intros E. unfold MAConditionalFlowModel.ITS_point. rewrite E. apply py_index_nil.
Qed.

Lemma demo_cond_empty_init :
  MAConditionalFlowModel.init 2 2 [hist_empty] 1 1 (Some [[1; 0]])
    (fun _ => demo_draws2) (fun _ => demo_cond_draws) (fun _ => [])
  = Ok demo_cond_empty.
Proof. reflexivity. Qed.

(** C10 (as stated, refuted). It is not the case that for every histogram
    of a constructed model, whatever its contents, the draw 0 makes [ITS]
    return the last upper edge: a histogram without bins (no values, one
    edge) passes the check of the constructor, its list of upper edges is
    empty, and index -1 into it raises. *)
Lemma C10_no_bins_no_edge :
  ~ (forall (n D : nat) (hists : list MAConditionalFlowModel.hist) (L W : nat)
            (perms : option (list (list nat))) (dr0 dr : nat -> draws)
            (rp : nat -> list nat) (m : MAConditionalFlowModel.t)
            (i : nat) (h : MAConditionalFlowModel.hist),
        MAConditionalFlowModel.init n D hists L W perms dr0 dr rp = Ok m ->
        nth_error hists i = Some h ->
        exists s,
          nth_error (MAConditionalFlowModel.param_hists m) i = Some s
          /\ (Z.of_nat (searchsorted (fst s) 0%R) - 1 = -1)%Z
          /\ MAConditionalFlowModel.ITS_point s 0%R = Ok (last (snd h) 0%R)).
Proof.
  intros H.
  destruct (H 2 2 [hist_empty] 1 1 (Some [[1; 0]]) (fun _ => demo_draws2)
              (fun _ => demo_cond_draws) (fun _ => []) demo_cond_empty 0 hist_empty
              demo_cond_empty_init eq_refl) as (s & Hs & _ & HI).
  change (MAConditionalFlowModel.param_hists demo_cond_empty)
    with [(MAConditionalFlowModel.make_cdf (fst hist_empty), tl (snd hist_empty))] in Hs.
  injection Hs as <-.
  rewrite ITS_point_no_bins in HI by reflexivity. discriminate HI.
Qed.

(** C10 (amended). For every constructed conditional model and every
    histogram with at least one bin and non-negative values, one of them
    positive: the
    stored distribution is sorted and starts with 0, so for the uniform draw
    0 the insertion position is 0, the bin index is -1, and [ITS] returns,
    by negative indexing, the upper edge of the last bin. *)
Theorem C10_zero_draw_selects_last_edge (n D : nat)
    (hists : list MAConditionalFlowModel.hist) (L W : nat)
    (perms : option (list (list nat))) (dr0 dr : nat -> draws)
    (rp : nat -> list nat) (m : MAConditionalFlowModel.t)
    (i : nat) (h : MAConditionalFlowModel.hist) :
  MAConditionalFlowModel.init n D hists L W perms dr0 dr rp = Ok m ->
  nth_error hists i = Some h ->
  Forall (fun a => 0 <= a)%R (fst h) ->
  Exists (fun a => 0 < a)%R (fst h) ->
  exists s,
    nth_error (MAConditionalFlowModel.param_hists m) i = Some s
    /\ Sorted Rle (fst s)
    /\ (Z.of_nat (searchsorted (fst s) 0%R) - 1 = -1)%Z
    /\ MAConditionalFlowModel.ITS_point s 0%R = Ok (last (snd h) 0%R).
Proof.
  intros E Hi Hn Hp.
  destruct (cond_init_fields _ _ _ _ _ _ _ _ _ E) as (_ & _ & _ & _ & Hst & _).
  destruct (@stored_nth _ _ Hst _ _ Hi) as [Hs Hl].
  assert (Hsearch : searchsorted (MAConditionalFlowModel.make_cdf (fst h)) 0%R = 0).
  { pose proof (make_cdf_head (fst h)) as Hh.
    destruct (MAConditionalFlowModel.make_cdf (fst h)) as [|c cdf]; [reflexivity|].
    simpl in Hh |- *. subst c. destruct (Rlt_dec 0 0); [lra|reflexivity]. }
  eexists. split; [exact Hs|]. cbn [fst snd].
  split; [now apply make_cdf_sorted|]. split; [now rewrite Hsearch|].
  unfold MAConditionalFlowModel.ITS_point. cbn [fst snd]. rewrite Hsearch.
  change (Z.of_nat 0 - 1)%Z with (-1)%Z.
  destruct (snd h) as [|e0 [|e1 edges]] eqn:Ee.
  - discriminate Hl.
  - simpl in Hl. destruct Hp; discriminate Hl.
  - rewrite py_index_minus_one with (d := 0%R) by discriminate. reflexivity.
Qed.

Lemma C10_zero_draw_selects_last_edge_witness :
  MAConditionalFlowModel.init 2 2 [hist_A] 1 1 (Some [[1; 0]])
    (fun _ => demo_draws2) (fun _ => demo_cond_draws) (fun _ => []) = Ok demo_cond
  /\ nth_error [hist_A] 0 = Some hist_A
  /\ Forall (fun a => 0 <= a)%R (fst hist_A)
  /\ Exists (fun a => 0 < a)%R (fst hist_A)
  /\ exists s,
       nth_error (MAConditionalFlowModel.param_hists demo_cond) 0 = Some s
       /\ Sorted Rle (fst s)
       /\ (Z.of_nat (searchsorted (fst s) 0%R) - 1 = -1)%Z
       /\ MAConditionalFlowModel.ITS_point s 0%R = Ok (last (snd hist_A) 0%R).
Proof.
  assert (Hn : Forall (fun a => 0 <= a)%R (fst hist_A))
    by (repeat constructor; simpl; lra).
  assert (Hp : Exists (fun a => 0 < a)%R (fst hist_A))
    by (left; simpl; lra).
  split; [reflexivity|]. split; [reflexivity|]. split; [exact Hn|]. split; [exact Hp|].
  apply (C10_zero_draw_selects_last_edge 2 2 [hist_A] 1 1 (Some [[1; 0]])
           (fun _ => demo_draws2) (fun _ => demo_cond_draws) (fun _ => [])
           demo_cond 0 hist_A); [reflexivity | reflexivity | exact Hn | exact Hp].
Defined.

(** ** Coupling stacks that output zero scale and shift *)

Lemma tanh_zero : tanh 0 = 0%R.
Proof. unfold tanh, sinh, cosh. rewrite Ropp_0, exp_0. field. Qed.

Lemma forward_affine_zero (c : list MADE.t) (a b c0 : R) :
  coupling_call c [a; b; c0] = zeros3 ->
  forward_affine c [a; b; c0] = [a; b; c0].
Proof.
  intros H. unfold forward_affine. rewrite H.
  unfold zeros3, vadd, vmul, vexp. simpl.
  rewrite exp_0. repeat f_equal; ring.
Qed.

Lemma invert_feature_zero (c : list MADE.t) (a b c0 : R) (k : nat) :
  coupling_call c [a; b; c0] = zeros3 ->
  MAFlowModel.invert_feature c 3 [a; b; c0] k = [a; b; c0].
Proof.
  intros H. unfold MAFlowModel.invert_feature. rewrite H.
  unfold zeros3, MAFlowModel.one_hot, range, vadd, vmul, vsub, vexp, vneg.
  destruct k as [|[|[|k]]]; simpl; rewrite Ropp_0, exp_0; repeat f_equal; ring.
Qed.

Lemma invert_loop_zero (c : list MADE.t) (a b c0 : R) :
  (forall z, length z = 3 -> coupling_call c z = zeros3) ->
  fold_left (MAFlowModel.invert_feature c 3) (range 3) [a; b; c0] = [a; b; c0].
Proof.
  intros H. unfold range. cbn [seq fold_left].
  now rewrite !invert_feature_zero by (apply H; reflexivity).
Qed.

Lemma step_true_log_det (m : MAFlowModel.t) (x : list R) (ld : R) (i : nat) :
  snd (MAFlowModel.step m true (x, ld) i)
  = (ld + Rsum (fst (coupling_call (nth i (MAFlowModel.layers_list m) []) x)))%R.
Proof.
  unfold MAFlowModel.step.
  destruct (coupling_call (nth i (MAFlowModel.layers_list m) []) x) as [s t]. simpl.
  destruct (i =? MAFlowModel.n_coupling m - 1); reflexivity.
Qed.

(** C8. For a flow over three features with two coupling layers, the
    permutation [2, 0, 1] between them, and coupling stacks that output zero
    scale and zero shift on every input: the forward pass maps [x] to
    [x2, x0, x1] with log-determinant 0, and the inverse pass maps that back
    to [x]. *)
Theorem C8_pure_permutation (m : MAFlowModel.t) :
  MAFlowModel.n_coupling m = 2 ->
  MAFlowModel.in_shape m = 3 ->
  MAFlowModel.permutations m = [[2; 0; 1]] ->
  (forall i z, i < 2 -> length z = 3 ->
     coupling_call (nth i (MAFlowModel.layers_list m) []) z = zeros3) ->
  forall a b c : R,
    MAFlowModel.call m [a; b; c] true = ([c; a; b], 0%R)
    /\ fst (MAFlowModel.call m (fst (MAFlowModel.call m [a; b; c] true)) false)
       = [a; b; c].
Proof.
  intros Hn HD Hp Hz a b c.
  assert (Hf : MAFlowModel.call m [a; b; c] true = ([c; a; b], 0%R)).
  { unfold MAFlowModel.call. rewrite Hn. change (range 2) with [0; 1]. cbn [fold_left].
    rewrite (surjective_pairing (MAFlowModel.step m true ([a; b; c], 0%R) 0)).
    rewrite FlowFacts.step_true, step_true_log_det, Hn, Hp. cbv zeta.
    rewrite forward_affine_zero, (Hz 0) by first [apply Hz; simpl; lia | simpl; lia].
    cbn [Nat.eqb Nat.sub nth gather map fst].
    rewrite (surjective_pairing (MAFlowModel.step m true ([c; a; b], _) 1)).
    rewrite FlowFacts.step_true, step_true_log_det, Hn. cbv zeta.
    rewrite forward_affine_zero, (Hz 1) by first [apply Hz; simpl; lia | simpl; lia].
    cbn [Nat.eqb Nat.sub fst]. f_equal.
    unfold zeros3, Rsum, reduce_sum. simpl. ring. }
  split; [exact Hf|].
  rewrite Hf. cbn [fst]. rewrite FlowFacts.fst_call, Hn.
  change (rev (range 2)) with [1; 0]. cbn [fold_left]. unfold flow_step_x.
  assert (H1 : fst (MAFlowModel.step m false ([c; a; b], 0%R) 1) = [a; b; c]).
  { rewrite FlowFacts.step_false, HD, Hp. cbv zeta.
    rewrite invert_loop_zero by (intros z Hl; apply Hz; [lia|exact Hl]).
    reflexivity. }
  rewrite H1, FlowFacts.step_false, HD. cbv zeta.
  rewrite invert_loop_zero by (intros z Hl; apply Hz; [lia|exact Hl]).
  reflexivity.
Qed.

Lemma demo_flow_zero (i : nat) (z : list R) :
  i < 2 -> length z = 3 ->
  coupling_call (nth i (MAFlowModel.layers_list demo_flow) []) z = zeros3.
Proof.
  intros Hi Hz.
  destruct z as [|a [|b [|c [|d z]]]]; try discriminate Hz.
  destruct i as [|[|i]]; [| |lia];
    cbv -[IZR Rplus Rmult Rmax tanh exp Ropp Rminus Rdiv Rinv];
    repeat f_equal;
    match goal with
    | |- tanh ?e = _ => replace e with 0%R by ring; apply tanh_zero
    | |- _ => ring
    end.
Qed.

Lemma C8_pure_permutation_witness :
  MAFlowModel.n_coupling demo_flow = 2
  /\ MAFlowModel.in_shape demo_flow = 3
  /\ MAFlowModel.permutations demo_flow = [[2; 0; 1]]
  /\ MAFlowModel.call demo_flow [1; 2; 3]%R true = ([3; 1; 2]%R, 0%R)
  /\ fst (MAFlowModel.call demo_flow
            (fst (MAFlowModel.call demo_flow [1; 2; 3]%R true)) false)
     = [1; 2; 3]%R.
Proof.
  split; [reflexivity|]. split; [reflexivity|]. split; [reflexivity|].
  apply (C8_pure_permutation demo_flow); try reflexivity.
  exact demo_flow_zero.
Defined.

Lemma cond_invert_feature_other (m : MAConditionalFlowModel.t) (c : list MADE.t)
    (z : list R) (k j : nat) :
  length z = MAConditionalFlowModel.n_params m + MAConditionalFlowModel.in_shape m ->
  j < MAConditionalFlowModel.n_params m + MAConditionalFlowModel.in_shape m ->
  j <> k + MAConditionalFlowModel.n_params m ->
  nth j (MAConditionalFlowModel.invert_feature m c z k) 0%R = nth j z 0%R.
Proof.
  intros Hz Hj Hjk. destruct (CondFacts.length_widened m c z) as [Hs Ht].
  unfold MAConditionalFlowModel.invert_feature.
  destruct (MAConditionalFlowModel.widened m c z) as [s t]; simpl in Hs, Ht.
  unfold vadd, vmul, vsub, vexp, vneg.
  rewrite nth_zip_with with (da := 0%R) (db := 0%R) by lengths.
  rewrite nth_zip_with with (da := 0%R) (db := 0%R) by lengths.
  rewrite nth_zip_with with (da := 0%R) (db := 0%R) by lengths.
  rewrite nth_map_in with (d' := 0%R) by lengths.
  unfold range. rewrite nth_map_seq by lia. simpl (0 + j).
  destruct (Nat.eqb_spec j (k + MAConditionalFlowModel.n_params m)); [lia|]. ring.
Qed.

(** C6. For every conditional model with [P] parameters and every input of
    width [P + D], the first [P] components of the output of [call] are the
    first [P] components of the input, in the forward and in the inverse
    direction; the widened scale and shift are zero on the parameter slots,
    and round [k] of the inverse loop changes no feature other than
    [k + P]. *)
Theorem C6_parameters_pass_through (m : MAConditionalFlowModel.t) (x : list R)
    (training : bool) :
  wf_cond m ->
  length x = MAConditionalFlowModel.n_params m + MAConditionalFlowModel.in_shape m ->
  firstn (MAConditionalFlowModel.n_params m)
         (fst (MAConditionalFlowModel.call m x training))
  = firstn (MAConditionalFlowModel.n_params m) x
  /\ (forall c z j,
        j < MAConditionalFlowModel.n_params m ->
        nth j (fst (MAConditionalFlowModel.widened m c z)) 0%R = 0%R
        /\ nth j (snd (MAConditionalFlowModel.widened m c z)) 0%R = 0%R)
  /\ (forall c z k j,
        length z
        = MAConditionalFlowModel.n_params m + MAConditionalFlowModel.in_shape m ->
        j < MAConditionalFlowModel.n_params m + MAConditionalFlowModel.in_shape m ->
        j <> k + MAConditionalFlowModel.n_params m ->
        nth j (MAConditionalFlowModel.invert_feature m c z k) 0%R = nth j z 0%R).
Proof.
  intros Hwf Hx.
  assert (Hlzm : MAConditionalFlowModel.left_zero_matrix m
                 = MAConditionalFlowModel.make_left_zero_matrix
                     (MAConditionalFlowModel.in_shape m)
                     (MAConditionalFlowModel.n_params m)).
  { destruct Hwf as (_ & _ & _ & _ & _ & _ & H). exact H. }
  split; [|split].
  - apply CondFacts.call_keeps; [exact Hlzm | lia].
  - intros c z j Hj. now apply CondFacts.widened_zero.
  - intros c z k j. apply cond_invert_feature_other.
Qed.

Lemma C6_parameters_pass_through_witness :
  wf_cond demo_cond
  /\ length [5; 1; 2]%R
     = MAConditionalFlowModel.n_params demo_cond
       + MAConditionalFlowModel.in_shape demo_cond
  /\ firstn 1 (fst (MAConditionalFlowModel.call demo_cond [5; 1; 2]%R true)) = [5]%R
  /\ firstn 1 (fst (MAConditionalFlowModel.call demo_cond [5; 1; 2]%R false)) = [5]%R.
Proof.
  split; [exact demo_cond_wf|]. split; [reflexivity|]. split.
  - apply (C6_parameters_pass_through demo_cond [5; 1; 2]%R true demo_cond_wf).
    reflexivity.
  - apply (C6_parameters_pass_through demo_cond [5; 1; 2]%R false demo_cond_wf).
    reflexivity.
Defined.

(** ** Shapes of the samples *)

Lemma demo_cond_hists :
  Forall valid_stored (MAConditionalFlowModel.param_hists demo_cond).
Proof.
  change (MAConditionalFlowModel.param_hists demo_cond)
    with [(MAConditionalFlowModel.make_cdf (fst hist_A), tl (snd hist_A))].
  constructor; [|constructor].
  exists (fst hist_A), (snd hist_A). split; [reflexivity|]. split.
  - repeat constructor; simpl; lra.
  - split; [left; simpl; lra | reflexivity].
Qed.

Lemma demo_rand_ok (i : nat) :
  length (demo_rand i) = 1 /\ Forall (fun u => 0 <= u < 1)%R (demo_rand i).
Proof. split; [reflexivity|]. repeat constructor; lra. Qed.

Lemma demo_normal_ok (n : nat) :
  length (demo_normal n) = n /\ Forall (fun r => length r = 2) (demo_normal n).
Proof.
  unfold demo_normal. split; [apply repeat_length|].
  apply Forall_forall. intros r Hr. apply repeat_spec in Hr. now subst.
Qed.

(** C4 (as stated, refuted). It is not the case that the points a
    conditional model samples have [in_shape] components, not even when at
    least one point is asked for: the model with two features and one
    parameter returns points of three components. *)
Lemma C4_conditional_sample_width :
  ~ (forall (m : MAConditionalFlowModel.t) (rand : nat -> list R)
            (normal : nat -> list (list R)) (n : nat),
        1 <= n ->
        wf_cond m ->
        Forall valid_stored (MAConditionalFlowModel.param_hists m) ->
        (forall i, length (rand i) = n /\ Forall (fun u => 0 <= u < 1)%R (rand i)) ->
        length (normal n) = n
        /\ Forall (fun r => length r = MAConditionalFlowModel.in_shape m) (normal n) ->
        exists xs,
          MAConditionalFlowModel.sample m rand normal n None = Ok xs
          /\ length xs = n
          /\ Forall (fun r => length r = MAConditionalFlowModel.in_shape m) xs).
Proof.
  intros H.
  destruct (H demo_cond demo_rand demo_normal 1 (le_n 1) demo_cond_wf demo_cond_hists
              demo_rand_ok (demo_normal_ok 1)) as (xs & E & Hl & Hr).
  destruct (ShapeFacts.cond_sample_shape demo_cond_wf demo_rand demo_cond_hists
              demo_rand_ok (le_n 1) demo_normal (demo_normal_ok 1))
    as (xs' & E' & _ & Hr').
  rewrite E in E'. injection E' as <-.
  destruct xs as [|r xs]; [discriminate Hl|].
  apply Forall_inv in Hr, Hr'.
  change (MAConditionalFlowModel.in_shape demo_cond) with 2 in Hr, Hr'.
  change (MAConditionalFlowModel.n_params demo_cond) with 1 in Hr'.
  lia.
Qed.

(** C4 (amended). For every [n >= 1], [sample(n)] of an unconditional
    model returns [n] points of [in_shape] components, and [sample(n)] of a
    conditional model returns [n] points of [n_params + in_shape] components
    (the inverse pass consumes and returns the parameters with the data).
    For [n = 0] neither model returns: keras rejects the empty batch, and
    [ITS] cannot shape its empty start array. *)
Theorem C4_sample_shapes :
  (forall (m : MAFlowModel.t) (normal : nat -> list (list R)) (n : nat),
      1 <= n ->
      wf_flow m ->
      length (normal n) = n ->
      Forall (fun r => length r = MAFlowModel.in_shape m) (normal n) ->
      length (MAFlowModel.sample m normal n) = n
      /\ Forall (fun r => length r = MAFlowModel.in_shape m)
                (MAFlowModel.sample m normal n))
  /\ (forall (m : MAConditionalFlowModel.t) (rand : nat -> list R)
             (normal : nat -> list (list R)) (n : nat),
        1 <= n ->
        wf_cond m ->
        Forall valid_stored (MAConditionalFlowModel.param_hists m) ->
        (forall i, length (rand i) = n /\ Forall (fun u => 0 <= u < 1)%R (rand i)) ->
        length (normal n) = n
        /\ Forall (fun r => length r = MAConditionalFlowModel.in_shape m) (normal n) ->
        exists xs,
          MAConditionalFlowModel.sample m rand normal n None = Ok xs
          /\ length xs = n
          /\ Forall (fun r => length r = MAConditionalFlowModel.n_params m
                                         + MAConditionalFlowModel.in_shape m) xs).
Proof.
  split.
  - intros m normal n _ Hwf Hn Hr. now apply ShapeFacts.sample_shape.
  - intros m rand normal n Hn Hwf Hh Hrand Hnormal.
    now apply ShapeFacts.cond_sample_shape.
Qed.

Lemma C4_sample_shapes_witness :
  (length (MAFlowModel.sample demo_flow (fun n => repeat [0; 0; 0]%R n) 4) = 4
   /\ Forall (fun r => length r = MAFlowModel.in_shape demo_flow)
             (MAFlowModel.sample demo_flow (fun n => repeat [0; 0; 0]%R n) 4))
  /\ exists xs,
       MAConditionalFlowModel.sample demo_cond demo_rand demo_normal 1 None = Ok xs
       /\ length xs = 1
       /\ Forall (fun r => length r = MAConditionalFlowModel.n_params demo_cond
                                      + MAConditionalFlowModel.in_shape demo_cond) xs.
Proof.
  destruct C4_sample_shapes as [Hu Hc]. split.
  - apply Hu; [lia | exact demo_flow_wf | reflexivity | repeat constructor].
  - apply Hc; [lia | exact demo_cond_wf | exact demo_cond_hists | exact demo_rand_ok
              | exact (demo_normal_ok 1)].
Defined.

(** * Further properties *)

(** ** Coupling layers: both directions *)

Section AbstractCoupling.
Variable D : nat.
Variable g : list R -> list R * list R.
Hypothesis g_length :
  forall x, length (fst (g x)) = D /\ length (snd (g x)) = D.
Hypothesis g_agree :
  forall x y k, length x = length y ->
    (forall i, i < k -> nth i x 0%R = nth i y 0%R) ->
    nth k (fst (g x)) 0%R = nth k (fst (g y)) 0%R
    /\ nth k (snd (g x)) 0%R = nth k (snd (g y)) 0%R.

Lemma length_affine_with (x : list R) :
  length x = D -> length (affine_with g x) = D.
Proof.
  intros Hx. destruct (g_length x) as [Hs Ht]. unfold affine_with. lengths.
Qed.

Lemma nth_affine_with (x : list R) (j : nat) :
  length x = D -> j < D ->
  nth j (affine_with g x) 0%R
  = (nth j x 0 * exp (nth j (fst (g x)) 0) + nth j (snd (g x)) 0)%R.
Proof.
  intros Hx Hj. destruct (g_length x) as [Hs Ht].
  unfold affine_with, vadd, vmul, vexp.
  rewrite nth_zip_with with (da := 0%R) (db := 0%R) by lengths.
  rewrite nth_zip_with with (da := 0%R) (db := 0%R) by lengths.
  rewrite nth_map_in with (d' := 0%R) by lia. reflexivity.
Qed.

Lemma length_invert_with (w : list R) (k : nat) :
  length w = D -> length (invert_with g D w k) = D.
Proof.
  intros Hw. destruct (g_length w) as [Hs Ht]. unfold invert_with.
  destruct (g w) as [s t]; simpl in Hs, Ht. lengths.
Qed.

Lemma nth_invert_with (w : list R) (k j : nat) :
  length w = D -> j < D ->
  nth j (invert_with g D w k) 0%R
  = if j =? k
    then (exp (- nth j (fst (g w)) 0) * (nth j w 0 - nth j (snd (g w)) 0))%R
    else nth j w 0%R.
Proof.
  intros Hw Hj. destruct (g_length w) as [Hs Ht]. unfold invert_with.
  destruct (g w) as [s t]; simpl in Hs, Ht |- *.
  unfold vadd, vmul, vsub, vexp, vneg.
  rewrite nth_zip_with with (da := 0%R) (db := 0%R) by lengths.
  rewrite nth_zip_with with (da := 0%R) (db := 0%R) by lengths.
  rewrite nth_zip_with with (da := 0%R) (db := 0%R) by lengths.
  rewrite nth_zip_with with (da := 0%R) (db := 0%R) by lengths.
  rewrite nth_zip_with with (da := 0%R) (db := 0%R) by lengths.
  rewrite nth_map_in with (d' := 0%R) by lengths.
  rewrite nth_map_in with (d' := 0%R) by lengths.
  rewrite nth_map_in with (d' := 0%R) by lengths.
  unfold MAFlowModel.one_hot, range. rewrite nth_map_seq by exact Hj. simpl (0 + j).
  destruct (j =? k); ring.
Qed.

Lemma length_invert_loop (w : list R) (n : nat) :
  length w = D -> length (fold_left (invert_with g D) (range n) w) = D.
Proof.
  intros Hw. induction n as [|n IH]; [exact Hw|].
  rewrite fold_left_range_S. now apply length_invert_with.
Qed.

(** Forward then inverse: the first [k] rounds restore the first [k]
    features. *)
Lemma invert_with_prefix (x : list R) (k : nat) :
  length x = D -> k <= D ->
  forall j, j < D ->
    nth j (fold_left (invert_with g D) (range k) (affine_with g x)) 0%R
    = if j <? k then nth j x 0%R else nth j (affine_with g x) 0%R.
Proof.
  intros Hx. induction k as [|k IH]; intros Hk j Hj; [reflexivity|].
  rewrite fold_left_range_S.
  set (w := fold_left (invert_with g D) (range k) (affine_with g x)) in *.
  assert (Hw : length w = D)
    by (apply length_invert_loop; now apply length_affine_with).
  rewrite nth_invert_with by assumption.
  destruct (Nat.eqb_spec j k) as [->|Hjk].
  - destruct (g_agree w x k) as [Es Et].
    + congruence.
    + intros i Hi. rewrite IH by lia.
      destruct (Nat.ltb_spec i k); [reflexivity|lia].
    + rewrite Es, Et, IH by lia.
      destruct (Nat.ltb_spec k k); [lia|].
      rewrite nth_affine_with by assumption.
      rewrite exp_undo. destruct (Nat.ltb_spec k (S k)); [reflexivity|lia].
  - rewrite IH by lia.
    destruct (Nat.ltb_spec j k), (Nat.ltb_spec j (S k)); try reflexivity; lia.
Qed.

Lemma invert_with_affine (x : list R) :
  length x = D -> fold_left (invert_with g D) (range D) (affine_with g x) = x.
Proof.
  intros Hx. apply list_ext with (d := 0%R).
  - rewrite length_invert_loop; [congruence | now apply length_affine_with].
  - rewrite length_invert_loop by now apply length_affine_with.
    intros j Hj. rewrite invert_with_prefix by lia.
    destruct (Nat.ltb_spec j D); [reflexivity|lia].
Qed.

(** Inverse then forward: after [k] rounds the first [k] features of the
    state are sent to those of [z] by the affine update, the others still
    hold the values of [z]. *)
Lemma affine_with_prefix (z : list R) (k : nat) :
  length z = D -> k <= D ->
  let w := fold_left (invert_with g D) (range k) z in
  forall j, j < D ->
    if j <? k
    then (nth j w 0 * exp (nth j (fst (g w)) 0) + nth j (snd (g w)) 0)%R = nth j z 0%R
    else nth j w 0%R = nth j z 0%R.
Proof.
  intros Hz. induction k as [|k IH]; intros Hk w j Hj; [reflexivity|].
  subst w. rewrite fold_left_range_S.
  set (v := fold_left (invert_with g D) (range k) z) in *.
  assert (Hv : length v = D) by now apply length_invert_loop.
  assert (Hv' : length (invert_with g D v k) = D) by now apply length_invert_with.
  assert (Hsame : forall i, i <> k -> i < D ->
                    nth i (invert_with g D v k) 0%R = nth i v 0%R).
  { intros i Hik Hi. rewrite nth_invert_with by assumption.
    destruct (Nat.eqb_spec i k); [contradiction|reflexivity]. }
  destruct (Nat.ltb_spec j (S k)) as [Hjk|Hjk].
  - destruct (g_agree (invert_with g D v k) v j) as [Es Et].
    + congruence.
    + intros i Hi. apply Hsame; lia.
    + rewrite Es, Et.
      destruct (Nat.eq_dec j k) as [->|Hne].
      * rewrite nth_invert_with by assumption. rewrite Nat.eqb_refl.
        specialize (IH ltac:(lia) k Hj). cbv zeta in IH.
        destruct (Nat.ltb_spec k k); [lia|]. rewrite IH.
        replace (exp (- nth k (fst (g v)) 0) * (nth k z 0 - nth k (snd (g v)) 0)
                 * exp (nth k (fst (g v)) 0))%R
          with ((nth k z 0 - nth k (snd (g v)) 0)
                * (exp (- nth k (fst (g v)) 0) * exp (nth k (fst (g v)) 0)))%R by ring.
        rewrite <- exp_plus, Rplus_opp_l, exp_0. ring.
      * rewrite Hsame by lia.
        specialize (IH ltac:(lia) j Hj). cbv zeta in IH.
        destruct (Nat.ltb_spec j k); [exact IH|lia].
  - rewrite Hsame by lia.
    specialize (IH ltac:(lia) j Hj). cbv zeta in IH.
    destruct (Nat.ltb_spec j k); [lia|exact IH].
Qed.

Lemma affine_with_invert (z : list R) :
  length z = D -> affine_with g (fold_left (invert_with g D) (range D) z) = z.
Proof.
  intros Hz.
  set (w := fold_left (invert_with g D) (range D) z).
  assert (Hw : length w = D) by now apply length_invert_loop.
  apply list_ext with (d := 0%R).
  - rewrite length_affine_with by exact Hw. congruence.
  - rewrite length_affine_with by exact Hw. intros j Hj.
    rewrite nth_affine_with by assumption.
    pose proof (affine_with_prefix z D Hz (Nat.le_refl D) j Hj) as H. cbv zeta in H.
    destruct (Nat.ltb_spec j D); [exact H|lia].
Qed.
End AbstractCoupling.

(** ** The loops over the layers: both directions *)

Section AbstractFlow.
Variable N : nat.
Variable V : list R -> Prop.
Variables A B Pm Qm : nat -> list R -> list R.
Hypothesis A_valid : forall i x, i < N -> V x -> V (A i x).
Hypothesis B_valid : forall i x, i < N -> V x -> V (B i x).
Hypothesis P_valid : forall i x, i < N - 1 -> V x -> V (Pm i x).
Hypothesis Q_valid : forall i x, i < N - 1 -> V x -> V (Qm i x).
Hypothesis BA : forall i x, i < N -> V x -> B i (A i x) = x.
Hypothesis AB : forall i x, i < N -> V x -> A i (B i x) = x.
Hypothesis QP : forall i x, i < N - 1 -> V x -> Qm i (Pm i x) = x.
Hypothesis PQ : forall i x, i < N - 1 -> V x -> Pm i (Qm i x) = x.

Let fstep := gen_fstep N A Pm.
Let istep := gen_istep B Qm.

Lemma fstep_valid (i : nat) (x : list R) : i < N -> V x -> V (fstep x i).
Proof.
  intros Hi Hx. unfold fstep, gen_fstep. cbv zeta.
  destruct (Nat.eqb_spec i (N - 1)); [now apply A_valid|].
  apply P_valid; [lia | now apply A_valid].
Qed.

Lemma istep_valid (i : nat) (z : list R) : i < N -> V z -> V (istep z i).
Proof.
  intros Hi Hz. unfold istep, gen_istep. cbv zeta.
  destruct (Nat.eqb_spec i 0); [now apply B_valid|].
  apply Q_valid; [lia | now apply B_valid].
Qed.

Lemma fold_valid (step : list R -> nat -> list R) (l : list nat) :
  (forall i x, i < N -> V x -> V (step x i)) ->
  Forall (fun i => i < N) l ->
  forall x, V x -> V (fold_left step l x).
Proof.
  intros Hs Hl. induction Hl as [|i l Hi _ IH]; intros x Hx; simpl; auto.
Qed.

Lemma seq_below (n k : nat) : n + k <= N -> Forall (fun i => i < N) (seq n k).
Proof.
  intros H. apply Forall_forall. intros i Hi. apply in_seq in Hi. lia.
Qed.

Lemma rev_seq_below (n k : nat) : n + k <= N -> Forall (fun i => i < N) (rev (seq n k)).
Proof.
  intros H. apply Forall_forall. intros i Hi. apply in_rev, in_seq in Hi. lia.
Qed.

(** Forward then inverse. *)
Lemma gen_inverse_from (x : list R) (n : nat) :
  V x -> n < N ->
  fold_left istep (rev (range (S n))) (A n (fold_left fstep (range n) x)) = x.
Proof.
  intros Hx. induction n as [|n IH]; intros Hn.
  - unfold range. simpl. unfold istep, gen_istep. simpl. now apply BA.
  - unfold range in *. rewrite seq_S, rev_app_distr. cbn [rev app fold_left].
    assert (HF : V (fold_left fstep (seq 0 n) x)).
    { apply fold_valid; [exact fstep_valid | apply seq_below; lia | exact Hx]. }
    assert (HF' : V (fold_left fstep (seq 0 (S n)) x)).
    { apply fold_valid; [exact fstep_valid | apply seq_below; lia | exact Hx]. }
    assert (Hz : istep (A (S n) (fold_left fstep (seq 0 (S n)) x)) (0 + S n)
                 = A n (fold_left fstep (seq 0 n) x)).
    { simpl (0 + S n). unfold istep, gen_istep. cbv zeta. simpl (S n =? 0).
      simpl (S n - 1). rewrite Nat.sub_0_r.
      rewrite BA by (assumption || lia).
      rewrite seq_S, fold_left_app. cbn [fold_left]. simpl (0 + n).
      unfold fstep at 1, gen_fstep. cbv zeta.
      destruct (Nat.eqb_spec n (N - 1)); [lia|].
      apply QP; [lia|]. apply A_valid; [lia|exact HF]. }
    rewrite Hz. apply IH. lia.
Qed.

Lemma gen_inverse_forward (x : list R) :
  V x -> fold_left istep (rev (range N)) (fold_left fstep (range N) x) = x.
Proof.
  intros Hx. destruct (Nat.eq_dec N 0) as [E0|E0].
  - replace (range N) with (@nil nat) by (now rewrite E0). reflexivity.
  - replace (range N) with (range (S (N - 1))) by (f_equal; lia).
    rewrite fold_left_range_S. unfold fstep at 1, gen_fstep. cbv zeta.
    rewrite Nat.eqb_refl. apply gen_inverse_from; [exact Hx | lia].
Qed.

(** Inverse then forward. [J n] is the state of the inverse pass once the
    layers [N-1, ..., n] are undone, [K n] that state before the inverse
    permutation of layer [n]. *)
Section InverseThenForward.
Variable z : list R.
Hypothesis Hz : V z.

Let J (n : nat) : list R := fold_left istep (rev (seq n (N - n))) z.
Let K (n : nat) : list R := B n (J (S n)).

Lemma J_valid (n : nat) : n <= N -> V (J n).
Proof.
  intros Hn. apply fold_valid; [exact istep_valid | apply rev_seq_below; lia | exact Hz].
Qed.

Lemma J_step (n : nat) : n < N -> J n = istep (J (S n)) n.
Proof.
  intros Hn. unfold J. replace (N - n) with (S (N - S n)) by lia.
  cbn [seq rev]. now rewrite fold_left_app.
Qed.

Lemma K_valid (n : nat) : n < N -> V (K n).
Proof. intros Hn. apply B_valid; [exact Hn | apply J_valid; lia]. Qed.

Lemma J_succ (n : nat) : S n < N -> J (S n) = Qm n (K (S n)).
Proof.
  intros Hn. rewrite J_step by exact Hn. unfold istep, gen_istep, K. cbv zeta.
  simpl (S n =? 0). simpl (S n - 1). now rewrite Nat.sub_0_r.
Qed.

Lemma gen_forward_from (j : nat) :
  forall n, n + S j = N -> fold_left fstep (seq n (S j)) (K n) = z.
Proof.
  induction j as [|j IH]; intros n Hn.
  - cbn [seq fold_left]. unfold fstep, gen_fstep, K. cbv zeta.
    destruct (Nat.eqb_spec n (N - 1)); [|lia].
    rewrite AB by (lia || apply J_valid; lia).
    unfold J. replace (N - S n) with 0 by lia. reflexivity.
  - cbn [seq fold_left].
    assert (Hs : fstep (K n) n = K (S n)).
    { unfold fstep, gen_fstep. cbv zeta.
      destruct (Nat.eqb_spec n (N - 1)); [lia|].
      unfold K at 1. rewrite AB by (lia || apply J_valid; lia).
      rewrite J_succ by lia. apply PQ; [lia | apply K_valid; lia]. }
    rewrite Hs. apply IH. lia.
Qed.

Lemma gen_forward_inverse :
  fold_left fstep (range N) (fold_left istep (rev (range N)) z) = z.
Proof.
  destruct (Nat.eq_dec N 0) as [E0|E0].
  - replace (range N) with (@nil nat) by (now rewrite E0). reflexivity.
  - assert (H0 : fold_left istep (rev (range N)) z = K 0).
    { replace (fold_left istep (rev (range N)) z) with (J 0)
        by (unfold J, range; now rewrite Nat.sub_0_r).
      rewrite J_step by lia. reflexivity. }
    rewrite H0. unfold range.
    replace (seq 0 N) with (seq 0 (S (N - 1))) by (f_equal; lia).
    apply gen_forward_from. lia.
Qed.
End InverseThenForward.
End AbstractFlow.

(** ** Permutations: [argsort] is an inverse on both sides *)

Lemma fold_left_ext (X Y : Type) (f h : X -> Y -> X) (l : list Y) :
  (forall a b, f a b = h a b) -> forall a, fold_left f l a = fold_left h l a.
Proof.
  intros H. induction l as [|b l IH]; intros a; simpl; [reflexivity|].
  now rewrite H, IH.
Qed.

Lemma argsort_left_inverse (p : list nat) (n : nat) :
  Permutation p (seq 0 n) -> gather 0 (argsort p) p = seq 0 n.
Proof.
  intros Hp.
  assert (Hlen : length p = n) by (rewrite (Permutation_length Hp); apply length_seq).
  assert (Hnd : NoDup p) by (eapply Permutation_NoDup; [symmetry; exact Hp | apply seq_NoDup]).
  assert (Hpq : forall j, j < n -> nth (nth j (argsort p) 0) p 0 = j).
  { intros j Hj. pose proof (@gather_argsort p n Hp) as H.
    apply (f_equal (fun l => nth j l 0)) in H.
    unfold gather in H. rewrite nth_map_in with (d' := 0) in H
      by (rewrite length_argsort; lia).
    rewrite seq_nth in H by exact Hj. exact H. }
  assert (Hq : forall j, j < n -> nth j (argsort p) 0 < n).
  { intros j Hj. pose proof (argsort_bound p) as Hb. rewrite Forall_forall in Hb.
    rewrite <- Hlen. apply Hb, nth_In. rewrite length_argsort. lia. }
  assert (Hin : forall i, i < n -> nth i p 0 < n).
  { intros i Hi.
    assert (H : In (nth i p 0) (seq 0 n))
      by (eapply Permutation_in; [exact Hp | apply nth_In; lia]).
    apply in_seq in H. lia. }
  apply list_ext with (d := 0).
  - unfold gather. now rewrite length_map, length_seq.
  - unfold gather. rewrite length_map. intros i Hi.
    rewrite nth_map_in with (d' := 0) by exact Hi.
    rewrite seq_nth by lia. simpl.
    rewrite NoDup_nth with (d := 0) in Hnd.
    apply Hnd.
    + rewrite Hlen. apply Hq, Hin. lia.
    + exact Hi.
    + apply Hpq, Hin. lia.
Qed.

(** Gathering with the permutation [p] undoes gathering with [argsort p]. *)
Lemma gather_gather_argsort (x : list R) (p : list nat) :
  Permutation p (seq 0 (length x)) ->
  gather 0%R (gather 0%R x (argsort p)) p = x.
Proof.
  intros Hp.
  assert (Hlen : length p = length x)
    by (rewrite (Permutation_length Hp); apply length_seq).
  transitivity (gather 0%R x (gather 0 (argsort p) p)).
  - unfold gather. rewrite map_map. apply map_ext_in. intros i Hi.
    rewrite nth_map_in with (d' := 0); [reflexivity|].
    rewrite length_argsort, Hlen.
    assert (H : In i (seq 0 (length x))) by (eapply Permutation_in; eassumption).
    apply in_seq in H. lia.
  - rewrite argsort_left_inverse with (n := length x) by exact Hp.
    apply gather_range.
Qed.

(** ** The unconditional flow: inverse then forward *)

Lemma flow_fstep_eq (m : MAFlowModel.t) (x : list R) (i : nat) :
  flow_step_x m true x i
  = gen_fstep (MAFlowModel.n_coupling m)
      (fun i => forward_affine (nth i (MAFlowModel.layers_list m) []))
      (fun i a => gather 0%R a (nth i (MAFlowModel.permutations m) []))
      x i.
Proof. unfold flow_step_x. now rewrite FlowFacts.step_true. Qed.

Lemma flow_istep_eq (m : MAFlowModel.t) (z : list R) (i : nat) :
  flow_step_x m false z i
  = gen_istep
      (fun i => fold_left (MAFlowModel.invert_feature
                             (nth i (MAFlowModel.layers_list m) [])
                             (MAFlowModel.in_shape m))
                          (range (MAFlowModel.in_shape m)))
      (fun i w => gather 0%R w (argsort (nth i (MAFlowModel.permutations m) [])))
      z i.
Proof. unfold flow_step_x. now rewrite FlowFacts.step_false. Qed.

Section FlowBothWays.
Variable m : MAFlowModel.t.
Hypothesis Hwf : wf_flow m.
Let N := MAFlowModel.n_coupling m.
Let D := MAFlowModel.in_shape m.
Let layer (i : nat) := nth i (MAFlowModel.layers_list m) [].
Let perm (i : nat) := nth i (MAFlowModel.permutations m) [].

Lemma flow_wf_layer (i : nat) : i < N -> wf_coupling D 0 (layer i).
Proof.
  intros Hi. destruct Hwf as (Hl & Hc & _).
  rewrite Forall_forall in Hc. apply Hc, nth_In. now rewrite Hl.
Qed.

Lemma flow_wf_perm (i : nat) : i < N - 1 -> Permutation (perm i) (seq 0 D).
Proof.
  intros Hi. destruct Hwf as (_ & _ & Hl & Hp).
  rewrite Forall_forall in Hp. apply Hp, nth_In. now rewrite Hl.
Qed.

Lemma flow_length_gather (i : nat) (x : list R) :
  i < N - 1 -> length (gather 0%R x (perm i)) = D.
Proof.
  intros Hi. unfold gather. rewrite length_map.
  rewrite (Permutation_length (flow_wf_perm i Hi)). apply length_seq.
Qed.

Lemma flow_length_gather_argsort (i : nat) (x : list R) :
  i < N - 1 -> length (gather 0%R x (argsort (perm i))) = D.
Proof.
  intros Hi. unfold gather. rewrite length_map, length_argsort.
  rewrite (Permutation_length (flow_wf_perm i Hi)). apply length_seq.
Qed.

Lemma flow_forward_inverse (z : list R) :
  length z = D ->
  fst (MAFlowModel.call m (fst (MAFlowModel.call m z false)) true) = z.
Proof.
  intros Hz. rewrite !FlowFacts.fst_call. fold N.
  rewrite (fold_left_ext _ _ _ _ (rev (range N)) (flow_istep_eq m)).
  rewrite (fold_left_ext _ _ _ _ (range N) (flow_fstep_eq m)). fold N D.
  apply gen_forward_inverse with (V := fun x => length x = D); try exact Hz.
  - intros i x Hi Hx. cbv beta.
    apply length_invert_loop with (g := coupling_call (layer i)); [|exact Hx].
    intros y. apply coupling_call_length with (D := D). now apply flow_wf_layer.
  - intros i x Hi Hx. cbv beta. now apply flow_length_gather_argsort.
  - intros i x Hi Hx. cbv beta.
    apply affine_with_invert with (g := coupling_call (layer i)); [| |exact Hx].
    + intros y. apply coupling_call_length with (D := D). now apply flow_wf_layer.
    + intros y y' k. apply coupling_call_agree with (D := D). now apply flow_wf_layer.
  - intros i x Hi Hx. cbv beta. apply gather_gather_argsort.
    rewrite Hx. now apply flow_wf_perm.
Qed.
End FlowBothWays.

(** ** The conditional flow acts on the data block only *)

Lemma zip_with_app (X Y Z : Type) (f : X -> Y -> Z) (a b : list X) (a' b' : list Y) :
  length a = length a' ->
  zip_with f (a ++ b) (a' ++ b') = zip_with f a a' ++ zip_with f b b'.
Proof.
  revert a'. induction a as [|u a IH]; intros [|u' a'] H; simpl in *; try discriminate.
  - reflexivity.
  - f_equal. apply IH. lia.
Qed.

Lemma zip_with_repeat_r (X Y Z : Type) (f : X -> Y -> Z) (a : list X) (y : Y) :
  zip_with f a (repeat y (length a)) = map (fun u => f u y) a.
Proof. induction a as [|u a IH]; simpl; [reflexivity | now rewrite IH]. Qed.

Lemma map_id_ext (X : Type) (f : X -> X) (l : list X) :
  (forall u, f u = u) -> map f l = l.
Proof. intros H. induction l as [|u l IH]; simpl; [reflexivity | now rewrite H, IH]. Qed.

(** A dot product with a unit vector reads one entry. *)
Lemma dot_one_hot (s c : list R) :
  forall d, d < length s -> length c = length s ->
    (forall i, i < length s -> nth i c 0%R = if i =? d then 1%R else 0%R) ->
    Rdot s c = nth d s 0%R.
Proof.
  revert c. induction s as [|a s IH]; intros [|b c] d Hd Hl Hc;
    try (simpl in Hd; lia); try discriminate Hl.
  change (Rdot (a :: s) (b :: c)) with (a * b + Rdot s c)%R.
  pose proof (Hc 0 ltac:(simpl; lia)) as H0. simpl in H0.
  assert (Hc' : forall i, i < length s ->
                  nth i c 0%R = if S i =? d then 1%R else 0%R).
  { intros i Hi. apply (Hc (S i)). simpl. lia. }
  destruct d as [|d].
  - assert (Hz : Rdot s c = 0%R).
    { apply dot_zero; [apply Rplus_0_l|]. intros j Hj _.
      rewrite Hc' by exact Hj. simpl. ring. }
    rewrite Hz, H0. simpl. ring.
  - rewrite (IH c d); [rewrite H0; simpl; ring | simpl in Hd; lia
                      | simpl in Hl; lia | exact Hc'].
Qed.

Lemma left_zero_entry_data (D P i d : nat) :
  i < D -> d < D ->
  entry 0%R (MAConditionalFlowModel.make_left_zero_matrix D P) i (P + d)
  = if i =? d then 1%R else 0%R.
Proof.
  intros Hi Hd. unfold entry, MAConditionalFlowModel.make_left_zero_matrix.
  rewrite nth_zip_with with (da := repeat 0%R P) (db := []).
  - rewrite nth_repeat.
    rewrite app_nth2 by (rewrite repeat_length; lia).
    rewrite repeat_length. replace (P + d - P) with d by lia.
    unfold MAConditionalFlowModel.eye, range.
    rewrite nth_map_seq by exact Hi. now rewrite nth_map_seq by exact Hd.
  - now rewrite repeat_length.
  - unfold MAConditionalFlowModel.eye, range. now rewrite length_map, length_seq.
Qed.

Lemma length_left_zero_matrix (D P : nat) :
  length (MAConditionalFlowModel.make_left_zero_matrix D P) = D.
Proof.
  unfold MAConditionalFlowModel.make_left_zero_matrix, MAConditionalFlowModel.eye, range.
  rewrite length_zip_with, repeat_length, length_map, length_seq. apply Nat.min_id.
Qed.

(** Multiplying by [left_zero_matrix] pads a row with [P] zeros in front. *)
Lemma vec_mat_left_zero (D P : nat) (s : list R) :
  length s = D ->
  Rvec_mat s (MAConditionalFlowModel.make_left_zero_matrix D P) (P + D)
  = repeat 0%R P ++ s.
Proof.
  intros Hs. apply list_ext with (d := 0%R).
  - unfold Rvec_mat. rewrite length_vec_mat, length_app, repeat_length. lia.
  - unfold Rvec_mat. rewrite length_vec_mat. intros j Hj.
    rewrite nth_vec_mat by exact Hj.
    destruct (Nat.lt_ge_cases j P) as [HjP|HjP].
    + rewrite app_nth1 by (now rewrite repeat_length). rewrite nth_repeat.
      apply dot_zero; [apply Rplus_0_l|]. intros i _ _.
      rewrite nth_column, left_zero_entry by exact HjP. apply Rmult_0_r.
    + rewrite app_nth2 by (rewrite repeat_length; exact HjP). rewrite repeat_length.
      replace j with (P + (j - P)) at 1 by lia.
      apply dot_one_hot.
      * lia.
      * unfold column. now rewrite length_map, length_left_zero_matrix.
      * intros i Hi. rewrite nth_column. apply left_zero_entry_data; lia.
Qed.

Lemma seq_offset (P D : nat) : seq P D = map (fun j => P + j) (seq 0 D).
Proof.
  apply list_ext with (d := 0).
  - now rewrite length_map, !length_seq.
  - rewrite length_seq. intros j Hj.
    rewrite nth_map_seq by exact Hj. now rewrite seq_nth by exact Hj.
Qed.

Lemma gather_shifted (P : nat) (xp xd : list R) (q : list nat) :
  length xp = P ->
  gather 0%R (xp ++ xd) (range P ++ map (fun v => v + P) q) = xp ++ gather 0%R xd q.
Proof.
  intros Hp. unfold gather. rewrite map_app, map_map. f_equal.
  - subst P. unfold range.
    transitivity (gather 0%R xp (seq 0 (length xp))); [|apply gather_range].
    unfold gather. apply map_ext_in. intros j Hj. apply in_seq in Hj.
    apply app_nth1. lia.
  - apply map_ext. intros v. rewrite app_nth2 by lia. f_equal. lia.
Qed.

Section ConditionalLayers.
Variable m : MAConditionalFlowModel.t.
Hypothesis Hwf : wf_cond m.
Let N := MAConditionalFlowModel.n_coupling m.
Let D := MAConditionalFlowModel.in_shape m.
Let P := MAConditionalFlowModel.n_params m.
Let layer (i : nat) := nth i (MAConditionalFlowModel.layers_list m) [].
Let perm (i : nat) := nth i (MAConditionalFlowModel.permutations m) [].

(** The scale and shift network of a layer, as a function of the data block
    for fixed parameters [xp]. *)
Let net (c : list MADE.t) (xp xd : list R) := coupling_call c (xp ++ xd).

Lemma cond_wf_layer (i : nat) : i < N -> wf_coupling D P (layer i).
Proof.
  intros Hi. destruct Hwf as (Hl & Hc & _).
  rewrite Forall_forall in Hc. apply Hc, nth_In. now rewrite Hl.
Qed.

Lemma cond_wf_perm (i : nat) : i < N - 1 -> Permutation (perm i) (seq 0 D).
Proof.
  intros Hi. destruct Hwf as (_ & _ & Hl & Hp & _).
  rewrite Forall_forall in Hp. apply Hp, nth_In. now rewrite Hl.
Qed.

Lemma cond_lzm :
  MAConditionalFlowModel.left_zero_matrix m
  = MAConditionalFlowModel.make_left_zero_matrix D P.
Proof. destruct Hwf as (_ & _ & _ & _ & _ & _ & H). exact H. Qed.

Lemma net_length (c : list MADE.t) (xp xd : list R) :
  wf_coupling D P c ->
  length (fst (net c xp xd)) = D /\ length (snd (net c xp xd)) = D.
Proof.
  intros (ms & mt & -> & Hs & Ht). unfold net. simpl.
  split; eapply wf_made_length_call; eassumption.
Qed.

Lemma net_agree (c : list MADE.t) (xp x y : list R) (k : nat) :
  wf_coupling D P c -> length xp = P -> length x = length y ->
  (forall i, i < k -> nth i x 0%R = nth i y 0%R) ->
  nth k (fst (net c xp x)) 0%R = nth k (fst (net c xp y)) 0%R
  /\ nth k (snd (net c xp x)) 0%R = nth k (snd (net c xp y)) 0%R.
Proof.
  intros (ms & mt & -> & Hs & Ht) Hp Hxy H. unfold net. simpl.
  assert (Hag : forall i, i < k + P -> nth i (xp ++ x) 0%R = nth i (xp ++ y) 0%R).
  { intros i Hi. destruct (Nat.lt_ge_cases i P) as [HiP|HiP].
    - rewrite !app_nth1 by lia. reflexivity.
    - rewrite !app_nth2 by lia. apply H. lia. }
  split; eapply wf_made_call_agree; try eassumption;
    rewrite !length_app; lia.
Qed.

Lemma widened_split (c : list MADE.t) (xp xd : list R) :
  wf_coupling D P c ->
  MAConditionalFlowModel.widened m c (xp ++ xd)
  = (repeat 0%R P ++ fst (net c xp xd), repeat 0%R P ++ snd (net c xp xd)).
Proof.
  intros Hc. destruct (net_length c xp xd Hc) as [Hs Ht].
  unfold MAConditionalFlowModel.widened, net in *.
  destruct (coupling_call c (xp ++ xd)) as [s t]. simpl in Hs, Ht |- *.
  rewrite cond_lzm. fold P D.
  now rewrite !vec_mat_left_zero.
Qed.

Lemma cond_affine_split (c : list MADE.t) (xp xd : list R) :
  wf_coupling D P c -> length xp = P ->
  cond_forward_affine m c (xp ++ xd) = xp ++ affine_with (net c xp) xd.
Proof.
  intros Hc Hp. unfold cond_forward_affine, affine_with.
  rewrite widened_split by exact Hc. cbn [fst snd].
  unfold vadd, vmul, vexp. rewrite map_app.
  rewrite zip_with_app by (rewrite length_map, repeat_length; exact Hp).
  rewrite zip_with_app
    by (rewrite length_zip_with, length_map, !repeat_length; lia).
  f_equal.
  rewrite map_repeat. rewrite <- Hp at 1 2.
  rewrite zip_with_repeat_r.
  rewrite <- (length_map (fun u => (u * exp 0)%R) xp) at 1.
  rewrite zip_with_repeat_r, map_map.
  apply map_id_ext. intros u. rewrite exp_0. ring.
Qed.

Lemma cond_mask_split (k : nat) :
  map (fun j => if j =? k + P then 1%R else 0%R) (range (P + D))
  = repeat 0%R P ++ MAFlowModel.one_hot D k.
Proof.
  unfold range, MAFlowModel.one_hot. rewrite seq_app, map_app. f_equal.
  - apply list_ext with (d := 0%R).
    + now rewrite length_map, length_seq, repeat_length.
    + rewrite length_map, length_seq. intros j Hj.
      rewrite nth_map_seq by exact Hj. rewrite nth_repeat. simpl.
      destruct (Nat.eqb_spec j (k + P)); [lia|reflexivity].
  - simpl (0 + P). rewrite seq_offset, map_map. apply map_ext. intros j.
    destruct (Nat.eqb_spec (P + j) (k + P)), (Nat.eqb_spec j k); try reflexivity; lia.
Qed.

Lemma cond_invert_split (c : list MADE.t) (xp xd : list R) (k : nat) :
  wf_coupling D P c -> length xp = P ->
  MAConditionalFlowModel.invert_feature m c (xp ++ xd) k
  = xp ++ invert_with (net c xp) D xd k.
Proof.
  intros Hc Hp. unfold MAConditionalFlowModel.invert_feature, invert_with.
  rewrite widened_split by exact Hc. fold P D. rewrite cond_mask_split.
  destruct (net c xp xd) as [s t].
  unfold vadd, vmul, vsub, vexp, vneg. rewrite !map_app.
  repeat rewrite zip_with_app
    by (repeat (rewrite length_zip_with || rewrite length_map
                || rewrite repeat_length); lia).
  f_equal.
  rewrite !map_repeat. rewrite <- Hp.
  apply list_ext with (d := 0%R).
  - repeat (rewrite length_zip_with || rewrite length_map || rewrite repeat_length). lia.
  - repeat (rewrite length_zip_with || rewrite length_map || rewrite repeat_length).
    intros j Hj.
    repeat rewrite nth_zip_with with (da := 0%R) (db := 0%R)
      by (repeat (rewrite length_zip_with || rewrite length_map
                  || rewrite repeat_length); lia).
    rewrite !nth_repeat_lt by lia. ring.
Qed.

Lemma cond_invert_loop_split (c : list MADE.t) (xp xd : list R) (n : nat) :
  wf_coupling D P c -> length xp = P ->
  fold_left (MAConditionalFlowModel.invert_feature m c) (range n) (xp ++ xd)
  = xp ++ fold_left (invert_with (net c xp) D) (range n) xd.
Proof.
  intros Hc Hp. induction n as [|n IH]; [reflexivity|].
  rewrite !fold_left_range_S, IH. now apply cond_invert_split.
Qed.

Lemma cond_permute_split (tr : bool) (i : nat) (xp xd : list R) :
  length xp = P ->
  cond_permute m tr i (xp ++ xd)
  = xp ++ gather 0%R xd (if tr then perm i else argsort (perm (i - 1))).
Proof.
  intros Hp. unfold cond_permute. fold P. cbv zeta.
  rewrite gather_shifted by exact Hp. destruct tr; reflexivity.
Qed.

(** Every row of width [P + D] is its parameters followed by its data. *)
Lemma row_split (x : list R) :
  length x = P + D ->
  exists xp xd, x = xp ++ xd /\ length xp = P /\ length xd = D.
Proof.
  intros Hx. exists (firstn P x), (skipn P x).
  split; [symmetry; apply firstn_skipn|].
  rewrite length_firstn, length_skipn. lia.
Qed.
End ConditionalLayers.

(** ** The conditional flow: both directions *)

Lemma cond_fstep_eq (m : MAConditionalFlowModel.t) (x : list R) (i : nat) :
  cond_step_x m true x i
  = gen_fstep (MAConditionalFlowModel.n_coupling m)
      (fun i => cond_forward_affine m (nth i (MAConditionalFlowModel.layers_list m) []))
      (fun i => cond_permute m true i)
      x i.
Proof. unfold cond_step_x. now rewrite CondFacts.cond_step_true. Qed.

Lemma cond_istep_eq (m : MAConditionalFlowModel.t) (z : list R) (i : nat) :
  cond_step_x m false z i
  = gen_istep
      (fun i => fold_left (MAConditionalFlowModel.invert_feature m
                             (nth i (MAConditionalFlowModel.layers_list m) []))
                          (range (MAConditionalFlowModel.in_shape m)))
      (fun j => cond_permute m false (S j))
      z i.
Proof.
  unfold cond_step_x. rewrite CondFacts.cond_step_false. unfold gen_istep.
  destruct i as [|i]; [reflexivity|]. simpl. now rewrite Nat.sub_0_r.
Qed.

Section ConditionalBothWays.
Variable m : MAConditionalFlowModel.t.
Hypothesis Hwf : wf_cond m.
Let N := MAConditionalFlowModel.n_coupling m.
Let D := MAConditionalFlowModel.in_shape m.
Let P := MAConditionalFlowModel.n_params m.
Let layer (i : nat) := nth i (MAConditionalFlowModel.layers_list m) [].
Let perm (i : nat) := nth i (MAConditionalFlowModel.permutations m) [].
Let V (x : list R) : Prop := length x = P + D.
Let A (i : nat) := cond_forward_affine m (layer i).
Let B (i : nat) :=
  fold_left (MAConditionalFlowModel.invert_feature m (layer i)) (range D).
Let Pm (i : nat) := cond_permute m true i.
Let Qm (j : nat) := cond_permute m false (S j).

Lemma cond_A_valid (i : nat) (x : list R) : i < N -> V x -> V (A i x).
Proof.
  intros Hi Hx. unfold V, A in *.
  rewrite CondFacts.cond_length_forward_affine. fold P D. lia.
Qed.

Lemma cond_B_valid (i : nat) (x : list R) : i < N -> V x -> V (B i x).
Proof.
  intros Hi Hx. unfold V, B in *.
  now apply ShapeFacts.cond_invert_loop_length.
Qed.

Lemma cond_P_valid (i : nat) (x : list R) : i < N - 1 -> V x -> V (Pm i x).
Proof.
  intros Hi Hx. unfold V, Pm. rewrite CondFacts.length_permute. fold P. f_equal.
  rewrite (Permutation_length (cond_wf_perm m Hwf i Hi)). apply length_seq.
Qed.

Lemma cond_Q_valid (i : nat) (x : list R) : i < N - 1 -> V x -> V (Qm i x).
Proof.
  intros Hi Hx. unfold V, Qm. rewrite CondFacts.length_permute. fold P. f_equal.
  simpl. rewrite Nat.sub_0_r.
  rewrite (Permutation_length (cond_wf_perm m Hwf i Hi)). apply length_seq.
Qed.

Lemma cond_BA (i : nat) (x : list R) : i < N -> V x -> B i (A i x) = x.
Proof.
  intros Hi Hx. destruct (row_split m x Hx) as (xp & xd & -> & Hp & Hd).
  pose proof (cond_wf_layer m Hwf i Hi) as Hc. unfold A, B.
  rewrite (cond_affine_split m Hwf) by assumption.
  rewrite (cond_invert_loop_split m Hwf) by assumption. f_equal.
  apply invert_with_affine; [| |exact Hd].
  - intros y. now apply (net_length m).
  - intros y y' k. now apply (net_agree m).
Qed.

Lemma cond_AB (i : nat) (x : list R) : i < N -> V x -> A i (B i x) = x.
Proof.
  intros Hi Hx. destruct (row_split m x Hx) as (xp & xd & -> & Hp & Hd).
  pose proof (cond_wf_layer m Hwf i Hi) as Hc. unfold A, B.
  rewrite (cond_invert_loop_split m Hwf) by assumption.
  rewrite (cond_affine_split m Hwf) by assumption. f_equal.
  apply affine_with_invert; [| |exact Hd].
  - intros y. now apply (net_length m).
  - intros y y' k. now apply (net_agree m).
Qed.

Lemma cond_QP (i : nat) (x : list R) : i < N - 1 -> V x -> Qm i (Pm i x) = x.
Proof.
  intros Hi Hx. destruct (row_split m x Hx) as (xp & xd & -> & Hp & Hd).
  unfold Qm, Pm. rewrite !(cond_permute_split m) by assumption.
  f_equal. simpl (S i - 1). rewrite Nat.sub_0_r.
  apply gather_argsort_gather. rewrite Hd. now apply (cond_wf_perm m).
Qed.

Lemma cond_PQ (i : nat) (x : list R) : i < N - 1 -> V x -> Pm i (Qm i x) = x.
Proof.
  intros Hi Hx. destruct (row_split m x Hx) as (xp & xd & -> & Hp & Hd).
  unfold Qm, Pm. rewrite !(cond_permute_split m) by assumption.
  f_equal. simpl (S i - 1). rewrite Nat.sub_0_r.
  apply gather_gather_argsort. rewrite Hd. now apply (cond_wf_perm m).
Qed.

Lemma cond_inverse_forward (x : list R) :
  length x = P + D ->
  fst (MAConditionalFlowModel.call m (fst (MAConditionalFlowModel.call m x true)) false)
  = x.
Proof.
  intros Hx. unfold MAConditionalFlowModel.call.
  rewrite !CondFacts.cond_fst_fold_step. fold N.
  rewrite (fold_left_ext _ _ _ _ (rev (range N)) (cond_istep_eq m)).
  rewrite (fold_left_ext _ _ _ _ (range N) (cond_fstep_eq m)). fold N D.
  apply gen_inverse_forward with (V := V); try exact Hx.
  - exact cond_A_valid.
  - exact cond_P_valid.
  - exact cond_BA.
  - exact cond_QP.
Qed.

Lemma cond_forward_inverse (z : list R) :
  length z = P + D ->
  fst (MAConditionalFlowModel.call m (fst (MAConditionalFlowModel.call m z false)) true)
  = z.
Proof.
  intros Hz. unfold MAConditionalFlowModel.call.
  rewrite !CondFacts.cond_fst_fold_step. fold N.
  rewrite (fold_left_ext _ _ _ _ (rev (range N)) (cond_istep_eq m)).
  rewrite (fold_left_ext _ _ _ _ (range N) (cond_fstep_eq m)). fold N D.
  apply gen_forward_inverse with (V := V); try exact Hz.
  - exact cond_B_valid.
  - exact cond_Q_valid.
  - exact cond_AB.
  - exact cond_PQ.
Qed.
End ConditionalBothWays.

(** ** Invertibility in the other directions *)

(** X1. For every well-formed unconditional flow and every latent row [z]
    of width [in_shape]: the inverse transform ([training = false])
    followed by the forward transform ([training = true]) returns [z]. With
    C1 this makes [call] a bijection between data rows and latent rows. *)
Theorem X1_flow_inverse_then_forward (m : MAFlowModel.t) (z : list R) :
  wf_flow m ->
  length z = MAFlowModel.in_shape m ->
  fst (MAFlowModel.call m (fst (MAFlowModel.call m z false)) true) = z.
Proof.
  intros Hwf Hz. now apply flow_forward_inverse.
Qed.

Lemma X1_flow_inverse_then_forward_witness :
  wf_flow demo_flow
  /\ length [4; 5; 6]%R = MAFlowModel.in_shape demo_flow
  /\ fst (MAFlowModel.call demo_flow
            (fst (MAFlowModel.call demo_flow [4; 5; 6]%R false)) true)
     = [4; 5; 6]%R.
Proof.
  split; [exact demo_flow_wf|]. split; [reflexivity|].
  apply (X1_flow_inverse_then_forward demo_flow [4; 5; 6]%R demo_flow_wf).
  reflexivity.
Defined.

(** X2. For every well-formed conditional flow with [P] parameters and every
    row [x] of width [P + D] (parameters first): the forward transform
    followed by the inverse transform returns [x]. *)
Theorem X2_cond_forward_then_inverse (m : MAConditionalFlowModel.t) (x : list R) :
  wf_cond m ->
  length x = MAConditionalFlowModel.n_params m + MAConditionalFlowModel.in_shape m ->
  fst (MAConditionalFlowModel.call m
         (fst (MAConditionalFlowModel.call m x true)) false) = x.
Proof.
  intros Hwf Hx. now apply cond_inverse_forward.
Qed.

Lemma X2_cond_forward_then_inverse_witness :
  wf_cond demo_cond
  /\ length [5; 1; 2]%R
     = MAConditionalFlowModel.n_params demo_cond
       + MAConditionalFlowModel.in_shape demo_cond
  /\ fst (MAConditionalFlowModel.call demo_cond
            (fst (MAConditionalFlowModel.call demo_cond [5; 1; 2]%R true)) false)
     = [5; 1; 2]%R.
Proof.
  split; [exact demo_cond_wf|]. split; [reflexivity|].
  apply (X2_cond_forward_then_inverse demo_cond [5; 1; 2]%R demo_cond_wf).
  reflexivity.
Defined.

(** X3. For every well-formed conditional flow and every row [z] of width
    [P + D]: the inverse transform followed by the forward transform
    returns [z]. *)
Theorem X3_cond_inverse_then_forward (m : MAConditionalFlowModel.t) (z : list R) :
  wf_cond m ->
  length z = MAConditionalFlowModel.n_params m + MAConditionalFlowModel.in_shape m ->
  fst (MAConditionalFlowModel.call m
         (fst (MAConditionalFlowModel.call m z false)) true) = z.
Proof.
  intros Hwf Hz. now apply cond_forward_inverse.
Qed.

Lemma X3_cond_inverse_then_forward_witness :
  wf_cond demo_cond
  /\ length [5; 1; 2]%R
     = MAConditionalFlowModel.n_params demo_cond
       + MAConditionalFlowModel.in_shape demo_cond
  /\ fst (MAConditionalFlowModel.call demo_cond
            (fst (MAConditionalFlowModel.call demo_cond [5; 1; 2]%R false)) true)
     = [5; 1; 2]%R.
Proof.
  split; [exact demo_cond_wf|]. split; [reflexivity|].
  apply (X3_cond_inverse_then_forward demo_cond [5; 1; 2]%R demo_cond_wf).
  reflexivity.
Defined.

(** ** The MADE layer: dependence, masks and labels *)

(** X4. In every constructed MADE layer (at least one hidden layer, any
    labels, any weights) output [d] depends only on the parameters and on
    the data before position [d]: two inputs of one width that agree on the
    first [d + P] positions give the same output [d]. *)
Theorem X4_made_autoregressive (D L W : nat) (act : string) (rn : list (list Z))
    (P : nat) (silent : bool) (m0 m : MADE.t) (msgs : list message) (w : nat)
    (rng : list (list Z)) (ws : list (list (list R))) (bs : list (list R))
    (x y : list R) (d : nat) :
  MADE.init D L W act rn P silent = Ok (m0, msgs) ->
  MADE.build m0 w rng ws bs = Ok m ->
  1 <= L ->
  length x = length y ->
  (forall i, i < d + P -> nth i x 0%R = nth i y 0%R) ->
  nth d (MADE.call m x) 0%R = nth d (MADE.call m y) 0%R.
Proof.
  intros Ei Eb HL Hxy H.
  destruct (init_fields _ _ _ _ _ _ _ Ei) as (_ & HL0 & _ & HP & _).
  destruct (build_fields _ _ _ _ _ Eb) as (_ & HL' & _ & HP' & _).
  apply call_agree.
  - eapply build_built; exact Eb.
  - lia.
  - exact Hxy.
  - rewrite HP', HP. exact H.
Qed.

Lemma X4_made_autoregressive_witness :
  MADE.init 2 1 1 "linear" [] 0 true = Ok (demo_linear0, [])
  /\ MADE.build demo_linear0 2 [] [[[2]; [5]]; [[3; 4]]]%R [[1]; [0; 7]]%R
     = Ok demo_linear
  /\ 1 <= 1
  /\ length [1; 10]%R = length [1; 20]%R
  /\ nth 1 (MADE.call demo_linear [1; 10]%R) 0%R
     = nth 1 (MADE.call demo_linear [1; 20]%R) 0%R.
Proof.
  split; [reflexivity|]. split; [reflexivity|]. split; [lia|]. split; [reflexivity|].
  apply (X4_made_autoregressive 2 1 1 "linear" [] 0 true demo_linear0 demo_linear []
           2 [] [[[2]; [5]]; [[3; 4]]]%R [[1]; [0; 7]]%R [1; 10]%R [1; 20]%R 1);
    [reflexivity | reflexivity | lia | reflexivity |].
  intros [|i] Hi; [reflexivity|lia].
Defined.

(** The output of [demo_linear] at position 1 is [4 * relu(2 * x0 + 1) + 7]:
    it moves with the first input and ignores the second. *)
Example demo_linear_output (a b : R) :
  MADE.call demo_linear [a; b] = [0; 4 * Rmax (2 * a + 1) 0 + 7]%R.
Proof.
  cbv -[IZR Rplus Rmult Rmax].
  replace (a * (1 * 2) + (b * (0 * 5) + 0) + 1)%R with (2 * a + 1)%R by ring.
  f_equal; [ring|]. f_equal. ring.
Qed.

Lemma bit_nth (row : list Z) (j : nat) : Forall bit row -> bit (nth j row 0%Z).
Proof.
  intros H. destruct (Nat.lt_ge_cases j (length row)) as [Hj|Hj].
  - rewrite Forall_forall in H. apply H, nth_In, Hj.
  - rewrite nth_overflow by exact Hj. now left.
Qed.

(** The transpose of a 0/1 table with [r] rows is a 0/1 matrix of shape
    [(nc, r)]. *)
Lemma binary_transpose (nc r : nat) (T : list (list Z)) :
  length T = r -> Forall (Forall bit) T ->
  binary_mask (transpose 0%Z nc T) (nc, r).
Proof.
  intros Hl Hb. unfold binary_mask, transpose, range. simpl. split.
  - now rewrite length_map, length_seq.
  - rewrite Forall_map. apply Forall_forall. intros j _. unfold column. split.
    + now rewrite length_map.
    + rewrite Forall_map. eapply Forall_impl; [|exact Hb].
      intros row Hrow. now apply bit_nth.
Qed.

Lemma table_bits (f : nat -> nat -> bool) (rows cols : list nat) :
  Forall (Forall bit)
         (map (fun k => map (fun d => if f k d then 1%Z else 0%Z) cols) rows).
Proof.
  rewrite Forall_map. apply Forall_forall. intros k _.
  rewrite Forall_map. apply Forall_forall. intros d _.
  destruct (f k d); [now right | now left].
Qed.

Lemma length_table (X : Type) (f : nat -> list X) (a n : nat) :
  length (map f (seq a n)) = n.
Proof. now rewrite length_map, length_seq. Qed.

Section BinaryMasks.
Variables (D P L W x : nat).
Variable nums : list (list Z).

Lemma mask_in_binary : binary_mask (MADE.mask_in D P W x nums) (D + P, W + x).
Proof.
  unfold MADE.mask_in, range2. apply binary_transpose.
  - rewrite length_table. lia.
  - apply (table_bits (fun k d => (MADE.num_at nums 0 k >=? Z.of_nat d)%Z)).
Qed.

Lemma mask_hidden_binary (l : nat) :
  binary_mask (MADE.mask_hidden W x nums l) (W + x, W + x).
Proof.
  unfold MADE.mask_hidden, range2. apply binary_transpose.
  - rewrite length_table. lia.
  - apply (table_bits (fun k j => (MADE.num_at nums l k >=? MADE.num_at nums (l - 1) j)%Z)).
Qed.

Lemma mask_out_binary : binary_mask (MADE.mask_out D P L W x nums) (W + x, D).
Proof.
  unfold MADE.mask_out, range2. apply binary_transpose.
  - rewrite length_table. lia.
  - apply (table_bits (fun d k => (MADE.num_at nums (L - 1) k <? Z.of_nat (d + P))%Z)).
Qed.

Lemma build_masks_binary :
  x = (if 0 <? P then 1 else 0) ->
  Forall2 binary_mask (MADE.build_masks D P L W x nums) (MADE.shapes D P L W).
Proof.
  intros Hx. unfold MADE.build_masks, MADE.shapes. rewrite <- Hx.
  apply Forall2_app; [repeat constructor; apply mask_in_binary|].
  apply Forall2_app; [|repeat constructor; apply mask_out_binary].
  induction (range2 1 L) as [|l ls IH]; simpl; constructor; auto.
  apply mask_hidden_binary.
Qed.

Lemma length_build_masks :
  length (MADE.build_masks D P L W x nums) = 1 + (L - 1) + 1.
Proof.
  unfold MADE.build_masks, range2.
  rewrite !length_app, length_map, length_seq. simpl. lia.
Qed.
End BinaryMasks.

(** X5. When there is at least one hidden unit (a node, or the unit added
    for the parameters), [build] leaves one mask per kernel,
    [num_layers + 1] of them; each mask has the shape [add_weight] is given
    for the kernel it gates, and all its entries are 0 or 1. *)
Theorem X5_masks_match_kernels (D L W : nat) (act : string) (rn : list (list Z))
    (P : nat) (silent : bool) (m0 m : MADE.t) (msgs : list message) (w : nat)
    (rng : list (list Z)) (ws : list (list (list R))) (bs : list (list R)) :
  MADE.init D L W act rn P silent = Ok (m0, msgs) ->
  MADE.build m0 w rng ws bs = Ok m ->
  1 <= L ->
  1 <= W + (if 0 <? P then 1 else 0) ->
  length (MADE.masks m) = L + 1
  /\ Forall2 binary_mask (MADE.masks m) (MADE.kernel_shapes m).
Proof.
  intros Ei Eb HL _.
  destruct (init_fields _ _ _ _ _ _ _ Ei) as (_ & HL0 & _).
  destruct (build_fields _ _ _ _ _ Eb) as (_ & HL' & _).
  pose proof (@build_built m0 m w rng ws bs Eb) as Hb. unfold built in Hb.
  rewrite Hb. split.
  - rewrite length_build_masks. lia.
  - unfold MADE.kernel_shapes. apply build_masks_binary. reflexivity.
Qed.

Lemma X5_masks_match_kernels_witness :
  MADE.init 3 2 3 "tanh" [[1; 2; 1]; [2; 1; 2]]%Z 1 true = Ok (demo_made0, [])
  /\ MADE.build demo_made0 4 [] [] [] = Ok demo_made
  /\ 1 <= 2
  /\ 1 <= 3 + (if 0 <? 1 then 1 else 0)
  /\ length (MADE.masks demo_made) = 2 + 1
  /\ Forall2 binary_mask (MADE.masks demo_made) (MADE.kernel_shapes demo_made).
Proof.
  split; [reflexivity|]. split; [reflexivity|]. split; [lia|]. split; [simpl; lia|].
  apply (X5_masks_match_kernels 3 2 3 "tanh" [[1; 2; 1]; [2; 1; 2]]%Z 1 true
           demo_made0 demo_made [] 4 [] [] []);
    [reflexivity | reflexivity | lia | simpl; lia].
Defined.

(** ** The parameters reach every output *)

Lemma Zdot_nonneg (u c : list Z) :
  Forall (fun e => 0 <= e)%Z u -> Forall (fun e => 0 <= e)%Z c -> (0 <= Zdot u c)%Z.
Proof.
  intros Hu. revert c. induction Hu as [|a u Ha _ IH]; intros c Hc.
  - unfold Zdot, dot. simpl. lia.
  - destruct Hc as [|b c Hb Hc]; [unfold Zdot, dot; simpl; lia|].
    change (Zdot (a :: u) (b :: c)) with (a * b + Zdot u c)%Z.
    specialize (IH c Hc). nia.
Qed.

Lemma Zdot_ge_term (u c : list Z) :
  Forall (fun e => 0 <= e)%Z u -> Forall (fun e => 0 <= e)%Z c ->
  forall j, j < length u -> j < length c ->
    (nth j u 0 * nth j c 0 <= Zdot u c)%Z.
Proof.
  intros Hu. revert c. induction Hu as [|a u Ha Hu IH]; intros c Hc j Hju Hjc;
    [simpl in Hju; lia|].
  destruct Hc as [|b c Hb Hc]; [simpl in Hjc; lia|].
  change (Zdot (a :: u) (b :: c)) with (a * b + Zdot u c)%Z.
  destruct j as [|j]; simpl.
  - pose proof (Zdot_nonneg u c Hu Hc). lia.
  - specialize (IH c Hc j ltac:(simpl in Hju; lia) ltac:(simpl in Hjc; lia)). nia.
Qed.

Lemma mask_in_one (D P W x : nat) (nums : list (list Z)) (i k : nat) :
  i < D + P -> k < W + x ->
  (Z.of_nat (i + 1) <= MADE.num_at nums 0 k)%Z ->
  Zentry (MADE.mask_in D P W x nums) i k = 1%Z.
Proof.
  intros Hi Hk Ho. unfold Zentry, MADE.mask_in, range2.
  rewrite entry_transpose, entry_tabulate.
  destruct (Nat.ltb_spec i (D + P)); [|lia].
  destruct (Nat.ltb_spec k (W + x - 0)); [|lia].
  destruct (Nat.ltb_spec i (D + 1 + P - 1)); [|lia]. simpl (0 + k). cbn [andb].
  replace (1 + i) with (i + 1) by lia.
  destruct (Z.geb_spec (MADE.num_at nums 0 k) (Z.of_nat (i + 1))); [reflexivity|lia].
Qed.

Lemma mask_hidden_one (W x : nat) (nums : list (list Z)) (l j k : nat) :
  j < W + x -> k < W + x ->
  (MADE.num_at nums (l - 1) j <= MADE.num_at nums l k)%Z ->
  Zentry (MADE.mask_hidden W x nums l) j k = 1%Z.
Proof.
  intros Hj Hk Ho. unfold Zentry, MADE.mask_hidden, range2.
  rewrite entry_transpose, entry_tabulate.
  destruct (Nat.ltb_spec j (W + x)); [|lia].
  destruct (Nat.ltb_spec k (W + x - 0)); [|lia].
  destruct (Nat.ltb_spec j (W + x - 0)); [|lia]. simpl (0 + _). cbn [andb].
  destruct (Z.geb_spec (MADE.num_at nums l k) (MADE.num_at nums (l - 1) j));
    [reflexivity|lia].
Qed.

Lemma mask_out_one (D P L W x : nat) (nums : list (list Z)) (k d : nat) :
  k < W + x -> d < D ->
  (MADE.num_at nums (L - 1) k < Z.of_nat (d + 1 + P))%Z ->
  Zentry (MADE.mask_out D P L W x nums) k d = 1%Z.
Proof.
  intros Hk Hd Ho. unfold Zentry, MADE.mask_out, range2.
  rewrite entry_transpose, entry_tabulate.
  destruct (Nat.ltb_spec k (W + x)); [|lia].
  destruct (Nat.ltb_spec d (D + 1 - 1)); [|lia].
  destruct (Nat.ltb_spec k (W + x - 0)); [|lia]. simpl (0 + k). cbn [andb].
  replace (1 + d + P) with (d + 1 + P) by lia.
  destruct (Z.ltb_spec (MADE.num_at nums (L - 1) k) (Z.of_nat (d + 1 + P)));
    [reflexivity|lia].
Qed.

Lemma bit_nonneg (row : list Z) : Forall bit row -> Forall (fun e => 0 <= e)%Z row.
Proof.
  intros H. eapply Forall_impl; [|exact H]. intros e [->| ->]; lia.
Qed.

Lemma binary_column_nonneg (M : list (list Z)) (s : nat * nat) (k : nat) :
  binary_mask M s ->
  length (column 0%Z k M) = fst s /\ Forall (fun e => 0 <= e)%Z (column 0%Z k M).
Proof.
  intros [Hl Hr]. unfold column. split; [now rewrite length_map|].
  rewrite Forall_map. eapply Forall_impl; [|exact Hr].
  intros row [_ Hb]. cbv beta. destruct (bit_nth row k Hb) as [->| ->]; lia.
Qed.

Section ParametersReach.
Variable m : MADE.t.
Hypothesis Hbuilt : built m.
Hypothesis HL : 1 <= MADE.num_layers m.
Hypothesis HP : 1 <= MADE.n_params m.
Let D := MADE.in_shape m.
Let P := MADE.n_params m.
Let L := MADE.num_layers m.
Let h := MADE.num_nodes m + MADE.extra m.
Let ord := MADE.num_at (MADE.nums m).
(** The prepended unit of every hidden layer carries the label [P]. *)
Hypothesis Hunit : forall l, l < L -> ord l 0 = Z.of_nat P.

Lemma extra_one : MADE.extra m = 1.
Proof. unfold MADE.extra. destruct (Nat.ltb_spec 0 (MADE.n_params m)); [reflexivity|lia]. Qed.

Lemma h_pos : 1 <= h.
Proof. unfold h. rewrite extra_one. lia. Qed.

Lemma nth_mask_binary (l : nat) :
  l <= L -> binary_mask (nth l (MADE.masks m) []) (nth l (MADE.kernel_shapes m) (0, 0)).
Proof.
  intros Hl. apply Forall2_nth_rel.
  - rewrite Hbuilt. unfold MADE.kernel_shapes. apply build_masks_binary. reflexivity.
  - rewrite length_kernel_shapes. fold L. lia.
Qed.

Lemma fst_kernel_shape (l : nat) :
  1 <= l <= L -> fst (nth l (MADE.kernel_shapes m) (0, 0)) = h.
Proof.
  intros Hl. unfold MADE.kernel_shapes, MADE.shapes, range2.
  destruct l as [|l]; [lia|]. cbn [app nth].
  destruct (Nat.lt_ge_cases l (L - 1)) as [Hlt|Hge].
  - rewrite app_nth1 by (rewrite length_map, length_seq; exact Hlt).
    rewrite nth_map_seq by exact Hlt. reflexivity.
  - rewrite app_nth2 by (rewrite length_map, length_seq; exact Hge).
    rewrite length_map, length_seq.
    match goal with
    | |- context [nth ?a [_] _] => replace a with 0 by (unfold L in *; lia)
    end.
    unfold h, MADE.extra. reflexivity.
Qed.

Lemma matmul_rows (X M : list (list Z)) (s : nat * nat) (nc : nat) :
  Forall (fun row => Forall (fun e => 0 <= e)%Z row) X ->
  binary_mask M s ->
  Forall (fun row => length row = nc /\ Forall (fun e => 0 <= e)%Z row)
         (Zmatmul X M nc).
Proof.
  intros HX HM. unfold Zmatmul, matmul. rewrite Forall_map.
  eapply Forall_impl; [|exact HX]. intros row Hrow. cbv beta. split.
  - apply length_vec_mat.
  - unfold vec_mat. rewrite Forall_map. apply Forall_forall. intros k _.
    apply Zdot_nonneg; [exact Hrow|]. apply (binary_column_nonneg M s k HM).
Qed.

Lemma matmul_entry_ge (X M : list (list Z)) (s : nat * nat) (nc i k : nat) :
  Forall (fun row => length row = fst s /\ Forall (fun e => 0 <= e)%Z row) X ->
  binary_mask M s -> i < length X -> k < nc -> 0 < fst s ->
  (Zentry X i 0 * Zentry M 0 k <= Zentry (Zmatmul X M nc) i k)%Z.
Proof.
  intros HX HM Hi Hk Hs. unfold Zentry at 3, Zmatmul.
  rewrite entry_matmul by assumption.
  rewrite Forall_forall in HX.
  destruct (HX (nth i X []) (nth_In _ _ Hi)) as [Hlen Hnn].
  destruct (binary_column_nonneg M s k HM) as [Hcl Hcn].
  pose proof (Zdot_ge_term (nth i X []) (column 0%Z k M) Hnn Hcn 0) as H.
  rewrite nth_column in H. apply H; lia.
Qed.

Lemma chain_reaches (l : nat) : l < L -> reaches D P h (mask_chain m l).
Proof.
  induction l as [|l IH]; intros Hl.
  - simpl. rewrite Hbuilt, nth_masks_first.
    destruct (mask_in_binary D P (MADE.num_nodes m) (MADE.extra m) (MADE.nums m))
      as [Hlen Hrows].
    split; [exact Hlen|]. split.
    + eapply Forall_impl; [|exact Hrows]. intros row [Hr Hb]. split; [exact Hr|].
      now apply bit_nonneg.
    + intros i Hi. fold D P.
      rewrite mask_in_one; [lia | lia | pose proof h_pos; unfold h in *; lia |].
      fold ord. rewrite Hunit by lia. lia.
  - destruct (IH ltac:(lia)) as (Hlen & Hrows & Hreach).
    rewrite mask_chain_S, kernel_shapes_hidden by exact Hl. fold h.
    pose proof (nth_mask_binary (S l) ltac:(lia)) as HM.
    assert (Hfs : fst (nth (S l) (MADE.kernel_shapes m) (0, 0)) = h)
      by (apply fst_kernel_shape; lia).
    split; [|split].
    + unfold Zmatmul, matmul. now rewrite length_map.
    + eapply matmul_rows; [|exact HM].
      eapply Forall_impl; [|exact Hrows]. now intros row [_ Hb].
    + intros i Hi.
      pose proof (matmul_entry_ge (mask_chain m l) (nth (S l) (MADE.masks m) [])
                    (nth (S l) (MADE.kernel_shapes m) (0, 0)) h i 0) as Hge.
      rewrite Hfs in Hge. specialize (Hge Hrows HM ltac:(lia) h_pos h_pos).
      specialize (Hreach i Hi).
      assert (H1 : Zentry (nth (S l) (MADE.masks m) []) 0 0 = 1%Z).
      { rewrite Hbuilt, nth_masks_hidden by lia.
        apply mask_hidden_one; try (pose proof h_pos; unfold h in *; lia).
        fold ord. rewrite !Hunit by lia. lia. }
      rewrite H1 in Hge. lia.
Qed.

Lemma parameters_reach (i d : nat) :
  i < P -> d < D -> (1 <= Zentry (mask_product m) i d)%Z.
Proof.
  intros Hi Hd. unfold mask_product. fold L.
  destruct (chain_reaches (L - 1) ltac:(lia)) as (Hlen & Hrows & Hreach).
  replace L with (S (L - 1)) at 1 by lia.
  rewrite mask_chain_S. replace (S (L - 1)) with L by lia.
  unfold L at 3. rewrite kernel_shapes_last by exact HL. fold D.
  pose proof (nth_mask_binary L (Nat.le_refl L)) as HM.
  assert (Hfs : fst (nth L (MADE.kernel_shapes m) (0, 0)) = h)
    by (apply fst_kernel_shape; lia).
  pose proof (matmul_entry_ge (mask_chain m (L - 1)) (nth L (MADE.masks m) [])
                (nth L (MADE.kernel_shapes m) (0, 0)) D i d) as Hge.
  rewrite Hfs in Hge. specialize (Hge Hrows HM ltac:(lia) Hd h_pos).
  specialize (Hreach i Hi).
  assert (H1 : Zentry (nth L (MADE.masks m) []) 0 d = 1%Z).
  { unfold L. rewrite Hbuilt, nth_masks_last by exact HL.
    apply mask_out_one; [pose proof h_pos; unfold h in *; lia | exact Hd |].
    fold ord L. rewrite Hunit by lia. fold P. lia. }
  rewrite H1 in Hge. lia.
Qed.
End ParametersReach.

Lemma build_nums_unit (m0 : MADE.t) (rng : list (list Z)) (l : nat) :
  1 <= MADE.n_params m0 ->
  l < length (MADE.build_nums m0 rng) ->
  MADE.num_at (MADE.build_nums m0 rng) l 0 = Z.of_nat (MADE.n_params m0).
Proof.
  intros HP Hl. unfold MADE.build_nums in *. cbv zeta in *.
  destruct (Nat.ltb_spec 0 (MADE.n_params m0)) as [_|H]; [|lia].
  set (nums0 := if length (MADE.nums m0) =? 0 then _ else _) in *.
  rewrite length_map, length_zip_with, repeat_length in Hl.
  unfold MADE.num_at.
  rewrite nth_map_in with (d' := []) by (rewrite length_zip_with, repeat_length; exact Hl).
  rewrite nth_zip_with with (da := repeat 0%Z 1) (db := [])
    by (rewrite ?repeat_length; lia).
  rewrite nth_repeat. reflexivity.
Qed.

(** X6. In a constructed conditional MADE layer (at least one parameter, at
    least one hidden layer, order labels present for every hidden layer)
    the product of the masks has a positive entry from every parameter
    position to every output: no output is cut off from a parameter. *)
Theorem X6_parameters_reach_every_output (D L W : nat) (act : string)
    (rn : list (list Z)) (P : nat) (silent : bool) (m0 m : MADE.t)
    (msgs : list message) (w : nat) (rng : list (list Z))
    (ws : list (list (list R))) (bs : list (list R)) :
  MADE.init D L W act rn P silent = Ok (m0, msgs) ->
  MADE.build m0 w rng ws bs = Ok m ->
  1 <= L -> 1 <= P ->
  length (MADE.nums m) = L ->
  forall i d, i < P -> d < D -> (1 <= Zentry (mask_product m) i d)%Z.
Proof.
  intros Ei Eb HL HP Hn i d Hi Hd.
  destruct (init_fields _ _ _ _ _ _ _ Ei) as (HD0 & HL0 & _ & HP0 & _).
  destruct (build_fields _ _ _ _ _ Eb) as (HD' & HL' & _ & HP' & _ & _ & _ & Hnums).
  apply parameters_reach.
  - eapply build_built; exact Eb.
  - lia.
  - lia.
  - intros l Hl. rewrite HP', Hnums. apply build_nums_unit; [lia|].
    rewrite <- Hnums, Hn. lia.
  - lia.
  - lia.
Qed.

Lemma X6_parameters_reach_every_output_witness :
  MADE.init 3 2 3 "tanh" [[1; 2; 1]; [2; 1; 2]]%Z 1 true = Ok (demo_made0, [])
  /\ MADE.build demo_made0 4 [] [] [] = Ok demo_made
  /\ 1 <= 2 /\ 1 <= 1
  /\ length (MADE.nums demo_made) = 2
  /\ (1 <= Zentry (mask_product demo_made) 0 0)%Z.
Proof.
  split; [reflexivity|]. split; [reflexivity|]. split; [lia|]. split; [lia|].
  split; [reflexivity|].
  apply (X6_parameters_reach_every_output 3 2 3 "tanh" [[1; 2; 1]; [2; 1; 2]]%Z 1 true
           demo_made0 demo_made [] 4 [] [] []);
    [reflexivity | reflexivity | lia | lia | reflexivity | lia | lia].
Defined.

Lemma shape_eqb_refl (s : list nat) : MADE.shape_eqb s s = true.
Proof. unfold MADE.shape_eqb. destruct (list_eq_dec Nat.eq_dec s s); congruence. Qed.

(** X7. Order labels supplied with the right shape [(num_layers, num_nodes)]
    are kept: no warning is printed, and after [build] the labels of the
    layer are the supplied ones with the parameter column and offset added,
    whatever the random generator would have returned. *)
Theorem X7_supplied_labels_kept (D L W : nat) (act : string) (rn : list (list Z))
    (P : nat) (silent : bool) (m0 m : MADE.t) (msgs : list message) (w : nat)
    (rng : list (list Z)) (ws : list (list (list R))) (bs : list (list R)) :
  MADE.init D L W act rn P silent = Ok (m0, msgs) ->
  MADE.np_shape rn = [L; W] ->
  1 <= L ->
  MADE.build m0 w rng ws bs = Ok m ->
  ~ In WarnNumsMismatch msgs
  /\ MADE.nums m = offset_nums L P rn.
Proof.
  intros Ei Hs HL Eb.
  assert (Hlen : length rn = L).
  { destruct rn as [|r rest]; [discriminate Hs|]. unfold MADE.np_shape in Hs.
    destruct (forallb _ rest); [|discriminate Hs]. now injection Hs. }
  destruct (build_fields _ _ _ _ _ Eb) as (_ & _ & _ & _ & _ & _ & _ & Hnums).
  unfold MADE.init in Ei. destruct (D <? 2); [discriminate|].
  rewrite Hs, shape_eqb_refl in Ei. cbn [negb andb] in Ei.
  destruct (negb (existsb _ _)); [discriminate|].
  injection Ei as <- <-. split.
  - cbn [app]. destruct (negb (P =? 0) && negb silent); simpl; intuition discriminate.
  - rewrite Hnums. unfold MADE.build_nums, offset_nums.
    cbn [MADE.nums MADE.num_layers MADE.n_params].
    destruct (Nat.eqb_spec (length rn) 0); [lia|reflexivity].
Qed.

Lemma X7_supplied_labels_kept_witness :
  MADE.init 3 2 3 "tanh" [[1; 2; 1]; [2; 1; 2]]%Z 1 true = Ok (demo_made0, [])
  /\ MADE.np_shape [[1; 2; 1]; [2; 1; 2]]%Z = [2; 3]
  /\ 1 <= 2
  /\ MADE.build demo_made0 4 [[9; 9; 9]; [9; 9; 9]]%Z [] []
     = Ok demo_made
  /\ ~ In WarnNumsMismatch []
  /\ MADE.nums demo_made = offset_nums 2 1 [[1; 2; 1]; [2; 1; 2]]%Z.
Proof.
  split; [reflexivity|]. split; [reflexivity|]. split; [lia|]. split; [reflexivity|].
  apply (X7_supplied_labels_kept 3 2 3 "tanh" [[1; 2; 1]; [2; 1; 2]]%Z 1 true
           demo_made0 demo_made [] 4 [[9; 9; 9]; [9; 9; 9]]%Z [] []);
    [reflexivity | reflexivity | lia | reflexivity].
Defined.

(** ** Log-determinants and losses *)

Lemma flow_snd_fold_false (m : MAFlowModel.t) (l : list nat) :
  forall (x : list R) (ld : R),
    snd (fold_left (MAFlowModel.step m false) l (x, ld)) = ld.
Proof.
  induction l as [|i l IH]; intros x ld; [reflexivity|].
  cbn [fold_left].
  destruct (MAFlowModel.step m false (x, ld) i) as [x' ld'] eqn:E.
  rewrite IH. change ld' with (snd (x', ld')). rewrite <- E.
  apply FlowFacts.snd_step_false.
Qed.

Lemma cond_snd_step_false (m : MAConditionalFlowModel.t) (z : list R) (ld : R) (i : nat) :
  snd (MAConditionalFlowModel.step m false (z, ld) i) = ld.
Proof.
  unfold MAConditionalFlowModel.step. simpl. destruct (i =? 0); reflexivity.
Qed.

Lemma cond_snd_fold_false (m : MAConditionalFlowModel.t) (l : list nat) :
  forall (x : list R) (ld : R),
    snd (fold_left (MAConditionalFlowModel.step m false) l (x, ld)) = ld.
Proof.
  induction l as [|i l IH]; intros x ld; [reflexivity|].
  cbn [fold_left].
  destruct (MAConditionalFlowModel.step m false (x, ld) i) as [x' ld'] eqn:E.
  rewrite IH. change ld' with (snd (x', ld')). rewrite <- E.
  apply cond_snd_step_false.
Qed.

(** X8. In the inverse direction ([training=False], the direction of
    [predict] and [sample]) both flow models return the log-determinant 0,
    whatever the layers and the input are: it is only accumulated in the
    forward direction. *)
Theorem X8_inverse_log_det_zero (m : MAFlowModel.t) (mc : MAConditionalFlowModel.t)
    (z : list R) :
  snd (MAFlowModel.call m z false) = 0%R
  /\ snd (MAConditionalFlowModel.call mc z false) = 0%R.
Proof.
  split.
  - unfold MAFlowModel.call. apply flow_snd_fold_false.
  - unfold MAConditionalFlowModel.call. apply cond_snd_fold_false.
Qed.

Lemma Rsum_cons (a : R) (l : list R) : Rsum (a :: l) = (a + Rsum l)%R.
Proof. reflexivity. Qed.

Lemma Rsum_vadd (a : list R) :
  forall b, length a = length b -> Rsum (vadd a b) = (Rsum a + Rsum b)%R.
Proof.
  induction a as [|u a IH]; intros [|v b] H; try discriminate.
  - unfold Rsum, reduce_sum. simpl. ring.
  - change (vadd (u :: a) (v :: b)) with ((u + v)%R :: vadd a b).
    rewrite !Rsum_cons, IH by (simpl in H; lia). ring.
Qed.

Lemma reduce_mean_vadd (a b : list R) :
  length a = length b ->
  MAFlowModel.reduce_mean (vadd a b)
  = (MAFlowModel.reduce_mean a + MAFlowModel.reduce_mean b)%R.
Proof.
  intros H. unfold MAFlowModel.reduce_mean.
  rewrite Rsum_vadd by exact H.
  unfold vadd. rewrite length_zip_with, <- H, Nat.min_id.
  unfold Rdiv. ring.
Qed.

(** X9. The three numbers [log_loss] returns for a batch are consistent: the
    loss is the sum of the log-probability part and the log-determinant
    part, in both flow models. *)
Theorem X9_log_loss_splits (m : MAFlowModel.t) (mc : MAConditionalFlowModel.t)
    (log_prob : list R -> R) (x : list (list R)) :
  x <> [] ->
  fst (fst (MAFlowModel.log_loss m log_prob x))
  = (snd (fst (MAFlowModel.log_loss m log_prob x))
     + snd (MAFlowModel.log_loss m log_prob x))%R
  /\ fst (fst (MAConditionalFlowModel.log_loss mc log_prob x))
     = (snd (fst (MAConditionalFlowModel.log_loss mc log_prob x))
        + snd (MAConditionalFlowModel.log_loss mc log_prob x))%R.
Proof.
  intros _. unfold MAFlowModel.log_loss, MAConditionalFlowModel.log_loss.
  cbn [fst snd]. split; rewrite reduce_mean_vadd by (now rewrite !length_map); ring.
Qed.

Lemma X9_log_loss_splits_witness :
  [[0; 0; 0]]%R <> []
  /\ fst (fst (MAFlowModel.log_loss demo_flow (fun _ => 0%R) [[0; 0; 0]]%R))
     = (snd (fst (MAFlowModel.log_loss demo_flow (fun _ => 0%R) [[0; 0; 0]]%R))
        + snd (MAFlowModel.log_loss demo_flow (fun _ => 0%R) [[0; 0; 0]]%R))%R.
Proof.
  split; [discriminate|].
  apply (X9_log_loss_splits demo_flow demo_cond (fun _ => 0%R) [[0; 0; 0]]%R).
  discriminate.
Defined.

(** X10. The density [infer] returns for a point is the exponential of
    minus the loss that [log_loss] returns for the batch holding just that
    point, in both flow models. *)
Theorem X10_infer_is_exp_of_minus_loss (m : MAFlowModel.t)
    (mc : MAConditionalFlowModel.t) (log_prob : list R -> R) (x : list R) :
  MAFlowModel.infer m log_prob x
  = exp (- fst (fst (MAFlowModel.log_loss m log_prob [x])))
  /\ MAConditionalFlowModel.infer mc log_prob x
     = exp (- fst (fst (MAConditionalFlowModel.log_loss mc log_prob [x]))).
Proof.
  unfold MAFlowModel.infer, MAFlowModel.log_loss,
    MAConditionalFlowModel.infer, MAConditionalFlowModel.log_loss.
  cbn [map fst snd].
  destruct (MAFlowModel.call m x true) as [z ld].
  destruct (MAConditionalFlowModel.call mc x true) as [zc ldc].
  cbn [fst snd]. unfold MAFlowModel.reduce_mean, vadd. cbn [zip_with length INR].
  rewrite !Rsum_cons. unfold Rsum, reduce_sum. cbn [fold_right].
  split; f_equal; field.
Qed.

Lemma Rsum_app (a b : list R) : Rsum (a ++ b) = (Rsum a + Rsum b)%R.
Proof.
  induction a as [|u a IH]; [unfold Rsum at 2, reduce_sum; simpl; ring|].
  change ((u :: a) ++ b) with (u :: (a ++ b)). rewrite !Rsum_cons, IH. ring.
Qed.

Lemma Rsum_zeros (n : nat) : Rsum (repeat 0%R n) = 0%R.
Proof.
  induction n as [|n IH]; [reflexivity|].
  change (repeat 0%R (S n)) with (0%R :: repeat 0%R n). rewrite Rsum_cons, IH. ring.
Qed.

(** X11. In the conditional flow the log-determinant of a forward step grows
    by the sum of the scale outputs of the layer's scale network alone: the
    widening by [left_zero_matrix] adds zeros in the parameter slots, so the
    parameters contribute nothing. *)
Theorem X11_cond_log_det_counts_features (m : MAConditionalFlowModel.t)
    (x : list R) (ld : R) (i : nat) :
  wf_cond m ->
  i < MAConditionalFlowModel.n_coupling m ->
  snd (MAConditionalFlowModel.step m true (x, ld) i)
  = (ld + Rsum (fst (coupling_call (nth i (MAConditionalFlowModel.layers_list m) []) x)))%R.
Proof.
  intros Hwf Hi.
  pose proof (widened_split m Hwf (nth i (MAConditionalFlowModel.layers_list m) [])
                [] x (cond_wf_layer m Hwf i Hi)) as Hw.
  cbn [app] in Hw.
  unfold MAConditionalFlowModel.step. rewrite Hw.
  assert (Hs : snd (let '(x0, log_det) :=
                      (vadd (vmul x (vexp (repeat 0%R (MAConditionalFlowModel.n_params m)
                         ++ fst (coupling_call
                                  (nth i (MAConditionalFlowModel.layers_list m) []) x))))
                         (repeat 0%R (MAConditionalFlowModel.n_params m)
                          ++ snd (coupling_call
                                   (nth i (MAConditionalFlowModel.layers_list m) []) x)),
                       (ld + Rsum (repeat 0%R (MAConditionalFlowModel.n_params m)
                          ++ fst (coupling_call
                                   (nth i (MAConditionalFlowModel.layers_list m) []) x)))%R)
                    in (x0, log_det))
               = (ld + Rsum (fst (coupling_call
                                    (nth i (MAConditionalFlowModel.layers_list m) []) x)))%R).
  { cbn [snd]. rewrite Rsum_app, Rsum_zeros. ring. }
  cbn [andb negb orb] in *.
  destruct (i =? MAConditionalFlowModel.n_coupling m - 1); cbn [negb snd] in *; exact Hs.
Qed.

Lemma X11_cond_log_det_counts_features_witness :
  wf_cond demo_cond
  /\ 0 < MAConditionalFlowModel.n_coupling demo_cond
  /\ snd (MAConditionalFlowModel.step demo_cond true ([1; 2; 3]%R, 0%R) 0)
     = (0 + Rsum (fst (coupling_call
                         (nth 0 (MAConditionalFlowModel.layers_list demo_cond) [])
                         [1; 2; 3]%R)))%R.
Proof.
  split; [exact demo_cond_wf|]. split; [simpl; lia|].
  apply (X11_cond_log_det_counts_features demo_cond [1; 2; 3]%R 0%R 0);
    [exact demo_cond_wf | simpl; lia].
Defined.

(** ** The range of the outputs *)

Lemma tanh_range (v : R) : (-1 < tanh v < 1)%R.
Proof.
  unfold tanh, sinh, cosh.
  pose proof (exp_pos v) as Ha. pose proof (exp_pos (- v)) as Hb.
  set (a := exp v) in *. set (b := exp (- v)) in *.
  assert (Hp : (0 < 2 * a / (a + b))%R) by (apply Rdiv_lt_0_compat; lra).
  assert (Hq : (0 < 2 * b / (a + b))%R) by (apply Rdiv_lt_0_compat; lra).
  split.
  - replace ((a - b) / 2 / ((a + b) / 2))%R with (-1 + 2 * a / (a + b))%R
      by (field; lra).
    lra.
  - replace ((a - b) / 2 / ((a + b) / 2))%R with (1 - 2 * b / (a + b))%R
      by (field; lra).
    lra.
Qed.

Lemma sigmoid_range (v : R) : (0 < sigmoid v < 1)%R.
Proof.
  unfold sigmoid. pose proof (exp_pos (- v)) as Hb. set (b := exp (- v)) in *.
  assert (Hq : (0 < b / (1 + b))%R) by (apply Rdiv_lt_0_compat; lra).
  split.
  - apply Rdiv_lt_0_compat; lra.
  - replace (1 / (1 + b))%R with (1 - b / (1 + b))%R by (field; lra). lra.
Qed.

Lemma Forall_map_all (A B : Type) (g : A -> B) (Q : B -> Prop) (l : list A) :
  (forall a, Q (g a)) -> Forall Q (map g l).
Proof. intros H. rewrite Forall_map. apply Forall_forall. intros a _. apply H. Qed.

(** X12. Every output of a MADE layer lies in the range of the layer's
    activation function: non-negative for relu, strictly between -1 and 1
    for tanh, strictly between 0 and 1 for sigmoid, whatever the weights,
    the masks and the input are. *)
Theorem X12_outputs_in_activation_range (m : MADE.t) (x : list R) :
  Forall (in_range (MADE.activation m)) (MADE.call m x).
Proof.
  unfold MADE.call, in_range.
  destruct (String.eqb (MADE.activation m) "relu").
  - unfold relu. apply Forall_map_all. intros a. apply Rmax_r.
  - destruct (String.eqb (MADE.activation m) "tanh").
    + apply Forall_map_all. apply tanh_range.
    + destruct (String.eqb (MADE.activation m) "sigmoid").
      * apply Forall_map_all. apply sigmoid_range.
      * apply Forall_forall. intros; exact I.
Qed.

Lemma length_call_le (m : MADE.t) (x : list R) :
  length (MADE.call m x) <= MADE.in_shape m.
Proof.
  unfold MADE.call.
  repeat match goal with |- context [if ?b then _ else _] => destruct b end;
    unfold relu; rewrite ?length_map, length_dense; apply Nat.le_min_l.
Qed.

Lemma Rsum_abs_bound (l : list R) :
  Forall (fun v => -1 < v < 1)%R l -> (Rabs (Rsum l) <= INR (length l))%R.
Proof.
  induction 1 as [|a l Ha _ IH].
  - unfold Rsum, reduce_sum. simpl. rewrite Rabs_R0. lra.
  - rewrite Rsum_cons. change (length (a :: l)) with (S (length l)). rewrite S_INR.
    pose proof (Rabs_triang a (Rsum l)) as Ht.
    assert (Rabs a <= 1)%R by (apply Rabs_le; lra).
    lra.
Qed.

Lemma call_tanh_sum (m : MADE.t) (x : list R) :
  MADE.activation m = "tanh"%string ->
  (Rabs (Rsum (MADE.call m x)) <= INR (MADE.in_shape m))%R.
Proof.
  intros Hact.
  assert (Hr : Forall (fun v => -1 < v < 1)%R (MADE.call m x)).
  { unfold MADE.call. rewrite Hact. cbn [String.eqb Ascii.eqb Bool.eqb].
    apply Forall_map_all. apply tanh_range. }
  apply Rsum_abs_bound in Hr.
  pose proof (le_INR _ _ (length_call_le m x)). lra.
Qed.

(** The two networks of a coupling stack of the flow models. *)
Lemma stack_layers (D P L W : nat) (dr : draws) (c : list MADE.t) :
  stack D P 2 ["tanh"; "linear"]%string L W dr = Ok c ->
  exists ms mt, c = [ms; mt]
    /\ MADE.activation ms = "tanh"%string /\ MADE.activation mt = "linear"%string
    /\ MADE.in_shape ms = D /\ MADE.in_shape mt = D.
Proof.
  unfold stack. cbn -[mapM range MADE.init MADE.build nth Nat.ltb].
  unfold range. cbn [seq mapM nth].
  intros E.
  destruct (MADE.init D L W "tanh" _ P true) as [[m0 msgs0]|] eqn:E0; [|discriminate].
  cbn [bind fst] in E.
  destruct (MADE.build m0 _ _ _ _) as [ms|] eqn:B0; [|discriminate].
  cbn [bind] in E.
  destruct (MADE.init D L W "linear" _ P true) as [[m1 msgs1]|] eqn:E1; [|discriminate].
  cbn [bind fst] in E.
  destruct (MADE.build m1 _ _ _ _) as [mt|] eqn:B1; [|discriminate].
  cbn [bind] in E. injection E as <-.
  destruct (init_fields _ _ _ _ _ _ _ E0) as (HD0 & _ & _ & _ & Ha0 & _).
  destruct (init_fields _ _ _ _ _ _ _ E1) as (HD1 & _ & _ & _ & Ha1 & _).
  destruct (build_fields _ _ _ _ _ B0) as (HD0' & _ & _ & _ & Ha0' & _).
  destruct (build_fields _ _ _ _ _ B1) as (HD1' & _ & _ & _ & Ha1' & _).
  exists ms, mt. repeat split; congruence.
Qed.

Lemma flow_log_det_fold (m : MAFlowModel.t) (D : nat) :
  (forall i x,
      (Rabs (Rsum (fst (coupling_call (nth i (MAFlowModel.layers_list m) []) x)))
       <= INR D)%R) ->
  forall (l : list nat) (x : list R) (ld : R),
    (Rabs (snd (fold_left (MAFlowModel.step m true) l (x, ld)))
     <= Rabs ld + INR (length l * D))%R.
Proof.
  intros Hb. induction l as [|i l IH]; intros x ld.
  - simpl. lra.
  - cbn [fold_left].
    destruct (MAFlowModel.step m true (x, ld) i) as [x' ld'] eqn:E.
    specialize (IH x' ld').
    assert (Hld : ld' = (ld + Rsum (fst (coupling_call
                                           (nth i (MAFlowModel.layers_list m) []) x)))%R).
    { change ld' with (snd (x', ld')). rewrite <- E. apply step_true_log_det. }
    pose proof (Rabs_triang ld (Rsum (fst (coupling_call
                                             (nth i (MAFlowModel.layers_list m) []) x)))) as Ht.
    specialize (Hb i x). rewrite <- Hld in Ht.
    change (length (i :: l) * D) with (D + length l * D).
    rewrite plus_INR. lra.
Qed.

(** X13. The log-determinant of the forward pass of a constructed flow is
    bounded by the number of coupling layers times the number of features,
    for every input and all weights: each scale network ends in tanh, so
    every feature is scaled by a factor between 1/e and e per layer. *)
Theorem X13_flow_log_det_bounded (n D L W : nat) (permutations : option (list (list nat)))
    (dr : nat -> draws) (rp : nat -> list nat) (m : MAFlowModel.t) (x : list R) :
  MAFlowModel.init n D L W permutations dr rp = Ok m ->
  (Rabs (snd (MAFlowModel.call m x true)) <= INR (n * D))%R.
Proof.
  unfold MAFlowModel.init. intros E.
  destruct (mapM _ (range n)) as [layers|] eqn:El; [|discriminate].
  cbn [bind] in E. injection E as <-.
  apply mapM_Forall2 in El.
  destruct (@Forall2_length_r _ _ _
              (fun c => exists ms mt, c = [ms; mt]
                 /\ MADE.activation ms = "tanh"%string /\ MADE.in_shape ms = D)
              _ _ El) as [_ Hc].
  { intros i c _ Hs. destruct (stack_layers _ _ _ _ _ _ Hs)
      as (ms & mt & -> & Ha & _ & Hd & _).
    exists ms, mt. auto. }
  unfold MAFlowModel.call. cbn [MAFlowModel.n_coupling].
  set (m := MAFlowModel.mk n D layers _).
  pose proof (@flow_log_det_fold m D) as Hf.
  assert (Hb : forall i y,
             (Rabs (Rsum (fst (coupling_call (nth i (MAFlowModel.layers_list m) []) y)))
              <= INR D)%R).
  { intros i y. cbn [MAFlowModel.layers_list m].
    destruct (Nat.lt_ge_cases i (length layers)) as [Hi|Hi].
    - rewrite Forall_forall in Hc.
      destruct (Hc (nth i layers []) (nth_In _ _ Hi)) as (ms & mt & -> & Ha & Hd).
      unfold coupling_call. cbn [map nth fst]. rewrite <- Hd. now apply call_tanh_sum.
    - rewrite nth_overflow by exact Hi. unfold coupling_call. cbn [map nth fst].
      unfold Rsum, reduce_sum. simpl. rewrite Rabs_R0. apply pos_INR. }
  specialize (Hf Hb (range n) x 0%R).
  unfold range in Hf at 2. rewrite length_seq, Rabs_R0, Rplus_0_l in Hf. exact Hf.
Qed.

Lemma X13_flow_log_det_bounded_witness :
  MAFlowModel.init 2 3 1 1 (Some [[2; 0; 1]]) (fun _ => demo_draws) (fun _ => [])
  = Ok demo_flow
  /\ (Rabs (snd (MAFlowModel.call demo_flow [1; 2; 3]%R true)) <= INR (2 * 3))%R.
Proof.
  split; [exact demo_flow_init|].
  apply (X13_flow_log_det_bounded 2 3 1 1 (Some [[2; 0; 1]]) (fun _ => demo_draws)
           (fun _ => []) demo_flow [1; 2; 3]%R).
  exact demo_flow_init.
Defined.

(** ** Histograms: inverse transform sampling and parameter densities *)

Lemma searchsorted_length (a : list R) (v : R) : searchsorted a v <= length a.
Proof. induction a as [|c a IH]; simpl; [lia|]. destruct (Rlt_dec c v); lia. Qed.

Lemma searchsorted_ge (a : list R) (v : R) :
  forall k, k <= length a -> (forall j, j < k -> (nth j a 0 < v)%R) ->
            k <= searchsorted a v.
Proof.
  induction a as [|c a IH]; intros k Hk H; simpl in *; [lia|].
  destruct k as [|k]; [lia|].
  destruct (Rlt_dec c v) as [Hc|Hc].
  - apply le_n_S. apply IH; [lia|]. intros j Hj. apply (H (S j)). lia.
  - exfalso. apply Hc. apply (H 0). lia.
Qed.

Lemma sorted_nth_le (l : list R) :
  Sorted Rle l ->
  forall i j, i <= j -> j < length l -> (nth i l 0 <= nth j l 0)%R.
Proof.
  intros Hs. apply Sorted_StronglySorted in Hs; [|intros a b c; apply Rle_trans].
  induction Hs as [|a l Hs IH Ha]; intros i j Hij Hj; simpl in Hj; [lia|].
  destruct j as [|j].
  - replace i with 0 by lia. lra.
  - destruct i as [|i].
    + simpl. rewrite Forall_forall in Ha. apply Ha. apply nth_In. lia.
    + simpl. apply IH; lia.
Qed.

Lemma py_index_nat (A : Type) (l : list A) (k : nat) (d : A) :
  k < length l -> py_index l (Z.of_nat k) = Ok (nth k l d).
Proof.
  intros Hk. unfold py_index.
  destruct (Z.leb_spec 0 (Z.of_nat k)) as [_|H]; [|lia].
  rewrite Nat2Z.id. now rewrite nth_error_nth' with (d := d).
Qed.

(** X14. Inverse transform sampling inverts the stored distribution: for
    what is stored for a histogram with non-negative values (one of them
    positive), a draw [u] with [cdf[k] < u <= cdf[k+1]] yields the upper edge
    of bin [k]. *)
Theorem X14_ITS_inverts_cdf (s : MAConditionalFlowModel.hist) (u : R) (k : nat) :
  valid_stored s ->
  k < length (snd s) ->
  (nth k (fst s) 0 < u <= nth (S k) (fst s) 0)%R ->
  MAConditionalFlowModel.ITS_point s u = Ok (nth k (snd s) 0%R).
Proof.
  intros (values & edges & -> & Hn & He & Hl) Hk [Hlo Hhi].
  cbn [fst snd] in *.
  assert (Hue : length (tl edges) = length values).
  { destruct edges; [discriminate|]. cbn [tl length] in *. lia. }
  pose proof (make_cdf_sorted Hn He) as Hs.
  pose proof (length_make_cdf values) as Hc.
  assert (E : searchsorted (MAConditionalFlowModel.make_cdf values) u = S k).
  { apply Nat.le_antisymm.
    - apply searchsorted_le; [lia|exact Hhi].
    - apply searchsorted_ge; [lia|]. intros j Hj.
      eapply Rle_lt_trans; [|exact Hlo]. apply sorted_nth_le; [exact Hs|lia|lia]. }
  unfold MAConditionalFlowModel.ITS_point. cbn [fst snd]. rewrite E.
  replace (Z.of_nat (S k) - 1)%Z with (Z.of_nat k) by lia.
  apply py_index_nat. exact Hk.
Qed.

Lemma hist_A_stored :
  valid_stored (MAConditionalFlowModel.make_cdf (fst hist_A), tl (snd hist_A)).
Proof.
  exists (fst hist_A), (snd hist_A). split; [reflexivity|]. split.
  - repeat constructor; simpl; lra.
  - split; [left; simpl; lra | reflexivity].
Qed.

Lemma hist_A_cdf :
  MAConditionalFlowModel.make_cdf (fst hist_A) = [0; 1 / 2; 1; 1]%R.
Proof.
  unfold MAConditionalFlowModel.make_cdf, hist_A, cumsum. simpl.
  repeat (f_equal; [field|]). f_equal. field.
Qed.

Lemma X14_ITS_inverts_cdf_witness :
  valid_stored (MAConditionalFlowModel.make_cdf (fst hist_A), tl (snd hist_A))
  /\ 1 < length (snd (MAConditionalFlowModel.make_cdf (fst hist_A), tl (snd hist_A)))
  /\ MAConditionalFlowModel.ITS_point
       (MAConditionalFlowModel.make_cdf (fst hist_A), tl (snd hist_A)) (6 / 10)%R
     = Ok (nth 1 (snd (MAConditionalFlowModel.make_cdf (fst hist_A), tl (snd hist_A))) 0%R).
Proof.
  split; [exact hist_A_stored|]. split; [simpl; lia|].
  apply (X14_ITS_inverts_cdf
           (MAConditionalFlowModel.make_cdf (fst hist_A), tl (snd hist_A)) (6 / 10)%R 1);
    [exact hist_A_stored | simpl; lia |].
  cbn [fst]. rewrite hist_A_cdf. simpl. lra.
Defined.

Lemma nth_last (A : Type) (l : list A) (d : A) :
  l <> [] -> nth (length l - 1) l d = last l d.
Proof.
  induction l as [|a [|b l] IH]; intros Hne; try congruence; [reflexivity|].
  change (last (a :: b :: l) d) with (last (b :: l) d).
  rewrite <- IH by discriminate. simpl. now rewrite Nat.sub_0_r.
Qed.

Section StoredHistogram.
Variable values : list R.
Hypothesis Hnonneg : Forall (fun a => 0 <= a)%R values.
Hypothesis Hpos : Exists (fun a => 0 < a)%R values.
Let cdf := MAConditionalFlowModel.make_cdf values.

Lemma cdf_first : nth 0 cdf 0%R = 0%R.
Proof.
  pose proof (make_cdf_head values) as H. fold cdf in H.
  destruct cdf; simpl in *; auto.
Qed.

Lemma cdf_final : nth (S (length values)) cdf 0%R = 1%R.
Proof.
  pose proof (make_cdf_last Hnonneg Hpos) as H. fold cdf in H.
  pose proof (length_make_cdf values) as Hl. fold cdf in Hl.
  rewrite <- H. rewrite <- nth_last.
  - f_equal. lia.
  - intros E. rewrite E in Hl. simpl in Hl. lia.
Qed.

Lemma cdf_range (i : nat) : (0 <= nth i cdf 0 <= 1)%R.
Proof.
  pose proof (length_make_cdf values) as Hl. fold cdf in Hl.
  pose proof (make_cdf_sorted Hnonneg Hpos) as Hs. fold cdf in Hs.
  destruct (Nat.lt_ge_cases i (length cdf)) as [Hi|Hi].
  - pose proof (sorted_nth_le cdf Hs 0 i) as H0.
    pose proof (sorted_nth_le cdf Hs i (S (length values))) as H1.
    rewrite cdf_first in H0. rewrite cdf_final in H1.
    split; [apply H0; lia | apply H1; lia].
  - rewrite nth_overflow by exact Hi. lra.
Qed.

Lemma cdf_step_nonneg (i : nat) :
  i <= length values -> (0 <= nth (S i) cdf 0 - nth i cdf 0)%R.
Proof.
  intros Hi.
  pose proof (length_make_cdf values) as Hl. fold cdf in Hl.
  pose proof (make_cdf_sorted Hnonneg Hpos) as Hs. fold cdf in Hs.
  pose proof (sorted_nth_le cdf Hs i (S i)) as H.
  assert (nth i cdf 0 <= nth (S i) cdf 0)%R by (apply H; lia). lra.
Qed.
End StoredHistogram.

Lemma param_factor_steps (h : MAConditionalFlowModel.hist) (v : R) :
  MAConditionalFlowModel.param_factor h v
  = (nth (S (searchsorted (snd h) v)) (fst h) 0
     - nth (searchsorted (snd h) v) (fst h) 0)%R.
Proof.
  unfold MAConditionalFlowModel.param_factor. cbv zeta.
  replace (Z.to_nat (Z.of_nat (searchsorted (snd h) v) + 1))
    with (S (searchsorted (snd h) v)) by lia.
  replace (Z.to_nat (Z.max (Z.of_nat (searchsorted (snd h) v) + 1 - 1) 0))
    with (searchsorted (snd h) v) by lia.
  reflexivity.
Qed.

Lemma stored_edges_length (values edges : list R) :
  length edges = S (length values) -> length (tl edges) = length values.
Proof. destruct edges; [discriminate|]. cbn [tl length]. lia. Qed.

Lemma param_factor_range (s : MAConditionalFlowModel.hist) (v : R) :
  valid_stored s -> (0 <= MAConditionalFlowModel.param_factor s v <= 1)%R.
Proof.
  intros (values & edges & -> & Hn & He & Hl).
  rewrite param_factor_steps. cbn [fst snd].
  pose proof (searchsorted_length (tl edges) v) as Hss.
  rewrite (stored_edges_length values edges Hl) in Hss.
  pose proof (cdf_step_nonneg values Hn He _ Hss) as H0.
  pose proof (cdf_range values Hn He (S (searchsorted (tl edges) v))) as H1.
  pose proof (cdf_range values Hn He (searchsorted (tl edges) v)) as H2.
  lra.
Qed.

(** X15. [param_density] returns a number between 0 and 1: when every
    stored histogram comes from non-negative values (one of them positive),
    each factor is the difference of two neighbouring entries of a
    non-decreasing distribution running from 0 to 1. *)
Theorem X15_param_density_in_unit_interval (m : MAConditionalFlowModel.t) (x : list R) :
  Forall valid_stored (MAConditionalFlowModel.param_hists m) ->
  MAConditionalFlowModel.n_params m = length (MAConditionalFlowModel.param_hists m) ->
  (0 <= MAConditionalFlowModel.param_density m x <= 1)%R.
Proof.
  intros Hv Hn. unfold MAConditionalFlowModel.param_density. cbv zeta.
  set (f := fun densities i => _).
  assert (H : forall l acc,
             Forall (fun i => i < MAConditionalFlowModel.n_params m) l ->
             (0 <= acc <= 1)%R -> (0 <= fold_left f l acc <= 1)%R).
  { induction l as [|i l IH]; intros acc Hl Ha; [exact Ha|].
    cbn [fold_left]. inversion Hl as [|? ? Hi Hl']; subst.
    apply IH; [exact Hl'|]. unfold f.
    assert (Hs : valid_stored (nth i (MAConditionalFlowModel.param_hists m) ([], []))).
    { rewrite Forall_forall in Hv. apply Hv, nth_In. lia. }
    pose proof (param_factor_range
                  (nth i (MAConditionalFlowModel.param_hists m) ([], []))
                  (nth i (firstn (MAConditionalFlowModel.n_params m) x) 0%R) Hs) as Hf.
    split; [apply Rmult_le_pos; lra|].
    rewrite <- (Rmult_1_l 1). apply Rmult_le_compat; lra. }
  apply H; [|lra]. apply Forall_forall. intros i Hi. unfold range in Hi.
  apply in_seq in Hi. lia.
Qed.

Lemma X15_param_density_in_unit_interval_witness :
  Forall valid_stored (MAConditionalFlowModel.param_hists demo_cond)
  /\ MAConditionalFlowModel.n_params demo_cond
     = length (MAConditionalFlowModel.param_hists demo_cond)
  /\ (0 <= MAConditionalFlowModel.param_density demo_cond [3 / 2; 0; 0] <= 1)%R.
Proof.
  split; [exact demo_cond_hists|]. split; [reflexivity|].
  apply (X15_param_density_in_unit_interval demo_cond [3 / 2; 0; 0]%R);
    [exact demo_cond_hists | reflexivity].
Defined.

(** X16. A parameter value above every upper bin edge gets the factor 0 in
    [param_density]: it falls into the padding bin at the end of the stored
    distribution, whose two ends are both 1. *)
Theorem X16_no_density_above_last_edge (s : MAConditionalFlowModel.hist) (v : R) :
  valid_stored s ->
  Forall (fun e => e < v)%R (snd s) ->
  MAConditionalFlowModel.param_factor s v = 0%R.
Proof.
  intros (values & edges & -> & Hn & He & Hl) Hv.
  rewrite param_factor_steps. cbn [fst snd] in *.
  pose proof (stored_edges_length values edges Hl) as Hue.
  assert (E : searchsorted (tl edges) v = length values).
  { apply Nat.le_antisymm.
    - rewrite <- Hue. apply searchsorted_length.
    - apply searchsorted_ge; [lia|]. intros j Hj.
      rewrite Forall_forall in Hv. apply Hv, nth_In. lia. }
  rewrite E, (cdf_final values Hn He), (make_cdf_top Hn He). ring.
Qed.

Lemma X16_no_density_above_last_edge_witness :
  valid_stored (MAConditionalFlowModel.make_cdf (fst hist_A), tl (snd hist_A))
  /\ Forall (fun e => e < 3)%R
            (snd (MAConditionalFlowModel.make_cdf (fst hist_A), tl (snd hist_A)))
  /\ MAConditionalFlowModel.param_factor
       (MAConditionalFlowModel.make_cdf (fst hist_A), tl (snd hist_A)) 3%R = 0%R.
Proof.
  assert (H : Forall (fun e => e < 3)%R
                (snd (MAConditionalFlowModel.make_cdf (fst hist_A), tl (snd hist_A)))).
  { simpl. constructor; [lra|]. constructor; [lra|]. constructor. }
  split; [exact hist_A_stored|]. split; [exact H|].
  apply (X16_no_density_above_last_edge
           (MAConditionalFlowModel.make_cdf (fst hist_A), tl (snd hist_A)) 3%R);
    [exact hist_A_stored | exact H].
Defined.

Lemma cumsum_from_step (v : list R) :
  forall acc j, j < length v ->
    (nth (S j) (acc :: cumsum_from acc v) 0 - nth j (acc :: cumsum_from acc v) 0
     = nth j v 0)%R.
Proof.
  induction v as [|a v IH]; intros acc j Hj; simpl in Hj; [lia|].
  destruct j as [|j].
  - simpl. ring.
  - change (nth (S (S j)) (acc :: cumsum_from acc (a :: v)) 0%R)
      with (nth (S j) ((acc + a)%R :: cumsum_from (acc + a)%R v) 0%R).
    change (nth (S j) (acc :: cumsum_from acc (a :: v)) 0%R)
      with (nth j ((acc + a)%R :: cumsum_from (acc + a)%R v) 0%R).
    apply IH. lia.
Qed.

Lemma length_cumsum_from (v : list R) :
  forall acc, length (cumsum_from acc v) = length v.
Proof. induction v as [|a v IH]; intros acc; simpl; auto. Qed.

Lemma make_cdf_step (values : list R) (j : nat) :
  j < length values ->
  (nth (S j) (MAConditionalFlowModel.make_cdf values) 0
   - nth j (MAConditionalFlowModel.make_cdf values) 0
   = nth j values 0 / Rsum values)%R.
Proof.
  intros Hj. rewrite make_cdf_unfold.
  assert (Hlen : length (0%R :: cumsum values) = S (length values)).
  { unfold cumsum. cbn [length]. now rewrite length_cumsum_from. }
  rewrite !nth_map_in with (d' := 0%R) by (rewrite length_app, Hlen; simpl; lia).
  rewrite !app_nth1 by lia.
  rewrite <- (cumsum_from_step values 0 j Hj). unfold cumsum, Rdiv. ring.
Qed.

(** X17. [param_density] gives a parameter value the normalised content of
    the bin [searchsorted] puts it in: when the sorted upper edges before position
    [j] are below the value and the upper edge at [j] is not, the factor is
    [values[j]] divided by the (non-zero) sum of the values. For [j = 0] this covers
    every value up to the first upper edge, also those below the lowest
    bin edge, which is never looked at. *)
Theorem X17_param_factor_is_bin_content (values edges : list R) (v : R) (j : nat) :
  length edges = S (length values) ->
  Sorted Rle (tl edges) ->
  Rsum values <> 0%R ->
  j < length values ->
  (forall i, i < j -> (nth i (tl edges) 0 < v)%R) ->
  (v <= nth j (tl edges) 0)%R ->
  MAConditionalFlowModel.param_factor
    (MAConditionalFlowModel.make_cdf values, tl edges) v
  = (nth j values 0 / Rsum values)%R.
Proof.
  intros Hl _ _ Hj Hlo Hhi. rewrite param_factor_steps. cbn [fst snd].
  pose proof (stored_edges_length values edges Hl) as Hue.
  assert (E : searchsorted (tl edges) v = j).
  { apply Nat.le_antisymm.
    - apply searchsorted_le; [lia|exact Hhi].
    - apply searchsorted_ge; [lia|exact Hlo]. }
  rewrite E. now apply make_cdf_step.
Qed.

Lemma X17_param_factor_is_bin_content_witness :
  length [0; 1; 2]%R = S (length [1; 3]%R)
  /\ Sorted Rle (tl [0; 1; 2]%R)
  /\ Rsum [1; 3]%R <> 0%R
  /\ 0 < length [1; 3]%R
  /\ (forall i, i < 0 -> (nth i (tl [0; 1; 2]) 0 < -5)%R)
  /\ (-5 <= nth 0 (tl [0; 1; 2]) 0)%R
  /\ MAConditionalFlowModel.param_factor
       (MAConditionalFlowModel.make_cdf [1; 3]%R, tl [0; 1; 2]%R) (-5)%R
     = (nth 0 [1; 3] 0 / Rsum [1; 3])%R.
Proof.
  assert (H : forall i, i < 0 -> (nth i (tl [0; 1; 2]) 0 < -5)%R) by (intros i Hi; lia).
  assert (Hs : Rsum [1; 3]%R <> 0%R) by (unfold Rsum, reduce_sum; simpl; lra).
  assert (Ho : Sorted Rle (tl [0; 1; 2]%R)).
  { simpl. constructor; [constructor; [constructor|constructor]|]. constructor. lra. }
  split; [reflexivity|]. split; [exact Ho|]. split; [exact Hs|].
  split; [simpl; lia|]. split; [exact H|]. split; [simpl; lra|].
  apply (X17_param_factor_is_bin_content [1; 3]%R [0; 1; 2]%R (-5)%R 0);
    [reflexivity | exact Ho | exact Hs | simpl; lia | exact H | simpl; lra].
Defined.

(** ** Sampling *)

Lemma map_id_on (X : Type) (f : X -> X) (Q : X -> Prop) (l : list X) :
  (forall u, Q u -> f u = u) -> Forall Q l -> map f l = l.
Proof.
  intros H. induction 1 as [|u l Hu _ IH]; simpl; [reflexivity|].
  now rewrite H, IH.
Qed.

(** X18. The points [MAFlowModel.sample] returns are the inverse images of
    the latent draws: the forward pass maps every sampled point back to the
    draw it was computed from. *)
Theorem X18_sampled_points_map_back (m : MAFlowModel.t) (normal : nat -> list (list R))
    (n : nat) :
  wf_flow m ->
  Forall (fun r => length r = MAFlowModel.in_shape m) (normal n) ->
  map (fun x => fst (MAFlowModel.call m x true)) (MAFlowModel.sample m normal n)
  = normal n.
Proof.
  intros Hwf Hr. unfold MAFlowModel.sample, MAFlowModel.predict. cbn [fst].
  rewrite map_map.
  apply map_id_on with (Q := fun r => length r = MAFlowModel.in_shape m); [|exact Hr].
  intros z Hz. now apply flow_forward_inverse.
Qed.

Lemma X18_sampled_points_map_back_witness :
  wf_flow demo_flow
  /\ Forall (fun r => length r = MAFlowModel.in_shape demo_flow)
            (repeat [1; 2; 3]%R 2)
  /\ map (fun x => fst (MAFlowModel.call demo_flow x true))
         (MAFlowModel.sample demo_flow (fun k => repeat [1; 2; 3]%R k) 2)
     = repeat [1; 2; 3]%R 2.
Proof.
  assert (H : Forall (fun r => length r = MAFlowModel.in_shape demo_flow)
                (repeat [1; 2; 3]%R 2)).
  { simpl. repeat constructor. }
  split; [exact demo_flow_wf|]. split; [exact H|].
  apply (X18_sampled_points_map_back demo_flow (fun k => repeat [1; 2; 3]%R k) 2);
    [exact demo_flow_wf | exact H].
Defined.

Lemma firstn_app_exact (A : Type) (a b : list A) : firstn (length a) (a ++ b) = a.
Proof.
  rewrite firstn_app, Nat.sub_diag, firstn_all. simpl. apply app_nil_r.
Qed.

Lemma params_accepted (m : MAConditionalFlowModel.t) (n : nat) (params : list (list R)) :
  length params = n ->
  Forall (fun r => length r = MAConditionalFlowModel.n_params m) params ->
  negb (length params =? n)
  || negb (forallb (fun r => length r =? MAConditionalFlowModel.n_params m) params)
  = false.
Proof.
  intros Hl Hr. rewrite Hl, Nat.eqb_refl. cbn [negb orb].
  assert (E : forallb (fun r => length r =? MAConditionalFlowModel.n_params m) params
              = true).
  { apply forallb_forall. rewrite Forall_forall in Hr. intros r Hin.
    apply Nat.eqb_eq. now apply Hr. }
  now rewrite E.
Qed.

(** X19. [MAConditionalFlowModel.sample] for at least one point and with
    supplied parameters of shape [(n_points, n_params)] returns [n_points]
    rows, and row [j] starts with the parameters of row [j] of [params],
    unchanged by the inverse pass. *)
Theorem X19_supplied_params_kept (m : MAConditionalFlowModel.t) (rand : nat -> list R)
    (normal : nat -> list (list R)) (n : nat) (params : list (list R)) :
  1 <= n ->
  wf_cond m ->
  length params = n ->
  Forall (fun r => length r = MAConditionalFlowModel.n_params m) params ->
  length (normal n) = n ->
  exists xs,
    MAConditionalFlowModel.sample m rand normal n (Some params) = Ok xs
    /\ length xs = n
    /\ forall j, j < n ->
         firstn (MAConditionalFlowModel.n_params m) (nth j xs []) = nth j params [].
Proof.
  intros _ Hwf Hl Hr Hn. unfold MAConditionalFlowModel.sample.
  rewrite (params_accepted m n params Hl Hr). cbn [bind].
  eexists. split; [reflexivity|].
  unfold MAConditionalFlowModel.predict. cbn [fst]. split.
  - rewrite length_map, length_zip_with. lia.
  - intros j Hj.
    rewrite nth_map_in with (d' := []) by (rewrite length_zip_with; lia).
    rewrite nth_zip_with with (da := []) (db := []) by lia.
    assert (Hp : length (nth j params []) = MAConditionalFlowModel.n_params m).
    { rewrite Forall_forall in Hr. apply Hr, nth_In. lia. }
    rewrite CondFacts.call_keeps.
    + rewrite <- Hp. apply firstn_app_exact.
    + destruct Hwf as (_ & _ & _ & _ & _ & _ & H). exact H.
    + rewrite length_app. lia.
Qed.

Lemma X19_supplied_params_kept_witness :
  1 <= 1
  /\ wf_cond demo_cond
  /\ length [[7]]%R = 1
  /\ Forall (fun r => length r = MAConditionalFlowModel.n_params demo_cond) [[7]]%R
  /\ length (demo_normal 1) = 1
  /\ exists xs,
       MAConditionalFlowModel.sample demo_cond demo_rand demo_normal 1 (Some [[7]]%R)
       = Ok xs
       /\ length xs = 1
       /\ forall j, j < 1 ->
            firstn (MAConditionalFlowModel.n_params demo_cond) (nth j xs [])
            = nth j [[7]]%R [].
Proof.
  assert (H : Forall (fun r => length r = MAConditionalFlowModel.n_params demo_cond)
                [[7]]%R).
  { repeat constructor. }
  split; [lia|].
  split; [exact demo_cond_wf|]. split; [reflexivity|]. split; [exact H|].
  split; [reflexivity|].
  apply (X19_supplied_params_kept demo_cond demo_rand demo_normal 1 [[7]]%R);
    [lia | exact demo_cond_wf | reflexivity | exact H | reflexivity].
Defined.

(** X20. The forward pass maps the points [MAConditionalFlowModel.sample]
    returns for supplied parameters back to the rows they were computed
    from: the supplied parameters followed by the latent draw. *)
Theorem X20_cond_sampled_points_map_back (m : MAConditionalFlowModel.t)
    (rand : nat -> list R) (normal : nat -> list (list R)) (n : nat)
    (params xs : list (list R)) :
  wf_cond m ->
  length params = n ->
  Forall (fun r => length r = MAConditionalFlowModel.n_params m) params ->
  Forall (fun r => length r = MAConditionalFlowModel.in_shape m) (normal n) ->
  MAConditionalFlowModel.sample m rand normal n (Some params) = Ok xs ->
  map (fun x => fst (MAConditionalFlowModel.call m x true)) xs
  = zip_with (@app R) params (normal n).
Proof.
  intros Hwf Hl Hr Hz. unfold MAConditionalFlowModel.sample.
  rewrite (params_accepted m n params Hl Hr). cbn [bind].
  intros E; injection E as <-.
  unfold MAConditionalFlowModel.predict. cbn [fst]. rewrite map_map.
  apply map_id_on
    with (Q := fun r => length r = MAConditionalFlowModel.n_params m
                                   + MAConditionalFlowModel.in_shape m).
  - intros z Hlen. now apply cond_forward_inverse.
  - eapply Forall_zip_with; [|exact Hr|exact Hz].
    intros a b Ha Hb. cbv beta in *. rewrite length_app. lia.
Qed.

Lemma X20_cond_sampled_points_map_back_witness :
  wf_cond demo_cond
  /\ length [[7]]%R = 1
  /\ Forall (fun r => length r = MAConditionalFlowModel.n_params demo_cond) [[7]]%R
  /\ Forall (fun r => length r = MAConditionalFlowModel.in_shape demo_cond)
            (demo_normal 1)
  /\ MAConditionalFlowModel.sample demo_cond demo_rand demo_normal 1 (Some [[7]]%R)
     = Ok (fst (MAConditionalFlowModel.predict demo_cond
                  (zip_with (@app R) [[7]]%R (demo_normal 1))))
  /\ map (fun x => fst (MAConditionalFlowModel.call demo_cond x true))
         (fst (MAConditionalFlowModel.predict demo_cond
                 (zip_with (@app R) [[7]]%R (demo_normal 1))))
     = zip_with (@app R) [[7]]%R (demo_normal 1).
Proof.
  assert (H : Forall (fun r => length r = MAConditionalFlowModel.n_params demo_cond)
                [[7]]%R).
  { repeat constructor. }
  assert (Hz : Forall (fun r => length r = MAConditionalFlowModel.in_shape demo_cond)
                 (demo_normal 1)).
  { repeat constructor. }
  assert (E : MAConditionalFlowModel.sample demo_cond demo_rand demo_normal 1
                (Some [[7]]%R)
              = Ok (fst (MAConditionalFlowModel.predict demo_cond
                           (zip_with (@app R) [[7]]%R (demo_normal 1))))).
  { reflexivity. }
  split; [exact demo_cond_wf|]. split; [reflexivity|]. split; [exact H|].
  split; [exact Hz|]. split; [exact E|].
  apply (X20_cond_sampled_points_map_back demo_cond demo_rand demo_normal 1 [[7]]%R
           (fst (MAConditionalFlowModel.predict demo_cond
                   (zip_with (@app R) [[7]]%R (demo_normal 1)))));
    [exact demo_cond_wf | reflexivity | exact H | exact Hz | exact E].
Defined.

(** X21. [MAConditionalFlowModel.sample] rejects supplied parameters whose
    shape is not [(n_points, n_params)]: a wrong number of rows or one row of
    a wrong width raises, before anything is drawn. *)
Theorem X21_bad_params_rejected (m : MAConditionalFlowModel.t) (rand : nat -> list R)
    (normal : nat -> list (list R)) (n : nat) (params : list (list R)) :
  length params <> n
  \/ Exists (fun r => length r <> MAConditionalFlowModel.n_params m) params ->
  MAConditionalFlowModel.sample m rand normal n (Some params) = Raise ParamsShape.
Proof.
  intros H. unfold MAConditionalFlowModel.sample.
  assert (E : negb (length params =? n)
              || negb (forallb (fun r => length r =? MAConditionalFlowModel.n_params m)
                               params) = true).
  { destruct H as [H|H].
    - apply Nat.eqb_neq in H. now rewrite H.
    - apply Bool.orb_true_iff. right. apply Bool.negb_true_iff.
      destruct (forallb _ params) eqn:Ef; [|reflexivity].
      rewrite forallb_forall in Ef. apply Exists_exists in H.
      destruct H as (r & Hin & Hr). specialize (Ef r Hin).
      apply Nat.eqb_eq in Ef. contradiction. }
  rewrite E. reflexivity.
Qed.

Lemma X21_bad_params_rejected_witness :
  (length [[7; 8]]%R <> 1
   \/ Exists (fun r => length r <> MAConditionalFlowModel.n_params demo_cond) [[7; 8]]%R)
  /\ MAConditionalFlowModel.sample demo_cond demo_rand demo_normal 1 (Some [[7; 8]]%R)
     = Raise ParamsShape.
Proof.
  assert (H : length [[7; 8]]%R <> 1
              \/ Exists (fun r => length r <> MAConditionalFlowModel.n_params demo_cond)
                        [[7; 8]]%R).
  { right. left. simpl. discriminate. }
  split; [exact H|].
  apply (X21_bad_params_rejected demo_cond demo_rand demo_normal 1 [[7; 8]]%R). exact H.
Defined.

(** ** What the constructors reject and what they build *)

Lemma stack_too_few (D P L W : nat) (dr : draws) :
  D < 2 -> stack D P 2 ["tanh"; "linear"]%string L W dr = Raise TooFewInputs.
Proof.
  intros HD. unfold stack. cbn -[mapM range MADE.init MADE.build nth Nat.ltb].
  unfold range. cbn [seq mapM nth]. unfold MADE.init.
  destruct (Nat.ltb_spec D 2); [reflexivity|lia].
Qed.

(** X22. With at least one coupling layer and fewer than two inputs both
    flow constructors raise the error of the first MADE layer they try to
    create; the conditional constructor does so before it looks at the
    histograms. *)
Theorem X22_too_few_inputs (n D L W : nat) (permutations : option (list (list nat)))
    (hists : list MAConditionalFlowModel.hist) (dr0 dr : nat -> draws)
    (rp : nat -> list nat) :
  1 <= n -> D < 2 ->
  MAFlowModel.init n D L W permutations dr0 rp = Raise TooFewInputs
  /\ MAConditionalFlowModel.init n D hists L W permutations dr0 dr rp
     = Raise TooFewInputs.
Proof.
  intros Hn HD.
  assert (E : MAFlowModel.init n D L W permutations dr0 rp = Raise TooFewInputs).
  { destruct n as [|n]; [lia|]. unfold MAFlowModel.init, range. cbn [seq mapM].
    unfold MACoupling. rewrite stack_too_few by exact HD. reflexivity. }
  split; [exact E|]. unfold MAConditionalFlowModel.init. rewrite E. reflexivity.
Qed.

Lemma X22_too_few_inputs_witness :
  1 <= 1 /\ 1 < 2
  /\ MAFlowModel.init 1 1 1 1 None (fun _ => demo_draws) (fun _ => [])
     = Raise TooFewInputs.
Proof.
  split; [lia|]. split; [lia|].
  apply (X22_too_few_inputs 1 1 1 1 None [] (fun _ => demo_draws) (fun _ => demo_draws)
           (fun _ => [])); lia.
Defined.

Lemma base_init_ok (n D L W : nat) (permutations : option (list (list nat)))
    (dr : nat -> draws) (rp : nat -> list nat) :
  (2 <= D /\ 1 <= L) \/ n = 0 ->
  exists m, MAFlowModel.init n D L W permutations dr rp = Ok m.
Proof.
  intros [[HD HL]| ->].
  - destruct (@flow_init_ok n D L W permutations dr rp HD HL) as (m & E & _).
    now exists m.
  - unfold MAFlowModel.init, range. cbn [seq mapM bind]. eexists; reflexivity.
Qed.

(** X23. When the constructor of the base class succeeds (at least two
    inputs and one hidden layer, or no coupling layer at all),
    [MAConditionalFlowModel.__init__] called without histograms raises: a
    conditional model has at least one parameter. *)
Theorem X23_no_histograms_rejected (n D L W : nat)
    (permutations : option (list (list nat))) (dr0 dr : nat -> draws)
    (rp : nat -> list nat) :
  (2 <= D /\ 1 <= L) \/ n = 0 ->
  MAConditionalFlowModel.init n D [] L W permutations dr0 dr rp = Raise NoParams.
Proof.
  intros H. unfold MAConditionalFlowModel.init.
  destruct (base_init_ok n D L W permutations dr0 rp H) as [m ->]. reflexivity.
Qed.

Lemma X23_no_histograms_rejected_witness :
  ((2 <= 2 /\ 1 <= 1) \/ 2 = 0)
  /\ MAConditionalFlowModel.init 2 2 [] 1 1 None (fun _ => demo_draws2)
       (fun _ => demo_cond_draws) (fun _ => [])
     = Raise NoParams.
Proof.
  split; [left; lia|].
  apply (X23_no_histograms_rejected 2 2 1 1 None (fun _ => demo_draws2)
           (fun _ => demo_cond_draws) (fun _ => [])).
  left; lia.
Defined.

Lemma store_hist_raise (h : MAConditionalFlowModel.hist) :
  length (fst h) + 1 <> length (snd h) ->
  MAConditionalFlowModel.store_hist h = Raise HistShape.
Proof.
  intros H. unfold MAConditionalFlowModel.store_hist.
  destruct (Z.eqb_spec (Z.of_nat (length (fst h))) (Z.of_nat (length (snd h)) - 1));
    [lia|reflexivity].
Qed.

Lemma store_hists_raise (hists : list MAConditionalFlowModel.hist) :
  Exists (fun h => length (fst h) + 1 <> length (snd h)) hists ->
  mapM MAConditionalFlowModel.store_hist hists = Raise HistShape.
Proof.
  induction 1 as [h l Hh|h l _ IH]; cbn [mapM].
  - rewrite store_hist_raise by exact Hh. reflexivity.
  - rewrite IH. unfold MAConditionalFlowModel.store_hist.
    destruct (negb _); reflexivity.
Qed.

(** X24. When the constructor of the base class succeeds (at least two
    inputs and one hidden layer, or no coupling layer at all),
    [MAConditionalFlowModel.__init__] raises as soon as one histogram does
    not have exactly one more bin edge than values, whatever the other
    histograms are. *)
Theorem X24_bad_histogram_rejected (n D L W : nat)
    (hists : list MAConditionalFlowModel.hist)
    (permutations : option (list (list nat))) (dr0 dr : nat -> draws)
    (rp : nat -> list nat) :
  (2 <= D /\ 1 <= L) \/ n = 0 ->
  Exists (fun h => length (fst h) + 1 <> length (snd h)) hists ->
  MAConditionalFlowModel.init n D hists L W permutations dr0 dr rp = Raise HistShape.
Proof.
  intros H Hh. unfold MAConditionalFlowModel.init.
  destruct (base_init_ok n D L W permutations dr0 rp H) as [m ->]. cbn [bind].
  rewrite store_hists_raise by exact Hh. reflexivity.
Qed.

Lemma X24_bad_histogram_rejected_witness :
  ((2 <= 2 /\ 1 <= 1) \/ 2 = 0)
  /\ Exists (fun h : MAConditionalFlowModel.hist => length (fst h) + 1 <> length (snd h))
            [hist_A; ([1; 1]%R, [0; 1]%R)]
  /\ MAConditionalFlowModel.init 2 2 [hist_A; ([1; 1]%R, [0; 1]%R)] 1 1 None
       (fun _ => demo_draws2) (fun _ => demo_cond_draws) (fun _ => [])
     = Raise HistShape.
Proof.
  assert (H : Exists (fun h : MAConditionalFlowModel.hist =>
                        length (fst h) + 1 <> length (snd h))
                [hist_A; ([1; 1]%R, [0; 1]%R)]).
  { right. left. simpl. discriminate. }
  split; [left; lia|]. split; [exact H|].
  apply (X24_bad_histogram_rejected 2 2 1 1 [hist_A; ([1; 1]%R, [0; 1]%R)] None
           (fun _ => demo_draws2) (fun _ => demo_cond_draws) (fun _ => []));
    [left; lia | exact H].
Defined.

(** X25. A coupling stack given a non-empty list of activations whose length
    is not the number of networks raises, before any MADE layer is created;
    this holds for [MACoupling] and [MAConditionalCoupling]. *)
Theorem X25_activation_count_checked (D P n : nat) (acts : list string) (L W : nat)
    (dr : draws) :
  acts <> [] -> length acts <> n ->
  MACoupling D n acts L W dr = Raise ActivationCount
  /\ MAConditionalCoupling D P n acts L W dr = Raise ActivationCount.
Proof.
  intros Hne Hl. unfold MACoupling, MAConditionalCoupling, stack.
  destruct acts as [|a acts]; [congruence|]. cbn [MADE.is_empty].
  apply Nat.eqb_neq in Hl. rewrite Hl. split; reflexivity.
Qed.

Lemma X25_activation_count_checked_witness :
  ["tanh"%string] <> [] /\ length ["tanh"%string] <> 2
  /\ MACoupling 3 2 ["tanh"%string] 1 1 demo_draws = Raise ActivationCount.
Proof.
  split; [discriminate|]. split; [simpl; lia|].
  apply (X25_activation_count_checked 3 0 2 ["tanh"%string] 1 1 demo_draws);
    [discriminate | simpl; lia].
Defined.

Lemma Forall2_seq_nth (B : Type) (Q : nat -> B -> Prop) (d : B) (n : nat) :
  forall start bs, Forall2 Q (seq start n) bs ->
    length bs = n /\ forall i, i < n -> Q (start + i) (nth i bs d).
Proof.
  induction n as [|n IH]; intros start bs H; cbn [seq] in H.
  - inversion H; subst. split; [reflexivity|]. intros i Hi. lia.
  - inversion H as [|a b l l' Hab Hl]; subst.
    destruct (IH (S start) l' Hl) as [Hlen Hn]. split; [simpl; lia|].
    intros [|i] Hi; cbn [nth].
    + now rewrite Nat.add_0_r.
    + rewrite Nat.add_succ_r. apply (Hn i). lia.
Qed.

(** The labels a MADE layer ends up with, from its two constructor steps. *)
Lemma made_labels (D L W : nat) (act : string) (rn : list (list Z)) (P : nat)
    (silent : bool) (m0 m : MADE.t) (msgs : list message) (w : nat)
    (rng : list (list Z)) (ws : list (list (list R))) (bs : list (list R)) :
  MADE.init D L W act rn P silent = Ok (m0, msgs) ->
  MADE.build m0 w rng ws bs = Ok m ->
  1 <= L ->
  (MADE.np_shape rn = [L; W] ->
   ~ In WarnNumsMismatch msgs /\ MADE.nums m = offset_nums L P rn)
  /\ (MADE.np_shape rn <> [L; W] ->
      (In WarnNumsMismatch msgs <-> rn <> [])
      /\ MADE.nums m = offset_nums L P (internal_nums D L W rng)).
Proof.
  intros Ei Eb HL.
  destruct (build_fields _ _ _ _ _ Eb) as (_ & _ & _ & _ & _ & _ & _ & Hnums).
  unfold MADE.init in Ei. destruct (Nat.ltb_spec D 2) as [|HD]; [discriminate|].
  destruct (negb (existsb _ _)); [discriminate|]. split.
  - intros Hs.
    assert (Hlen : length rn = L).
    { destruct rn as [|r rest]; [discriminate Hs|]. unfold MADE.np_shape in Hs.
      destruct (forallb _ rest); [|discriminate Hs]. now injection Hs. }
    rewrite Hs, shape_eqb_refl in Ei. cbn [negb andb] in Ei.
    injection Ei as <- <-. split.
    + cbn [app]. destruct (negb (P =? 0) && negb silent); simpl; intuition discriminate.
    + rewrite Hnums. unfold MADE.build_nums, offset_nums.
      cbn [MADE.nums MADE.num_layers MADE.n_params].
      destruct (Nat.eqb_spec (length rn) 0); [lia|reflexivity].
  - intros Hs. rewrite (shape_eqb_false Hs) in Ei. cbn [negb andb] in Ei.
    injection Ei as <- <-. split.
    + destruct rn as [|r rest]; cbn [MADE.is_empty negb app].
      * split; [|congruence].
        destruct (negb (P =? 0) && negb silent); simpl; intuition discriminate.
      * split; [discriminate|]. intros _. now left.
    + rewrite Hnums. unfold MADE.build_nums, offset_nums, internal_nums.
      cbn [MADE.nums MADE.num_layers MADE.n_params MADE.in_shape MADE.num_nodes].
      assert (E : length (if negb (MADE.is_empty rn) then [] else rn) = 0).
      { destruct rn; reflexivity. }
      rewrite E. cbn [Nat.eqb].
      destruct (Nat.ltb_spec 2 D); [reflexivity|].
      destruct (Nat.eqb_spec D 2); [reflexivity|lia].
Qed.

Section StackLayers.
Variables (D P n L W : nat) (acts : list string) (dr : draws) (c : list MADE.t).
Hypothesis Hstack : MAConditionalCoupling D P n acts L W dr = Ok c.
Let acts' := if MADE.is_empty acts then repeat "relu"%string n else acts.
Let rn := if 2 <? D then coupling_nums dr else [].

Lemma stack_count : length acts' = n.
Proof.
  unfold MAConditionalCoupling, stack in Hstack. fold acts' in Hstack.
  destruct (Nat.eqb_spec (length acts') n) as [E|E]; [exact E|discriminate].
Qed.

Lemma stack_each :
  length c = n
  /\ forall i, i < n ->
       exists m0 msgs,
         MADE.init D L W (nth i acts' ""%string) rn P true = Ok (m0, msgs)
         /\ MADE.build m0 (D + P) (made_nums dr i) (made_kernels dr i) (made_biases dr i)
            = Ok (nth i c demo_made0).
Proof.
  pose proof stack_count as Hc.
  unfold MAConditionalCoupling, stack in Hstack. fold acts' rn in Hstack.
  rewrite Hc, Nat.eqb_refl in Hstack. cbn [negb] in Hstack.
  apply mapM_Forall2 in Hstack. unfold range in Hstack.
  apply Forall2_seq_nth with (d := demo_made0) in Hstack.
  destruct Hstack as [Hlen Hn]. split; [exact Hlen|].
  intros i Hi. specialize (Hn i Hi). cbn [Nat.add] in Hn.
  destruct (MADE.init D L W (nth i acts' ""%string) rn P true) as [[m0 msgs]|];
    [|discriminate].
  cbn [bind fst] in Hn. exists m0, msgs. split; [reflexivity|exact Hn].
Qed.

Lemma stack_fields (i : nat) :
  i < n ->
  MADE.in_shape (nth i c demo_made0) = D /\ MADE.n_params (nth i c demo_made0) = P
  /\ MADE.num_layers (nth i c demo_made0) = L
  /\ MADE.num_nodes (nth i c demo_made0) = W
  /\ MADE.activation (nth i c demo_made0) = nth i acts' ""%string
  /\ built (nth i c demo_made0).
Proof.
  intros Hi. destruct stack_each as [_ H].
  destruct (H i Hi) as (m0 & msgs & Ei & Eb).
  destruct (init_fields _ _ _ _ _ _ _ Ei) as (H1 & H2 & H3 & H4 & H5 & _).
  destruct (build_fields _ _ _ _ _ Eb) as (G1 & G2 & G3 & G4 & G5 & _).
  repeat split; try congruence. eapply build_built; exact Eb.
Qed.

Lemma stack_labels (i : nat) :
  i < n -> 1 <= L ->
  (2 < D -> MADE.np_shape (coupling_nums dr) = [L; W]) ->
  MADE.nums (nth i c demo_made0)
  = offset_nums L P (internal_nums D L W (coupling_nums dr)).
Proof.
  intros Hi HL Hs. destruct stack_each as [_ H].
  destruct (H i Hi) as (m0 & msgs & Ei & Eb).
  destruct (init_fields _ _ _ _ _ _ _ Ei) as (_ & _ & _ & _ & _ & HD).
  destruct (made_labels D L W _ rn P true m0 _ msgs _ _ _ _ Ei Eb HL) as [Hk Hr].
  unfold internal_nums. unfold rn in *.
  destruct (Nat.ltb_spec 2 D) as [H2|H2].
  - apply Hk. now apply Hs.
  - destruct Hr as [_ Hr]; [discriminate|].
    rewrite Hr. unfold internal_nums.
    destruct (Nat.ltb_spec 2 D); [lia|reflexivity].
Qed.
End StackLayers.

(** X26. A coupling stack that is constructed has one MADE layer per
    requested network, each with the requested numbers of inputs,
    parameters, hidden layers and nodes; the activations are the given ones,
    or relu everywhere when none are given. [MACoupling] is the case of no
    parameters. *)
Theorem X26_stack_layers_as_requested (D P n L W : nat) (acts : list string)
    (dr : draws) (c : list MADE.t) :
  MAConditionalCoupling D P n acts L W dr = Ok c ->
  length c = n
  /\ map MADE.activation c = (if MADE.is_empty acts then repeat "relu"%string n else acts)
  /\ Forall (fun m => MADE.in_shape m = D /\ MADE.n_params m = P
                      /\ MADE.num_layers m = L /\ MADE.num_nodes m = W) c.
Proof.
  intros Hs.
  destruct (stack_each D P n L W acts dr c Hs) as [Hlen _].
  pose proof (stack_count D P n L W acts dr c Hs) as Hc.
  pose proof (stack_fields D P n L W acts dr c Hs) as Hf.
  split; [exact Hlen|]. split.
  - apply list_ext with (d := ""%string).
    + now rewrite length_map, Hlen, Hc.
    + rewrite length_map, Hlen. intros i Hi.
      rewrite nth_map_in with (d' := demo_made0) by lia.
      now destruct (Hf i Hi) as (_ & _ & _ & _ & Ha & _).
  - apply Forall_forall. intros m Hin.
    destruct (In_nth _ _ demo_made0 Hin) as (i & Hi & <-).
    rewrite Hlen in Hi. destruct (Hf i Hi) as (H1 & H2 & H3 & H4 & _). auto.
Qed.

Lemma X26_stack_layers_as_requested_witness :
  MAConditionalCoupling 3 0 2 ["tanh"; "linear"]%string 1 1 demo_draws
  = Ok (nth 0 (MAFlowModel.layers_list demo_flow) [])
  /\ length (nth 0 (MAFlowModel.layers_list demo_flow) []) = 2
  /\ map MADE.activation (nth 0 (MAFlowModel.layers_list demo_flow) [])
     = ["tanh"; "linear"]%string.
Proof.
  split; [reflexivity|].
  destruct (X26_stack_layers_as_requested 3 0 2 1 1 ["tanh"; "linear"]%string demo_draws
              (nth 0 (MAFlowModel.layers_list demo_flow) []) eq_refl) as (H1 & H2 & _).
  split; [exact H1 | exact H2].
Defined.

(** X27. All MADE layers of a coupling stack carry the same order labels and
    therefore the same masks: the scale and the shift network of a coupling
    layer look at the same inputs. The labels are the ones the stack drew
    (more than two inputs) or all ones (two inputs), not the draws of the
    single layers. *)
Theorem X27_stack_shares_masks (D P n L W : nat) (acts : list string)
    (dr : draws) (c : list MADE.t) (m1 m2 : MADE.t) :
  MAConditionalCoupling D P n acts L W dr = Ok c ->
  1 <= L ->
  (2 < D -> MADE.np_shape (coupling_nums dr) = [L; W]) ->
  In m1 c -> In m2 c ->
  MADE.nums m1 = offset_nums L P (internal_nums D L W (coupling_nums dr))
  /\ MADE.nums m1 = MADE.nums m2
  /\ MADE.masks m1 = MADE.masks m2.
Proof.
  intros Hs HL Hshape Hin1 Hin2.
  destruct (stack_each D P n L W acts dr c Hs) as [Hlen _].
  destruct (In_nth _ _ demo_made0 Hin1) as (i & Hi & <-).
  destruct (In_nth _ _ demo_made0 Hin2) as (j & Hj & <-).
  rewrite Hlen in Hi, Hj.
  pose proof (stack_labels D P n L W acts dr c Hs i Hi HL Hshape) as N1.
  pose proof (stack_labels D P n L W acts dr c Hs j Hj HL Hshape) as N2.
  destruct (stack_fields D P n L W acts dr c Hs i Hi) as (A1 & A2 & A3 & A4 & _ & B1).
  destruct (stack_fields D P n L W acts dr c Hs j Hj) as (C1 & C2 & C3 & C4 & _ & B2).
  split; [exact N1|]. split; [congruence|].
  unfold built in B1, B2. rewrite B1, B2. unfold MADE.extra.
  rewrite A1, A2, A3, A4, C1, C2, C3, C4, N1, N2. reflexivity.
Qed.

Lemma X27_stack_shares_masks_witness :
  MAConditionalCoupling 3 0 2 ["tanh"; "linear"]%string 1 1 demo_draws
  = Ok (nth 0 (MAFlowModel.layers_list demo_flow) [])
  /\ 1 <= 1
  /\ (2 < 3 -> MADE.np_shape (coupling_nums demo_draws) = [1; 1])
  /\ MADE.masks (nth 0 (nth 0 (MAFlowModel.layers_list demo_flow) []) demo_made0)
     = MADE.masks (nth 1 (nth 0 (MAFlowModel.layers_list demo_flow) []) demo_made0).
Proof.
  split; [reflexivity|]. split; [lia|]. split; [intros _; reflexivity|].
  destruct (X27_stack_shares_masks 3 0 2 1 1 ["tanh"; "linear"]%string demo_draws
              (nth 0 (MAFlowModel.layers_list demo_flow) [])
              (nth 0 (nth 0 (MAFlowModel.layers_list demo_flow) []) demo_made0)
              (nth 1 (nth 0 (MAFlowModel.layers_list demo_flow) []) demo_made0)
              eq_refl (le_n 1) (fun _ => eq_refl))
    as (_ & _ & H).
  - simpl. left. reflexivity.
  - simpl. right. left. reflexivity.
  - exact H.
Defined.
